(** * Code-quality suite (JavaScript edition): orchestrator and maintainability scorer

    A shallow embedding of the two scripts that carry the logic of the suite:

    - [Scorer]: [scripts/maintainability-check.js].  JavaScript numbers are
      modelled as exact rationals ([Q]); file and function counters, which the
      analyzer reports as integers, are [Z].
    - [Binary64]: the score computation of the scorer once more, over
      binary64 floats, to show where rounding separates it from the exact
      reading.
    - [FileScan]: the file discovery of the scorer ([getFilesToAnalyze]),
      over a working directory and a directory tree given as data, with
      the calls to Node's [path] it makes.
    - [Runner]: [scripts/quality-check.js].  Child processes, the console and
      the file system are an explicit effect trace threaded through a state
      monad; what a child process does is read from a [World] oracle.

    Definitions come first, the theorems about them follow. *)

From Stdlib Require Import QArith Qminmax Lqa ZArith List String Ascii Lia
  PrimFloat.
From stdpp Require Import base gmap strings list pretty.
Import ListNotations.

Open Scope string_scope.

(** ** Small pieces of JavaScript shared by both scripts *)

Module Js.

(** [Array.prototype.includes] on an array of strings. *)
Definition includes (l : list string) (x : string) : bool :=
  existsb (String.eqb x) l.

(** Truthiness of a string value: only the empty string is falsy. *)
Definition truthy (s : string) : bool := negb (String.eqb s "").

(** [s.includes(sub)]. *)
Fixpoint isSubstring (sub s : string) : bool :=
  String.prefix sub s
  || match s with
     | EmptyString => false
     | String _ rest => isSubstring sub rest
     end.

(** What [replace] puts in for a match when the expression has no capture
    group: in the replacement text [$$] stands for a dollar sign, [$&] for
    the match, [$`] for the text before it and [$'] for the text after it;
    any other [$] stands for itself. *)
Fixpoint expand (matched before after replacement : string) : string :=
  match replacement with
  | EmptyString => EmptyString
  | String c rest =>
      if Ascii.eqb c "$" then
        match rest with
        | EmptyString => String c EmptyString
        | String d rest' =>
            if Ascii.eqb d "$" then
              String "$" (expand matched before after rest')
            else if Ascii.eqb d "&" then
              matched ++ expand matched before after rest'
            else if Ascii.eqb d "`" then
              before ++ expand matched before after rest'
            else if Ascii.eqb d "'" then
              after ++ expand matched before after rest'
            else String c (expand matched before after rest)
        end
      else String c (expand matched before after rest)
  end.

Fixpoint dropChars (n : nat) (s : string) : string :=
  match n, s with
  | S k, String _ rest => dropChars k rest
  | _, _ => s
  end.

(** [s.replace(/pat/g, rep)] for a literal, non-empty pattern and any
    replacement text; [before] is what has been read so far. *)
Fixpoint replaceFrom (pat rep : string) (skip : nat) (before s : string)
    : string :=
  match s with
  | EmptyString => EmptyString
  | String c rest =>
      match skip with
      | S k => replaceFrom pat rep k (before ++ String c EmptyString) rest
      | O =>
          if String.prefix pat s
          then
            expand pat before (dropChars (String.length pat) s) rep
            ++ replaceFrom pat rep (String.length pat - 1)
                 (before ++ String c EmptyString) rest
          else
            String c
              (replaceFrom pat rep 0 (before ++ String c EmptyString) rest)
      end
  end.

Definition replace (pat rep s : string) : string :=
  replaceFrom pat rep 0 "" s.

(** The text holds no [$]: as a replacement it is copied as it is. *)
Fixpoint plainReplacement (s : string) : bool :=
  match s with
  | EmptyString => true
  | String c rest => negb (Ascii.eqb c "$") && plainReplacement rest
  end.

Definition upperChar (c : ascii) : ascii :=
  let n := nat_of_ascii c in
  if ((97 <=? n) && (n <=? 122))%nat then ascii_of_nat (n - 32) else c.

(** [s.toUpperCase()] on ASCII text. *)
Fixpoint toUpperCase (s : string) : string :=
  match s with
  | EmptyString => EmptyString
  | String c rest => String (upperChar c) (toUpperCase rest)
  end.

(** [arr.join(sep)]. *)
Fixpoint join (sep : string) (l : list string) : string :=
  match l with
  | [] => ""
  | [x] => x
  | x :: rest => x ++ sep ++ join sep rest
  end.

(** The double-quote character, as a one-character string. *)
Definition dquote : string := String (ascii_of_nat 34) EmptyString.

End Js.

(** ** The maintainability scorer *)

Module Scorer.

Open Scope Q_scope.

(** *** Configuration ([config], lines 38-70) *)

Record Thresholds := {
  excellent : Q;
  good : Q;
  acceptable : Q;
  needsImprovement : Q
}.

Record ComplexityLimits := {
  maxCyclomatic : Z;
  maxDepth : Z;
  maxParams : Z;
  maxStatements : Z;
  maxLines : Z;
  maxLineLength : Z
}.

Record Config := {
  sourceDir : string;
  projectName : string;
  outputDir : string;
  thresholds : Thresholds;
  complexity : ComplexityLimits;
  exclude : list string
}.

Definition config : Config := {|
  sourceDir := "src";
  projectName := "Levero Frontend";
  outputDir := "reports/maintainability";
  thresholds := {|
    excellent := 90;
    good := 80;
    acceptable := 70;
    needsImprovement := 60
  |};
  complexity := {|
    maxCyclomatic := 10;
    maxDepth := 4;
    maxParams := 4;
    maxStatements := 20;
    maxLines := 300;
    maxLineLength := 100
  |};
  exclude := [
    "node_modules/**"; "dist/**"; "build/**"; ".next/**"; "coverage/**";
    "**/*.d.ts"; "**/types/supabase.ts"; "**/*generated*"; "tests/**";
    "**/*.test.*"; "**/*.spec.*"
  ]
|}.

(** *** Per-file results ([analyzeFileComplexity], lines 198-237)

    The object built for a file.  [fm_error] is the [error] property: absent
    on a successful analysis, the exception's message otherwise.  The
    Halstead sub-object is carried along by the script but never read by the
    scoring code and is left out. *)

Record FunctionMetric := {
  fn_name : string;
  fn_complexity : Z;
  fn_params : Z;
  fn_lines : Z;
  fn_maintainability : Q
}.

Record FileMetric := {
  fm_file : string;
  fm_error : option string;
  fm_complexity : Z;
  fm_maintainability : Q;
  fm_functions : list FunctionMetric;
  fm_lines : Z;
  fm_dependencies : Z
}.

(** The object of the [catch] branch of [analyzeFileComplexity]. *)
Definition errorEntry (filePath message : string) : FileMetric := {|
  fm_file := filePath;
  fm_error := Some message;
  fm_complexity := 0;
  fm_maintainability := 0;
  fm_functions := [];
  fm_lines := 0;
  fm_dependencies := 0
|}.

(** [if (result.error)]: the property is present and truthy. *)
Definition hasError (r : FileMetric) : bool :=
  match fm_error r with
  | Some message => Js.truthy message
  | None => false
  end.

(** *** [calculateMaintainabilityScore] (lines 297-340) *)

(** [result.functions.filter(f => f.complexity > maxCyclomatic)]. *)
Definition complexFunctionsOf (r : FileMetric) : list FunctionMetric :=
  List.filter
    (fun f => (maxCyclomatic (complexity config) <? fn_complexity f)%Z)
    (fm_functions r).

(** [Math.max(1, result.lines)]. *)
Definition weightOf (r : FileMetric) : Q :=
  inject_Z (Z.max 1 (fm_lines r)).

(** The value of [fileScore] at the end of one loop iteration
    (lines 312-333): the three penalty blocks in source order. *)
Definition penalizedScore (r : FileMetric) : Q :=
  let fileScore := fm_maintainability r in
  let fileScore :=
    if (maxCyclomatic (complexity config) <? fm_complexity r)%Z then
      let penalty :=
        inject_Z ((fm_complexity r - maxCyclomatic (complexity config)) * 2) in
      Qmax 0 (fileScore - penalty)
    else fileScore in
  let fileScore :=
    if (maxLines (complexity config) <? fm_lines r)%Z then
      let penalty :=
        inject_Z (fm_lines r - maxLines (complexity config)) / 50 in
      Qmax 0 (fileScore - penalty)
    else fileScore in
  let complexFunctions := complexFunctionsOf r in
  let fileScore :=
    if (0 <? length complexFunctions)%nat then
      let penalty := inject_Z (Z.of_nat (length complexFunctions) * 3) in
      Qmax 0 (fileScore - penalty)
    else fileScore in
  fileScore.

(** The three [penalty] constants of the loop body, by name. *)
Definition p1 (r : FileMetric) : Q :=
  inject_Z ((fm_complexity r - maxCyclomatic (complexity config)) * 2).

Definition p2 (r : FileMetric) : Q :=
  inject_Z (fm_lines r - maxLines (complexity config)) / 50.

Definition p3 (r : FileMetric) : Q :=
  inject_Z (Z.of_nat (length (complexFunctionsOf r)) * 3).

(** One iteration of the [for ... of] loop over the pair
    [(totalScore, totalWeight)]. *)
Definition accumulate (acc : Q * Q) (r : FileMetric) : Q * Q :=
  if hasError r then acc
  else
    let weight := weightOf r in
    (fst acc + penalizedScore r * weight, snd acc + weight).

Definition totals (results : list FileMetric) : Q * Q :=
  fold_left accumulate results (0, 0).

Definition calculateMaintainabilityScore (results : list FileMetric) : Q :=
  if (length results =? 0)%nat then 0
  else
    let '(totalScore, totalWeight) := totals results in
    if Qlt_le_dec 0 totalWeight then totalScore / totalWeight else 0.

(** *** Grades and recommendations (lines 377-465) *)

Inductive GradeLevel :=
| Excellent
| Good
| Acceptable
| NeedsImprovement
| RequiresRefactoring.

(** The [level] string of the grade object; its emoji and colour are
    presentation only. *)
Definition levelName (g : GradeLevel) : string :=
  match g with
  | Excellent => "Excellent"
  | Good => "Good"
  | Acceptable => "Acceptable"
  | NeedsImprovement => "Needs Improvement"
  | RequiresRefactoring => "Requires Refactoring"
  end.

(** [score >= t] *)
Definition geq (score t : Q) : bool := Qle_bool t score.

Definition getGrade (score : Q) : GradeLevel :=
  if geq score (excellent (thresholds config)) then Excellent
  else if geq score (good (thresholds config)) then Good
  else if geq score (acceptable (thresholds config)) then Acceptable
  else if geq score (needsImprovement (thresholds config)) then NeedsImprovement
  else RequiresRefactoring.

Record Recommendation := {
  rec_type : string;
  rec_message : string;
  rec_action : string
}.

(** [recommendations.push(item)] under [if (cond)]. *)
Definition pushIf (cond : bool) (item : Recommendation)
    (recommendations : list Recommendation) : list Recommendation :=
  if cond then recommendations ++ [item] else recommendations.

Definition isComplexFile (r : FileMetric) : bool :=
  (maxCyclomatic (complexity config) <? fm_complexity r)%Z.

Definition isLargeFile (r : FileMetric) : bool :=
  (maxLines (complexity config) <? fm_lines r)%Z.

Definition generateRecommendations (results : list FileMetric)
    (overallScore : Q) : list Recommendation :=
  let recommendations := [] in
  let recommendations :=
    pushIf (negb (geq overallScore (acceptable (thresholds config))))
      {| rec_type := "critical";
         rec_message :=
           "Overall maintainability score is below acceptable threshold";
         rec_action :=
           "Consider major refactoring to improve code structure and reduce complexity" |}
      recommendations in
  let complexFiles := List.filter isComplexFile results in
  let recommendations :=
    pushIf (0 <? length complexFiles)%nat
      {| rec_type := "warning";
         rec_message :=
           pretty (length complexFiles) ++ " files have high cyclomatic complexity";
         rec_action :=
           "Break down complex functions into smaller, focused functions" |}
      recommendations in
  let largeFiles := List.filter isLargeFile results in
  let recommendations :=
    pushIf (0 <? length largeFiles)%nat
      {| rec_type := "warning";
         rec_message :=
           pretty (length largeFiles) ++ " files exceed recommended line count";
         rec_action :=
           "Split large files into smaller modules with single responsibilities" |}
      recommendations in
  let complexFunctions := flat_map complexFunctionsOf results in
  let recommendations :=
    pushIf (0 <? length complexFunctions)%nat
      {| rec_type := "info";
         rec_message :=
           pretty (length complexFunctions) ++ " functions have high complexity";
         rec_action :=
           "Refactor complex functions using composition and early returns" |}
      recommendations in
  let longFunctions :=
    flat_map
      (fun r => List.filter (fun f => (50 <? fn_lines f)%Z) (fm_functions r))
      results in
  let recommendations :=
    pushIf (0 <? length longFunctions)%nat
      {| rec_type := "info";
         rec_message :=
           pretty (length longFunctions) ++ " functions are longer than 50 lines";
         rec_action :=
           "Extract common patterns and break down long functions" |}
      recommendations in
  recommendations.

(** *** [generateReport] (lines 345-372)

    The [timestamp] property (wall-clock time) is left out.  The two
    averages divide by [results.length]; the function is only reached with a
    non-empty [results] (see [main]). *)

Record Summary := {
  totalFiles : nat;
  errorFiles : nat;
  averageComplexity : Q;
  averageMaintainability : Q;
  totalLines : Z;
  complexFiles : nat;
  largeFiles : nat
}.

Record Report := {
  rp_projectName : string;
  rp_sourceDir : string;
  rp_overallScore : Q;
  rp_grade : GradeLevel;
  rp_thresholds : Thresholds;
  rp_summary : Summary;
  rp_files : list FileMetric;
  rp_recommendations : list Recommendation
}.

Definition sumZ (l : list Z) : Z := fold_left Z.add l 0%Z.
Definition sumQ (l : list Q) : Q := fold_left Qplus l 0.

(** [cfg] is the [config] object as [parseArgs] left it: only [sourceDir]
    and [projectName] are ever reassigned. *)
Definition generateReport (cfg : Config) (results : list FileMetric)
    (overallScore : Q) : Report := {|
  rp_projectName := projectName cfg;
  rp_sourceDir := sourceDir cfg;
  rp_overallScore := overallScore;
  rp_grade := getGrade overallScore;
  rp_thresholds := thresholds config;
  rp_summary := {|
    totalFiles := length results;
    errorFiles := length (List.filter hasError results);
    averageComplexity :=
      inject_Z (sumZ (map fm_complexity results))
      / inject_Z (Z.of_nat (length results));
    averageMaintainability :=
      sumQ (map fm_maintainability results)
      / inject_Z (Z.of_nat (length results));
    totalLines := sumZ (map fm_lines results);
    complexFiles := length (List.filter isComplexFile results);
    largeFiles := length (List.filter isLargeFile results)
  |};
  rp_files := results;
  rp_recommendations := generateRecommendations results overallScore
|}.

(** *** [main] (lines 812-852)

    What the script reads from its surroundings is gathered in [Env]; what
    it does to them is a list of [Effect]s, in program order. *)

Record Options := {
  verbose : bool;
  quiet : bool;
  threshold : option Q;
  format : string;
  includeTests : bool
}.

Record Env := {
  (** [process.argv] has [--help] or [-h] *)
  helpRequested : bool;
  (** the dynamic [import] of the analyzer module succeeds *)
  analyzerAvailable : bool;
  (** [config] after [parseArgs] *)
  runConfig : Config;
  (** [getFilesToAnalyze(options)]: the eligible files under the source
      directory, in scan order *)
  filesToAnalyze : Options -> list string;
  (** [analyzeFileComplexity(file)] *)
  analyzeFileComplexity : string -> FileMetric;
  (** [path.relative(process.cwd(), file)] *)
  relativePath : string -> string;
  (** [fs.existsSync(outputDir)] *)
  outputDirExists : bool
}.

Inductive Effect :=
| Print (line : string)
| PrintHelp
| PrintHeader
| PrintConsoleReport (report : Report)
| Mkdir (dir : string)
| WriteJson (file : string) (report : Report)
| WriteHtml (file : string) (report : Report).

(** How a run ends: [report] is the object [generateReport] built, if the
    run got that far; [exitCode] is the status of the process (0 when
    [main] simply returns). *)
Record Outcome := {
  effects : list Effect;
  report : option Report;
  exitCode : Z
}.

Definition validateToolAvailability (env : Env) : list Effect * bool :=
  if analyzerAvailable env then ([], true)
  else
    ([Print "Missing required tools: typhonjs-escomplex-module";
      Print "Install with: npm install -D typhonjs-escomplex-module"],
     false).

Definition analyzeFiles (env : Env) (files : list string) (options : Options)
    : list Effect * list FileMetric :=
  (flat_map
     (fun file =>
        if verbose options && negb (quiet options)
        then [Print ("  Analyzing: " ++ relativePath env file)]
        else [])
     files,
   map (analyzeFileComplexity env) files).

Definition wantsHtml (options : Options) : bool :=
  String.eqb (format options) "html" || String.eqb (format options) "all".

(** [saveReports] (lines 593-618); paths are relative to the working
    directory. *)
Definition saveReports (env : Env) (rep : Report) (options : Options)
    : list Effect * (string * option string) :=
  let dir := outputDir (runConfig env) in
  let jsonPath := dir ++ "/maintainability-report.json" in
  let htmlPath := dir ++ "/maintainability-report.html" in
  (((if outputDirExists env then [] else [Mkdir dir])
    ++ [WriteJson jsonPath rep]
    ++ (if wantsHtml options then [WriteHtml htmlPath rep] else []))%list,
   (jsonPath, if wantsHtml options then Some htmlPath else None)).

Definition handleReports (env : Env) (rep : Report) (options : Options)
    : list Effect :=
  let printed := if quiet options then [] else [PrintConsoleReport rep] in
  let '(saved, (json, html)) := saveReports env rep options in
  let paths :=
    if quiet options then []
    else
      Print "Reports saved:" :: Print ("  JSON: " ++ json)
      :: match html with
         | Some h => [Print ("  HTML: " ++ h)]
         | None => []
         end in
  (printed ++ saved ++ paths)%list.

(** [options.threshold || config.thresholds.acceptable]: a zero threshold
    is falsy. *)
Definition effectiveThreshold (options : Options) : Q :=
  match threshold options with
  | Some t => if Qeq_bool t 0 then acceptable (thresholds config) else t
  | None => acceptable (thresholds config)
  end.

(** [handleFinalResult] (lines 788-807); the failure line also shows the
    threshold, which is left out here. *)
Definition handleFinalResult (overallScore : Q) (options : Options)
    : list Effect * Z :=
  let success := geq overallScore (effectiveThreshold options) in
  ((if quiet options then []
    else if success then [Print "Maintainability check passed!"]
    else [Print "Maintainability below threshold"]),
   if success then 0%Z else 1%Z).

Definition main (env : Env) (options : Options) : Outcome :=
  if helpRequested env then
    {| effects := [PrintHelp]; report := None; exitCode := 0 |}
  else
    let header := if quiet options then [] else [PrintHeader] in
    let '(missing, toolsAvailable) := validateToolAvailability env in
    if negb toolsAvailable then
      {| effects := (header ++ missing)%list; report := None; exitCode := 0 |}
    else
      let files := filesToAnalyze env options in
      if (length files =? 0)%nat then
        {| effects := (header ++ [Print "No files found to analyze"])%list;
           report := None;
           exitCode := 0 |}
      else
        let announce :=
          if quiet options then []
          else [Print ("Analyzing " ++ pretty (length files) ++ " files...")] in
        let '(progress, results) := analyzeFiles env files options in
        let overallScore := calculateMaintainabilityScore results in
        let rep := generateReport (runConfig env) results overallScore in
        let reported := handleReports env rep options in
        let '(verdict, code) := handleFinalResult overallScore options in
        {| effects :=
             (header ++ announce ++ progress ++ reported ++ verdict)%list;
           report := Some rep;
           exitCode := code |}.

(** *** Reference formulas, written from the specification's wording

    These are what the prose of the specification describes; the theorems
    compare them with the functions above. *)

(** "subtract 2 x (complexity - threshold) when above threshold" *)
Definition complexityPenalty (r : FileMetric) : Q :=
  if isComplexFile r
  then 2 * inject_Z (fm_complexity r - maxCyclomatic (complexity config))
  else 0.

(** "subtract (lineCount - lineThreshold)/50 when above threshold" *)
Definition sizePenalty (r : FileMetric) : Q :=
  if isLargeFile r
  then inject_Z (fm_lines r - maxLines (complexity config)) / 50
  else 0.

(** "subtract 3 x countOfOverComplexFunctions" *)
Definition functionPenalty (r : FileMetric) : Q :=
  3 * inject_Z (Z.of_nat (length (complexFunctionsOf r))).

(** "All penalties floor at zero": the raw sub-score less the three
    penalties, floored at zero. *)
Definition flooredScore (r : FileMetric) : Q :=
  Qmax 0 (fm_maintainability r
          - complexityPenalty r - sizePenalty r - functionPenalty r).

Definition anyPenaltyApplies (r : FileMetric) : bool :=
  isComplexFile r || isLargeFile r || (0 <? length (complexFunctionsOf r))%nat.

(** "sum of (penalizedScore_i x lineCount_i) divided by sum of lineCount_i" *)
Definition lineWeightedMean (results : list FileMetric) : Q :=
  sumQ (map (fun r => penalizedScore r * inject_Z (fm_lines r)) results)
  / inject_Z (sumZ (map fm_lines results)).

(** The mean the loop computes: weights are [Math.max(1, lines)]. *)
Definition weightedMean (results : list FileMetric) : Q :=
  sumQ (map (fun r => penalizedScore r * weightOf r) results)
  / sumQ (map weightOf results).

(** The same file with another cyclomatic complexity. *)
Definition withComplexity (r : FileMetric) (c : Z) : FileMetric := {|
  fm_file := fm_file r;
  fm_error := fm_error r;
  fm_complexity := c;
  fm_maintainability := fm_maintainability r;
  fm_functions := fm_functions r;
  fm_lines := fm_lines r;
  fm_dependencies := fm_dependencies r
|}.

(** [results.filter(r => !r.error)] *)
Definition withoutErrors (results : list FileMetric) : list FileMetric :=
  List.filter (fun r => negb (hasError r)) results.

(** Closed forms of the two totals of the loop: what error-free entries
    add to [totalScore] and to [totalWeight]. *)
Definition contribution (r : FileMetric) : Q :=
  if hasError r then 0 else penalizedScore r * weightOf r.

Definition weightShare (r : FileMetric) : Q :=
  if hasError r then 0 else weightOf r.

Fixpoint scoreSum (results : list FileMetric) : Q :=
  match results with
  | [] => 0
  | r :: rest => contribution r + scoreSum rest
  end.

Fixpoint weightSum (results : list FileMetric) : Q :=
  match results with
  | [] => 0
  | r :: rest => weightShare r + weightSum rest
  end.

(** Sample inputs. *)

(** A one-line minified bundle: straight-line code, so no penalty
    applies, with a maintainability index below zero. *)
Definition minifiedBundle : FileMetric := {|
  fm_file := "src/vendor.min.js";
  fm_error := None;
  fm_complexity := 1;
  fm_maintainability := -5;
  fm_functions := [];
  fm_lines := 1;
  fm_dependencies := 0
|}.

(** A short file with the index the analyzer gives to trivial code on its
    default 0-171 scale. *)
Definition trivialFile : FileMetric := {|
  fm_file := "src/index.js";
  fm_error := None;
  fm_complexity := 1;
  fm_maintainability := 150;
  fm_functions := [];
  fm_lines := 10;
  fm_dependencies := 0
|}.

(** A file for which the analyzer reported no [lineEnd]. *)
Definition emptyFile : FileMetric := {|
  fm_file := "src/empty.js";
  fm_error := None;
  fm_complexity := 0;
  fm_maintainability := 50;
  fm_functions := [];
  fm_lines := 0;
  fm_dependencies := 0
|}.

Definition cleanFile : FileMetric := {|
  fm_file := "src/clean.js";
  fm_error := None;
  fm_complexity := 3;
  fm_maintainability := 100;
  fm_functions := [];
  fm_lines := 10;
  fm_dependencies := 0
|}.

Definition tangledFile : FileMetric := {|
  fm_file := "src/tangled.js";
  fm_error := None;
  fm_complexity := 25;
  fm_maintainability := 80;
  fm_functions :=
    [{| fn_name := "dispatch"; fn_complexity := 25; fn_params := 2;
        fn_lines := 120; fn_maintainability := 40 |}];
  fm_lines := 400;
  fm_dependencies := 2
|}.

Definition defaultOptions : Options := {|
  verbose := false;
  quiet := false;
  threshold := None;
  format := "console";
  includeTests := false
|}.

(** A project whose source directory holds no eligible file. *)
Definition emptyProject : Env := {|
  helpRequested := false;
  analyzerAvailable := true;
  runConfig := config;
  filesToAnalyze := fun _ => [];
  analyzeFileComplexity := fun file => errorEntry file "unreachable";
  relativePath := fun file => file;
  outputDirExists := false
|}.

(** A project of two files, one within every limit and one far beyond. *)
Definition smallProject : Env := {|
  helpRequested := false;
  analyzerAvailable := true;
  runConfig := config;
  filesToAnalyze := fun _ => ["src/clean.js"; "src/tangled.js"];
  analyzeFileComplexity :=
    fun file =>
      if String.eqb file "src/clean.js" then cleanFile else tangledFile;
  relativePath := fun file => file;
  outputDirExists := false
|}.

(** *** Further readings of the report *)

(** The five grades in order, worst first. *)
Definition rank (g : GradeLevel) : nat :=
  match g with
  | RequiresRefactoring => 0
  | NeedsImprovement => 1
  | Acceptable => 2
  | Good => 3
  | Excellent => 4
  end.

Definition isPrint (e : Effect) : bool :=
  match e with
  | Print _ | PrintHelp | PrintHeader | PrintConsoleReport _ => true
  | Mkdir _ | WriteJson _ _ | WriteHtml _ _ => false
  end.

Definition isCritical (item : Recommendation) : bool :=
  String.eqb (rec_type item) "critical".

(** A file and its functions stay within the four limits the
    recommendations look at. *)
Definition withinLimits (r : FileMetric) : Prop :=
  isComplexFile r = false
  /\ isLargeFile r = false
  /\ Forall
       (fun f =>
          (fn_complexity f <= maxCyclomatic (complexity config))%Z
          /\ (fn_lines f <= 50)%Z)
       (fm_functions r).

End Scorer.

(** ** The score in binary64

    [Scorer] reads JavaScript numbers as exact rationals.  The script
    computes in IEEE binary64.  This module writes
    [calculateMaintainabilityScore] (lines 297-340) once more, over the
    primitive floats, so that the two readings can be compared on concrete
    inputs: comparisons, floors and bounds agree, exact identities such as
    [(s * w) / w = s] and the order of a sum do not. *)

Module Binary64.

Open Scope float_scope.

Record FunctionMetric := {
  f_complexity : float
}.

(** The fields of a result that the score reads. *)
Record FileMetric := {
  error : bool;             (* [result.error] is truthy *)
  complexity : float;
  maintainability : float;
  functions : list FunctionMetric;
  lines : float
}.

Definition maxCyclomatic : float := 10.
Definition maxLines : float := 300.

(** [Math.max(a, b)] *)
Definition mathMax (a b : float) : float :=
  if is_nan a || is_nan b then nan
  else if ltb a b then b else a.

(** [arr.length], a count, as a number. *)
Definition lengthOf {A : Type} (l : list A) : float :=
  fold_left (fun n _ => n + 1) l 0.

Definition penalizedScore (result : FileMetric) : float :=
  let fileScore := maintainability result in
  let fileScore :=
    if ltb maxCyclomatic (complexity result) then
      let penalty := (complexity result - maxCyclomatic) * 2 in
      mathMax 0 (fileScore - penalty)
    else fileScore in
  let fileScore :=
    if ltb maxLines (lines result) then
      let penalty := (lines result - maxLines) / 50 in
      mathMax 0 (fileScore - penalty)
    else fileScore in
  let complexFunctions :=
    List.filter (fun f => ltb maxCyclomatic (f_complexity f))
      (functions result) in
  let fileScore :=
    if ltb 0 (lengthOf complexFunctions) then
      let penalty := lengthOf complexFunctions * 3 in
      mathMax 0 (fileScore - penalty)
    else fileScore in
  fileScore.

Definition accumulate (acc : float * float) (result : FileMetric)
    : float * float :=
  if error result then acc
  else
    let weight := mathMax 1 (lines result) in
    (fst acc + penalizedScore result * weight, snd acc + weight).

Definition calculateMaintainabilityScore (results : list FileMetric)
    : float :=
  if (length results =? 0)%nat then 0
  else
    let '(totalScore, totalWeight) := fold_left accumulate results (0, 0) in
    if ltb 0 totalWeight then totalScore / totalWeight else 0.

(** A file within every limit. *)
#[warnings="-inexact-float"]
Definition plainFile (score size : float) : FileMetric := {|
  error := false;
  complexity := 1;
  maintainability := score;
  functions := [];
  lines := size
|}.

#[warnings="-inexact-float"]
Definition shortFile : FileMetric := plainFile 60.2 3.

#[warnings="-inexact-float"]
Definition threeFiles : list FileMetric :=
  [plainFile 60.2 200; plainFile 80.1 2; plainFile 70.7 137].

#[warnings="-inexact-float"]
Definition threeFilesSwapped : list FileMetric :=
  [plainFile 60.2 200; plainFile 70.7 137; plainFile 80.1 2].

End Binary64.

(** ** File discovery of the scorer ([getFilesToAnalyze], lines 242-292)

    Paths are POSIX paths.  The scan carries absolute paths, made by
    [path.join] from the working directory, the source directory and the
    names [readdirSync] returns, and pushes them as they are; what
    [shouldSkipPath] and [shouldIncludeFile] test is the path relative to
    the working directory ([path.relative(process.cwd(), fullPath)]).  A
    character is a code unit below 256, so the line terminators are LF and
    CR.  The file system is a finite tree: [statSync] follows links, and a
    link that closes a cycle is not modelled. *)

Module FileScan.

Import Scorer.

Definition chars : string -> list ascii := list_ascii_of_string.

(** *** Node's [path] on POSIX

    The three calls the scan makes: [path.join] of two texts,
    [path.relative] of two absolute paths and [path.extname].
    [process.cwd()] is an absolute path in normal form; it is the [cwd] of
    the definitions below. *)

(** [s.split("/")] *)
Fixpoint splitSlash (s : string) : list string :=
  match s with
  | EmptyString => [EmptyString]
  | String c rest =>
      if Ascii.eqb c "/" then EmptyString :: splitSlash rest
      else
        match splitSlash rest with
        | first :: more => String c first :: more
        | [] => [String c EmptyString]
        end
  end.

(** One segment read by [normalizeString]: an empty segment and [.] are
    dropped; [..] removes the segment kept last, and is itself kept when
    there is none to remove and the path may rise above its start; any
    other segment is kept.  [kept] holds the segments kept so far, the
    last one first. *)
Definition keepSegment (allowAboveRoot : bool) (kept : list string)
    (segment : string) : list string :=
  if String.eqb segment "" || String.eqb segment "." then kept
  else if String.eqb segment ".." then
    match kept with
    | last :: before =>
        if String.eqb last ".."
        then if allowAboveRoot then ".." :: kept else kept
        else before
    | [] => if allowAboveRoot then [".."] else []
    end
  else segment :: kept.

Definition normalizeSegments (allowAboveRoot : bool) (p : string)
    : list string :=
  rev (fold_left (keepSegment allowAboveRoot) (splitSlash p) []).

Definition normalizeString (allowAboveRoot : bool) (p : string) : string :=
  Js.join "/" (normalizeSegments allowAboveRoot p).

Fixpoint endsInSlash (s : string) : bool :=
  match s with
  | EmptyString => false
  | String c EmptyString => Ascii.eqb c "/"
  | String _ rest => endsInSlash rest
  end.

(** [path.normalize] *)
Definition normalize (p : string) : string :=
  if String.eqb p "" then "."
  else
    let isAbsolute := String.prefix "/" p in
    let trailingSeparator := endsInSlash p in
    let normalized := normalizeString (negb isAbsolute) p in
    if String.eqb normalized "" then
      if isAbsolute then "/" else if trailingSeparator then "./" else "."
    else
      let normalized :=
        if trailingSeparator then normalized ++ "/" else normalized in
      if isAbsolute then "/" ++ normalized else normalized.

(** [path.join(a, b)]: the arguments that are not empty, joined by a
    slash and normalized. *)
Definition pathJoin (a b : string) : string :=
  let joined :=
    if String.eqb a "" then b
    else if String.eqb b "" then a
    else a ++ "/" ++ b in
  if String.eqb joined "" then "." else normalize joined.

(** [path.resolve(p)] for an absolute [p] *)
Definition pathResolve (p : string) : string :=
  "/" ++ normalizeString false p.

Fixpoint dropCommon (from to : list string) : list string * list string :=
  match from, to with
  | a :: from', b :: to' =>
      if String.eqb a b then dropCommon from' to' else (from, to)
  | _, _ => (from, to)
  end.

(** [path.relative(from, to)] for two absolute paths: both are resolved;
    past the segments they share, one [..] for every segment left of
    [from], then the segments left of [to]. *)
Definition pathRelative (from to : string) : string :=
  let (fromRest, toRest) :=
    dropCommon (normalizeSegments false from) (normalizeSegments false to) in
  Js.join "/" (map (fun _ => "..") fromRest ++ toRest)%list.

(** *** The regular expressions made from [config.exclude]

    [new RegExp(pattern.replace(/\*\*/g, ".*").replace(/\*/g, "[^/]*"))]:
    the second replacement also rewrites the star the first one has just
    written.  The sources this yields for the configured patterns are made
    of ordinary characters, [.] and [[^/]*]. *)

Inductive Atom :=
| Lit (c : ascii)
| AnyChar
| NotSlashes.

Definition isLineTerminator (c : ascii) : bool :=
  Ascii.eqb c "010" || Ascii.eqb c "013".

Definition isSlash (c : ascii) : bool := Ascii.eqb c "/".

Definition isMeta (c : ascii) : bool :=
  existsb (Ascii.eqb c) (chars "\^$*+?()[]{}|").

Definition toRegexSource (pattern : string) : string :=
  Js.replace "*" "[^/]*" (Js.replace "**" ".*" pattern).

(** [None]: the source is outside the fragment modelled here. *)
Fixpoint parseRegex (source : string) : option (list Atom) :=
  match source with
  | EmptyString => Some []
  | String "[" (String "^" (String "/" (String "]" (String "*" rest)))) =>
      option_map (cons NotSlashes) (parseRegex rest)
  | String c rest =>
      if Ascii.eqb c "." then option_map (cons AnyChar) (parseRegex rest)
      else if isMeta c then None
      else option_map (cons (Lit c)) (parseRegex rest)
  end.

(** Whether the expression matches a prefix of the text. *)
Fixpoint matchHere (re : list Atom) : list ascii -> bool :=
  match re with
  | [] => fun _ => true
  | Lit c :: rest =>
      fun s =>
        match s with
        | d :: s' => Ascii.eqb c d && matchHere rest s'
        | [] => false
        end
  | AnyChar :: rest =>
      fun s =>
        match s with
        | d :: s' => negb (isLineTerminator d) && matchHere rest s'
        | [] => false
        end
  | NotSlashes :: rest =>
      fix star (s : list ascii) : bool :=
        matchHere rest s
        || match s with
           | d :: s' => negb (isSlash d) && star s'
           | [] => false
           end
  end.

(** [regex.test(s)] for an expression without anchors: a match may start
    anywhere. *)
Fixpoint search (re : list Atom) (s : list ascii) : bool :=
  matchHere re s
  || match s with
     | [] => false
     | _ :: s' => search re s'
     end.

Definition regexTest (source s : string) : bool :=
  match parseRegex source with
  | Some re => search re (chars s)
  | None => false
  end.

(** [config.exclude.some(pattern => regex.test(relativePath))] *)
Definition matchesExclude (relativePath : string) : bool :=
  existsb (fun pattern => regexTest (toRegexSource pattern) relativePath)
    (exclude config).

Definition shouldSkipPath (cwd fullPath : string) : bool :=
  let relativePath := pathRelative cwd fullPath in
  matchesExclude relativePath.

(** *** [shouldIncludeFile] *)

(** The text from its last [c] on. *)
Fixpoint fromLast (c : ascii) (s : string) : option string :=
  match s with
  | EmptyString => None
  | String d rest =>
      match fromLast c rest with
      | Some found => Some found
      | None => if Ascii.eqb d c then Some s else None
      end
  end.

Definition basename (p : string) : string :=
  match fromLast "/" p with
  | Some (String _ base) => base
  | _ => p
  end.

(** [path.extname]: from the last dot of the last segment on; empty when
    there is no dot, when the dot opens the segment, and for [..]. *)
Definition extname (p : string) : string :=
  let base := basename p in
  match fromLast "." base with
  | None => ""
  | Some ext =>
      if (String.length ext =? String.length base)%nat || String.eqb base ".."
      then ""
      else ext
  end.

Definition extensions : list string := [".ts"; ".tsx"; ".js"; ".jsx"].

Fixpoint endsWith (s suffix : string) : bool :=
  String.eqb s suffix
  || match s with
     | EmptyString => false
     | String _ rest => endsWith rest suffix
     end.

(** [/\.(test|spec)\.(ts|tsx|js|jsx)$/.test(relativePath)], the eight
    endings written out. *)
Definition isTestFile (relativePath : string) : bool :=
  existsb (endsWith relativePath)
    [".test.ts"; ".test.tsx"; ".test.js"; ".test.jsx";
     ".spec.ts"; ".spec.tsx"; ".spec.js"; ".spec.jsx"].

Definition shouldIncludeFile (cwd : string) (options : Options)
    (fullPath : string) : bool :=
  let ext := extname fullPath in
  if negb (Js.includes extensions ext) then false
  else
    let relativePath := pathRelative cwd fullPath in
    negb (isTestFile relativePath && negb (includeTests options))
    && negb (shouldSkipPath cwd fullPath).

(** *** [scanDirectory] *)

(** What the scan meets under a name: [Directory None] is a directory
    [readdirSync] cannot read, [Broken] an entry on which [statSync] throws,
    [Other] an entry that is neither a file nor a directory. *)
#[warnings="-register-all"]
Inductive Node :=
| File
| Directory (listing : option (list (string * Node)))
| Other
| Broken.

(** The [try] spans the whole loop: when [readdirSync] or [statSync]
    throws, what is left of this directory is given up, what was found
    before stays. *)
Fixpoint scanDirectory (cwd : string) (options : Options) (dir : string)
    (node : Node) (files : list string) {struct node} : list string :=
  match node with
  | Directory (Some items) =>
      (fix loop (items : list (string * Node)) (files : list string)
         : list string :=
         match items with
         | [] => files
         | (item, child) :: rest =>
             let fullPath := pathJoin dir item in
             match child with
             | Broken => files
             | Directory _ =>
                 if negb (shouldSkipPath cwd fullPath)
                 then loop rest
                        (scanDirectory cwd options fullPath child files)
                 else loop rest files
             | File =>
                 if shouldIncludeFile cwd options fullPath
                 then loop rest (files ++ [fullPath])%list
                 else loop rest files
             | Other => loop rest files
             end
         end) items files
  | _ => files
  end.

(** The loop of [scanDirectory], under a name of its own. *)
Fixpoint scanItems (cwd : string) (options : Options) (dir : string)
    (items : list (string * Node)) (files : list string) : list string :=
  match items with
  | [] => files
  | (item, child) :: rest =>
      let fullPath := pathJoin dir item in
      match child with
      | Broken => files
      | Directory _ =>
          if negb (shouldSkipPath cwd fullPath)
          then scanItems cwd options dir rest
                 (scanDirectory cwd options fullPath child files)
          else scanItems cwd options dir rest files
      | File =>
          if shouldIncludeFile cwd options fullPath
          then scanItems cwd options dir rest (files ++ [fullPath])%list
          else scanItems cwd options dir rest files
      | Other => scanItems cwd options dir rest files
      end
  end.

(** [root] is what lies at [startDir], [None] when [fs.existsSync] says
    nothing does.  The files come back as the scan pushes them: as
    absolute paths. *)
Definition getFilesToAnalyze (cwd sourceDir : string) (root : option Node)
    (options : Options) : list string :=
  let startDir := pathJoin cwd sourceDir in
  match root with
  | Some node => scanDirectory cwd options startDir node []
  | None => []
  end.

(** *** Reading the tree *)

(** [Located root segments node]: going down from [root] by the names
    [segments] leads to [node]. *)
Inductive Located : Node -> list string -> Node -> Prop :=
| Located_here (node : Node) : Located node [] node
| Located_below (items : list (string * Node)) (name : string)
    (child : Node) (segments : list string) (node : Node) :
    In (name, child) items ->
    Located child segments node ->
    Located (Directory (Some items)) (name :: segments) node.

Definition pathFrom (dir : string) (segments : list string) : string :=
  fold_left pathJoin segments dir.

(** No directory on the way down, the last name apart, is skipped. *)
Fixpoint descends (cwd dir : string) (segments : list string) : bool :=
  match segments with
  | [] => true
  | [_] => true
  | name :: rest =>
      negb (shouldSkipPath cwd (pathJoin dir name))
      && descends cwd (pathJoin dir name) rest
  end.

(** No entry of the tree makes [statSync] throw. *)
Fixpoint healthy (node : Node) : bool :=
  match node with
  | Broken => false
  | Directory (Some items) =>
      forallb (fun entry => healthy (snd entry)) items
  | _ => true
  end.

(** [Found cwd options dir node p]: [p] is a file of the tree [node] lying
    at [dir], which [shouldIncludeFile] accepts and which the scan can
    reach without entering a skipped directory. *)
Definition Found (cwd : string) (options : Options) (dir : string)
    (node : Node) (p : string) : Prop :=
  exists segments,
    segments <> []
    /\ Located node segments File
    /\ p = pathFrom dir segments
    /\ descends cwd dir segments = true
    /\ shouldIncludeFile cwd options p = true.

Definition withIncludeTests (value : bool) (options : Options) : Options := {|
  verbose := verbose options;
  quiet := quiet options;
  threshold := threshold options;
  format := format options;
  includeTests := value
|}.

(** Some character of the text is not a line terminator. *)
Definition ordinary (s : string) : Prop :=
  Exists (fun c => isLineTerminator c = false) (chars s).

Definition slashFree (s : string) : Prop :=
  Forall (fun c => isSlash c = false) (chars s).

(** The two words of the test-file patterns. *)
Definition isWord (word : string) : Prop := word = "test" \/ word = "spec".

(** The directory names of the patterns of the form [name/**]. *)
Definition isExcludedDirectory (name : string) : Prop :=
  In name ["node_modules"; "dist"; "build"; "coverage"; "tests"].

(** What a directory entry can be called: not empty, not [.] or [..],
    without a slash. *)
Definition isName (name : string) : bool :=
  negb (String.eqb name "") && negb (String.eqb name ".")
  && negb (String.eqb name "..")
  && forallb (fun c => negb (isSlash c)) (chars name).

(** Every entry of the tree has a name [readdirSync] can return. *)
Fixpoint named (node : Node) : bool :=
  match node with
  | Directory (Some items) =>
      forallb (fun entry => isName (fst entry) && named (snd entry)) items
  | _ => true
  end.

(** A path made of names only: it goes down from where it starts. *)
Definition isPlainPath (p : string) : bool :=
  forallb isName (splitSlash p).

(** The absolute path with the segments [names]. *)
Definition render (names : list string) : string :=
  "/" ++ Js.join "/" names.

(** A run of the scorer whose files come from a scan. *)
Definition scanned (cwd sourceDir : string) (root : option Node) : Env := {|
  helpRequested := false;
  analyzerAvailable := true;
  runConfig := config;
  filesToAnalyze := getFilesToAnalyze cwd sourceDir root;
  analyzeFileComplexity := fun _ => cleanFile;
  relativePath := pathRelative cwd;
  outputDirExists := true
|}.

Definition smallTree : Node :=
  Directory (Some [
    ("app.ts", File);
    ("lib", Directory (Some [("util.js", File)]))
  ]).

Definition sampleTree : Node :=
  Directory (Some [
    ("app.ts", File);
    ("app.test.ts", File);
    ("inspector.ts", File);
    ("README.md", File);
    ("contests", Directory (Some [("board.ts", File)]));
    ("lib", Directory (Some [("util.js", File); ("types.d.ts", File)]));
    ("dangling", Broken);
    ("late.ts", File)
  ]).

End FileScan.

(** ** The orchestrator *)

Module Runner.

Open Scope Z_scope.

(** *** Tool definitions ([tools], lines 836-982)

    The [icon] property is presentation only and is left out.  [fixArgs] is
    absent on tools that cannot fix anything. *)

Inductive Category :=
| Formatting
| ImportSorting
| Linting
| TypeChecking
| SecurityScanning
| VulnerabilityChecking
| DeadCode
| Duplication
| Complexity
| Maintainability
| DependencyCheck.

#[global] Instance Category_eq_dec : EqDecision Category.
Proof. solve_decision. Defined.

Record Tool := {
  command : string;
  args : list string;
  fixArgs : option (list string);
  description : string;
  category : Category;
  order : nat
}.

Definition toolTable : list (string * Tool) := [
  ("prettier",
   {| command := "npx";
      args := ["prettier"; "--check"; "."];
      fixArgs := Some ["prettier"; "--write"; "."];
      description := "Code formatting check (Prettier)";
      category := Formatting;
      order := 1 |});
  ("import-sorting",
   {| command := "npx";
      args := ["eslint"; "."; "--config"; ".eslint-configs/import-sorting.js"];
      fixArgs :=
        Some ["eslint"; "."; "--config"; ".eslint-configs/import-sorting.js";
              "--fix"];
      description := "Import sorting and organization (ESLint + import plugin)";
      category := ImportSorting;
      order := 2 |});
  ("linting",
   {| command := "npx";
      args := ["eslint"; "."; "--config"; ".eslint-configs/linting.js"];
      fixArgs :=
        Some ["eslint"; "."; "--config"; ".eslint-configs/linting.js"; "--fix"];
      description := "Code quality linting (ESLint + SonarJS)";
      category := Linting;
      order := 3 |});
  ("eslint",
   {| command := "npx";
      args := ["eslint"; "."; "--config"; ".eslint-configs/linting.js"];
      fixArgs :=
        Some ["eslint"; "."; "--config"; ".eslint-configs/linting.js"; "--fix"];
      description := "ESLint standalone execution";
      category := Linting;
      order := 3 |});
  ("type-check",
   {| command := "npx";
      args := ["tsc"; "--noEmit"];
      fixArgs := None;
      description := "TypeScript type checking";
      category := TypeChecking;
      order := 4 |});
  ("security-scanning",
   {| command := "npx";
      args := ["eslint"; "."; "--config"; ".eslint-configs/security.js"];
      fixArgs :=
        Some ["eslint"; "."; "--config"; ".eslint-configs/security.js"; "--fix"];
      description := "Security vulnerability scanning (ESLint security plugin)";
      category := SecurityScanning;
      order := 5 |});
  ("vulnerability-checking",
   {| command := "npm";
      args := ["audit"; "--audit-level=moderate"];
      fixArgs := None;
      description := "Dependency vulnerability checking (npm audit)";
      category := VulnerabilityChecking;
      order := 6 |});
  ("dead-code",
   {| command := "npx";
      args := ["ts-prune"];
      fixArgs := None;
      description := "Dead code detection (ts-prune)";
      category := DeadCode;
      order := 7 |});
  ("duplication",
   {| command := "npx";
      args := ["jscpd"; "."; "--reporters"; "console,html"; "--output";
               "./reports/duplication"; "--ignore";
               "**/node_modules/**,**/.next/**,**/dist/**"];
      fixArgs := None;
      description := "Code duplication detection (jscpd)";
      category := Duplication;
      order := 8 |});
  ("complexity",
   {| command := "npx";
      args := ["eslint"; "."; "--config"; ".eslint-configs/complexity.js"];
      fixArgs := None;
      description := "Code complexity analysis (ESLint complexity rules)";
      category := Complexity;
      order := 9 |});
  ("maintainability",
   {| command := "node";
      args := ["scripts/maintainability-check.js"];
      fixArgs := None;
      description := "Maintainability index calculation (ESComplex)";
      category := Maintainability;
      order := 10 |});
  ("dependency-check",
   {| command := "npx";
      args := ["depcruise"; "--validate"; ".dependency-cruiser.cjs"; "src/"];
      fixArgs := None;
      description := "Dependency analysis and validation (dependency-cruiser)";
      category := DependencyCheck;
      order := 11 |})
].

Definition tools : gmap string Tool := list_to_map toolTable.

(** *** Tool groups ([toolGroups], lines 985-1028) *)

Definition groupTable : list (string * list string) := [
  ("formatting", ["prettier"]);
  ("import-sorting", ["import-sorting"]);
  ("linting", ["linting"]);
  ("type-checking", ["type-check"]);
  ("security-scanning", ["security-scanning"]);
  ("vulnerability-checking", ["vulnerability-checking"]);
  ("dead-code", ["dead-code"]);
  ("duplication", ["duplication"]);
  ("complexity", ["complexity"]);
  ("maintainability", ["maintainability"]);
  ("dependency-check", ["dependency-check"]);
  ("security", ["security-scanning"; "vulnerability-checking"]);
  ("analysis",
   ["dead-code"; "duplication"; "complexity"; "maintainability";
    "dependency-check"]);
  ("required", ["prettier"; "import-sorting"; "linting"; "type-check"]);
  ("fast", ["prettier"; "import-sorting"; "linting"; "type-check"]);
  ("essential", ["prettier"; "linting"; "type-check"]);
  ("all",
   ["prettier"; "import-sorting"; "linting"; "type-check";
    "security-scanning"; "vulnerability-checking"; "dead-code";
    "duplication"; "complexity"; "maintainability"; "dependency-check"])
].

Definition toolGroups : gmap string (list string) := list_to_map groupTable.

(** [toolGroups.name] for a property the literal defines. *)
Definition group (name : string) : list string :=
  default [] (toolGroups !! name).

(** Property names every object literal inherits from [Object.prototype];
    [obj[key]] is truthy for each of them although [obj] does not define
    it. *)
Definition objectPrototypeKeys : list string := [
  "constructor"; "__defineGetter__"; "__defineSetter__"; "hasOwnProperty";
  "__lookupGetter__"; "__lookupSetter__"; "isPrototypeOf";
  "propertyIsEnumerable"; "toString"; "valueOf"; "__proto__";
  "toLocaleString"
].

(** *** Options ([parseArgs], lines 1033-1060) *)

Record Options := {
  tool : string;
  fix_ : bool;  (* the [fix] property *)
  verbose : bool;
  quiet : bool;
  parallel : bool;
  sourceDir : option string;
  projectName : option string
}.

(** [{ ...options, fix: b }] *)
Definition withFix (options : Options) (b : bool) : Options := {|
  tool := tool options;
  fix_ := b;
  verbose := verbose options;
  quiet := quiet options;
  parallel := parallel options;
  sourceDir := sourceDir options;
  projectName := projectName options
|}.

(** *** Effects

    The trace records, oldest first, what the process does to the outside:
    children spawned and their completion, directories created, lines
    written to the console.  ANSI colours and emoji of the console lines are
    left out. *)

Inductive Event :=
| Spawn (cmd : string) (argv : list string)
| Close (cmd : string) (argv : list string) (code : Z)
| ChildError (cmd : string) (argv : list string) (message : string)
| Mkdir (dir : string)
| Log (line : string).

#[global] Instance Event_eq_dec : EqDecision Event.
Proof. solve_decision. Defined.

(** How a spawned child ends: a [close] event with its exit code, what it
    wrote to stdout and the milliseconds it took, or an [error] event.  The
    promise of [runTool] is settled by the first of the two events; the
    [close] that the runtime sends after an [error] comes once the promise
    is settled and adds one more line to the console, which is not
    modelled. *)
Inductive ChildOutcome :=
| Closed (code : Z) (stdout : string) (elapsed : nat)
| SpawnFailed (message : string).

(** The surroundings of one run.  A child's outcome may depend on
    everything that happened before it ends. *)
Record World := {
  child : list Event -> string -> list string -> ChildOutcome;
  reportsDirExists : bool;
  (** the engine's message for the [TypeError] raised when the value found
      under [identifier] is run as a list of tools although it is no array;
      it depends on the value and on whether the run is parallel *)
  typeErrorMessage : string -> bool -> string
}.

(** The mutable state: the module-level [SOURCE_DIR] and [PROJECT_NAME],
    whether [./reports] exists, and the trace so far. *)
Record State := {
  trace : list Event;
  SOURCE_DIR : string;
  PROJECT_NAME : string;
  reportsDir : bool
}.

Definition initialState (W : World) : State := {|
  trace := [];
  SOURCE_DIR := "src";
  PROJECT_NAME := "Complete Quality Suite";
  reportsDir := reportsDirExists W
|}.

Definition M (A : Type) : Type := State -> A * State.

#[global] Instance M_ret : MRet M := fun A (a : A) s => (a, s).

#[global] Instance M_bind : MBind M :=
  fun A B (f : A -> M B) (m : M A) s => let '(a, s') := m s in f a s'.

Definition emit (e : Event) : M unit := fun s =>
  (tt,
   {| trace := (trace s ++ [e])%list;
      SOURCE_DIR := SOURCE_DIR s;
      PROJECT_NAME := PROJECT_NAME s;
      reportsDir := reportsDir s |}).

(** [if (cond) stmt] *)
Definition when (cond : bool) (m : M unit) : M unit :=
  if cond then m else mret tt.

(** [console.log(line)] *)
Definition log (line : string) : M unit := emit (Log line).

(** [printMessage(message, color, emoji)] (lines 1065-1067) *)
Definition printMessage (message : string) : M unit := log message.

Definition getSourceDir : M string := fun s => (SOURCE_DIR s, s).
Definition getProjectName : M string := fun s => (PROJECT_NAME s, s).

Definition setSourceDir (dir : string) : M unit := fun s =>
  (tt,
   {| trace := trace s;
      SOURCE_DIR := dir;
      PROJECT_NAME := PROJECT_NAME s;
      reportsDir := reportsDir s |}).

Definition setProjectName (name : string) : M unit := fun s =>
  (tt,
   {| trace := trace s;
      SOURCE_DIR := SOURCE_DIR s;
      PROJECT_NAME := name;
      reportsDir := reportsDir s |}).

(** The value after the first occurrence of [flag] in [argv], when it is
    there and truthy: [args[index + 1]] guarded by
    [index !== -1 && args[index + 1]]. *)
Fixpoint valueAfter (flag : string) (argv : list string) : option string :=
  match argv with
  | [] => None
  | a :: rest =>
      if String.eqb a flag then
        match rest with
        | v :: _ => if Js.truthy v then Some v else None
        | [] => None
        end
      else valueAfter flag rest
  end.

Definition parseArgs (argv : list string) : M Options :=
  let sourceDir := valueAfter "--source-dir" argv in
  let projectName := valueAfter "--project-name" argv in
  match sourceDir with Some d => setSourceDir d | None => mret tt end;;
  match projectName with Some n => setProjectName n | None => mret tt end;;
  mret {|
    tool :=
      match argv with
      | a :: _ => if Js.truthy a then a else "help"
      | [] => "help"
      end;
    fix_ := Js.includes argv "--fix";
    verbose := Js.includes argv "--verbose" || Js.includes argv "-v";
    quiet := Js.includes argv "--quiet" || Js.includes argv "-q";
    parallel := Js.includes argv "--parallel";
    sourceDir := sourceDir;
    projectName := projectName
  |}.

Record ToolResult := {
  r_tool : string;   (* the [tool] property *)
  success : bool
}.

Definition exitedCleanly (outcome : ChildOutcome) : bool :=
  match outcome with
  | Closed code _ _ => code =? 0
  | SpawnFailed _ => false
  end.

(** The probe of [checkToolAvailability]: for an [npx] tool the wrapped
    executable with [--version], otherwise the command itself.  Every
    entry of [tools] has a first argument. *)
Definition probeCommand (t : Tool) : string * list string :=
  if String.eqb (command t) "npx"
  then ("npx", [hd "" (args t); "--version"])
  else (command t, ["--version"]).

(** [fixing && tool.fixArgs ? tool.fixArgs : tool.args] *)
Definition argsInMode (t : Tool) (fixing : bool) : list string :=
  match fixArgs t with
  | Some fixingArgs => if fixing then fixingArgs else args t
  | None => args t
  end.

(** [options.fix && tool.fixArgs ? tool.fixArgs : tool.args] *)
Definition chosenArgs (t : Tool) (options : Options) : list string :=
  argsInMode t (fix_ options).

(** [args.map(arg => arg.replace(/src\//g, `${SOURCE_DIR}/`))] *)
Definition processArgs (sourceDir : string) (argv : list string) : list string :=
  map (Js.replace "src/" (sourceDir ++ "/")) argv.

Definition separator : string := Js.join "" (repeat "=" 60).

Definition helpText (projectName : string) : list string := [
  projectName ++ " Quality Checks";
  "Usage:";
  "  node scripts/quality-check.js [tool] [options]";
  "Quality Workflow (11 Steps):";
  "  all               Run complete 11-step quality workflow";
  "  required/fast    Run essential checks (formatting, import-sorting, linting, type-check)";
  "  essential        Run minimal checks (formatting, linting, type-check)";
  "Category Groups:";
  "  formatting        Code formatting (Prettier)";
  "  import-sorting    Import organization (ESLint + import plugin)";
  "  linting          Code quality linting (ESLint + SonarJS)";
  "  type-checking     TypeScript type validation";
  "  security         Security scanning + vulnerability checking";
  "  analysis         Dead code + duplication + complexity + maintainability + dependencies";
  "Individual Steps:";
  "  1. prettier           Code formatting (Prettier)";
  "  2. import-sorting     Import organization (ESLint import plugin)";
  "  3. linting            Code quality rules (ESLint + SonarJS)";
  "  4. type-check         TypeScript type checking";
  "  5. security-scanning  Security vulnerability scanning (ESLint security)";
  "  6. vulnerability-checking Dependency vulnerabilities (npm audit)";
  "  7. dead-code          Dead code detection (ts-prune)";
  "  8. duplication        Code duplication detection (jscpd)";
  "  9. complexity         Code complexity analysis (ESLint complexity)";
  "  10. maintainability   Maintainability index (ESComplex)";
  "  11. dependency-check  Dependency analysis (dependency-cruiser)";
  "Options:";
  "  --fix             Auto-fix issues where possible";
  "  --verbose, -v     Verbose output";
  "  --quiet, -q       Quiet output";
  "  --parallel        Run compatible tools in parallel";
  "  --source-dir      Source directory (default: src)";
  "  --project-name    Project name for reports"
].

(** [printHelp] (lines 1091-1154): one [console.log] of the whole text;
    the closing examples and the recap of the eleven categories repeat the
    lists above and are left out. *)
Definition printHelp : M unit :=
  projectName ← getProjectName;
  mapM log (helpText projectName);;
  mret tt.

(** [printCategoryHeader] (lines 1072-1086) *)
Definition printCategoryHeader (categoryName : string)
    (members : list string) : M unit :=
  log separator;;
  printMessage
    (Js.toUpperCase categoryName ++ " CHECKS ("
     ++ pretty (length members) ++ " tools)");;
  log separator.

(** [ensureReportsDirectory] (lines 1306-1311); the directory is
    [reports] under the working directory. *)
Definition ensureReportsDirectory : M unit := fun s =>
  if reportsDir s then (tt, s)
  else
    (tt,
     {| trace := (trace s ++ [Mkdir "reports"])%list;
        SOURCE_DIR := SOURCE_DIR s;
        PROJECT_NAME := PROJECT_NAME s;
        reportsDir := true |}).

(** [printSummary] (lines 1316-1371) *)
Definition printSummary (results : list ToolResult) (options : Options)
    : M bool :=
  log separator;;
  printMessage "QUALITY CHECKS SUMMARY";;
  log separator;;
  let totalTools := length results in
  let passedTools := length (List.filter success results) in
  let failedTools := (totalTools - passedTools)%nat in
  log ("Total tools: " ++ pretty totalTools);;
  printMessage ("Passed: " ++ pretty passedTools);;
  when (0 <? failedTools)%nat (printMessage ("Failed: " ++ pretty failedTools));;
  let failed := List.filter (fun r => negb (success r)) results in
  when (0 <? length failed)%nat
    (log "Failed tools:";;
     mapM (fun r => log ("  " ++ r_tool r)) failed;;
     mret tt);;
  (if (failedTools =? 0)%nat then
     printMessage "All quality checks passed!";;
     when (fix_ options) (printMessage "Some issues may have been auto-fixed.")
   else
     printMessage (pretty failedTools ++ " quality check(s) failed!");;
     when (negb (fix_ options))
       (printMessage "Try running with --fix to automatically fix some issues."));;
  mret (failedTools =? 0)%nat.

(** "Determine which tools to run" (lines 1405-1422).  A name inherited
    from [Object.prototype] passes the first test with a value that is no
    array. *)
Inductive Resolution :=
| Resolved (toolsToRun : list string)
| NotAnArray
| Unknown.

Definition resolve (identifier : string) : Resolution :=
  match toolGroups !! identifier with
  | Some members => Resolved members
  | None =>
      if Js.includes objectPrototypeKeys identifier then NotAnArray
      else
        match tools !! identifier with
        | Some _ => Resolved [identifier]
        | None => Unknown
        end
  end.

Definition isHelp (identifier : string) : bool :=
  String.eqb identifier "help"
  || String.eqb identifier "--help"
  || String.eqb identifier "-h".

(** The event that reports how a child ended. *)
Definition endingOf (cmd : string) (argv : list string)
    (outcome : ChildOutcome) : Event :=
  match outcome with
  | Closed code _ _ => Close cmd argv code
  | SpawnFailed message => ChildError cmd argv message
  end.

Section WithWorld.

Variable W : World.

(** Waiting for a spawned child: its [close] or [error] event. *)
Definition await (cmd : string) (argv : list string) : M ChildOutcome :=
  fun s =>
    let outcome := child W (trace s) cmd argv in
    (outcome, snd (emit (endingOf cmd argv outcome) s)).

(** [spawn(cmd, argv)] followed by the wait for the child's end. *)
Definition spawned (cmd : string) (argv : list string) : M ChildOutcome :=
  emit (Spawn cmd argv);;
  await cmd argv.

(** [checkToolAvailability] (lines 1159-1188) *)
Definition checkToolAvailability (toolName : string) : M bool :=
  match tools !! toolName with
  | None => mret false
  | Some t =>
      outcome ← spawned (fst (probeCommand t)) (snd (probeCommand t));
      mret (exitedCleanly outcome)
  end.

(** [runTool] (lines 1193-1276), in parts: the "not installed" exit,
    what is printed before the spawn, the child itself, and the [close]
    and [error] handlers.  The names [main] hands over come from the two
    tables, so [tools[toolName]] is a lookup among the entries the literal
    defines.  For one of the [objectPrototypeKeys] the script finds an
    inherited value, goes on to [spawn(undefined, ...)] and throws; the
    lookup below stands for [tools[toolName]] on every other name. *)
Definition notInstalled (t : Tool) : M bool :=
  printMessage (description t ++ " - TOOL NOT INSTALLED");;
  printMessage ("Install with: npm install -D " ++ command t);;
  mret false.

(** Lines 1221-1226: what is printed before the tool starts. *)
Definition announce (t : Tool) (options : Options)
    (processedArgs : list string) : M unit :=
  when (negb (quiet options))
    (printMessage (description t);;
     when (verbose options)
       (log ("  Command: " ++ command t ++ " " ++ Js.join " " processedArgs))).

Definition settle (t : Tool) (options : Options) (outcome : ChildOutcome)
    : M bool :=
  match outcome with
  | Closed code stdout elapsed =>
      if code =? 0 then
        when (negb (quiet options))
          (printMessage
             (description t ++ " - PASSED (" ++ pretty elapsed ++ "ms)"));;
        mret true
      else
        (if negb (quiet options) then
           printMessage
             (description t ++ " - FAILED (" ++ pretty elapsed ++ "ms)")
         else when (Js.truthy stdout) (log stdout));;
        mret false
  | SpawnFailed message =>
      printMessage (description t ++ " - ERROR: " ++ message);;
      mret false
  end.

Definition runTool (toolName : string) (options : Options) : M bool :=
  match tools !! toolName with
  | None =>
      printMessage ("Unknown tool: " ++ toolName);;
      mret false
  | Some t =>
      isAvailable ← checkToolAvailability toolName;
      if negb isAvailable then notInstalled t
      else
        sourceDir ← getSourceDir;
        let processedArgs := processArgs sourceDir (chosenArgs t options) in
        announce t options processedArgs;;
        outcome ← spawned (command t) processedArgs;
        settle t options outcome
  end.

(** [runToolsSequential] (lines 1281-1290) *)
Fixpoint runToolsSequential (toolNames : list string) (options : Options)
    : M (list ToolResult) :=
  match toolNames with
  | [] => mret []
  | toolName :: rest =>
      result ← runTool toolName options;
      results ← runToolsSequential rest options;
      mret ({| r_tool := toolName; success := result |} :: results)
  end.

(** [runToolsParallel] (lines 1295-1301).  Every [runTool] runs up to
    its first suspension, which spawns the probe; a probe that ends
    resumes its [runTool] up to the spawn of the tool; the end of that
    child settles the promise.  [Promise.all] keeps the order of
    [toolNames] whatever the order of completion; the trace below is the
    schedule in which children end in the order they were started. *)
Inductive InFlight :=
| Settled (result : bool)
| Running (t : Tool) (processedArgs : list string).

Definition beginTool (toolName : string) : M unit :=
  match tools !! toolName with
  | None => printMessage ("Unknown tool: " ++ toolName)
  | Some t => emit (Spawn (fst (probeCommand t)) (snd (probeCommand t)))
  end.

Definition resumeTool (options : Options) (toolName : string)
    : M (string * InFlight) :=
  match tools !! toolName with
  | None => mret (toolName, Settled false)
  | Some t =>
      outcome ← await (fst (probeCommand t)) (snd (probeCommand t));
      if negb (exitedCleanly outcome) then
        result ← notInstalled t;
        mret (toolName, Settled result)
      else
        sourceDir ← getSourceDir;
        let processedArgs := processArgs sourceDir (chosenArgs t options) in
        announce t options processedArgs;;
        emit (Spawn (command t) processedArgs);;
        mret (toolName, Running t processedArgs)
  end.

Definition finishTool (options : Options) (pending : string * InFlight)
    : M ToolResult :=
  match snd pending with
  | Settled result => mret {| r_tool := fst pending; success := result |}
  | Running t processedArgs =>
      outcome ← await (command t) processedArgs;
      result ← settle t options outcome;
      mret {| r_tool := fst pending; success := result |}
  end.

Definition runToolsParallel (toolNames : list string) (options : Options)
    : M (list ToolResult) :=
  mapM beginTool toolNames;;
  pending ← mapM (resumeTool options) toolNames;
  mapM (finishTool options) pending.

(** The fix-mode branch of [main] (lines 1425-1467). *)
Definition runAllWithFix (options : Options) : M (list ToolResult) :=
  when (negb (quiet options))
    (printMessage "Running auto-fix in sequence to avoid conflicts...");;
  when (negb (quiet options))
    (printCategoryHeader "formatting" (group "formatting"));;
  formattingResults ← runToolsSequential (group "formatting") options;
  when (negb (quiet options))
    (printCategoryHeader "linting" (group "linting"));;
  lintingResults ← runToolsSequential ["eslint"] (withFix options true);
  typeCheckResult ← runTool "type-check" (withFix options false);
  remaining ←
    mapM
      (fun categoryName =>
         let categoryTools := group categoryName in
         when (negb (quiet options))
           (printCategoryHeader categoryName categoryTools);;
         runToolsSequential categoryTools (withFix options false))
      ["security"; "analysis"];
  mret (formattingResults ++ lintingResults
        ++ [{| r_tool := "type-check"; success := typeCheckResult |}]
        ++ concat remaining)%list.

(** The loop over the four display categories (lines 1470-1499). *)
Definition runAllByCategory (toolsToRun : list string) (options : Options)
    : M (list ToolResult) :=
  perCategory ←
    mapM
      (fun categoryName =>
         let categoryTools :=
           List.filter (Js.includes toolsToRun) (group categoryName) in
         if (length categoryTools =? 0)%nat then mret []
         else
           when (negb (quiet options))
             (printCategoryHeader categoryName categoryTools);;
           if parallel options && negb (String.eqb categoryName "formatting")
           then runToolsParallel categoryTools options
           else runToolsSequential categoryTools options)
      ["formatting"; "linting"; "security"; "analysis"];
  mret (concat perCategory).

(** Lines 1424-1508: from the resolved list to the list of results. *)
Definition runResolved (toolsToRun : list string) (options : Options)
    : M (list ToolResult) :=
  if fix_ options && String.eqb (tool options) "all" then
    runAllWithFix options
  else if String.eqb (tool options) "all" then
    runAllByCategory toolsToRun options
  else if parallel options && (1 <? length toolsToRun)%nat then
    runToolsParallel toolsToRun options
  else runToolsSequential toolsToRun options.

Definition printBanner : M unit :=
  projectName ← getProjectName;
  sourceDir ← getSourceDir;
  log (projectName ++ " Quality Checks");;
  log ("Source Directory: " ++ sourceDir).

(** What one run of the script leaves behind: the results it collected
    (none when it stopped before running anything) and the exit status
    of the process. *)
Record Run := {
  results : list ToolResult;
  exitCode : Z
}.

(** Lines 1392-1513 of [main], once the reports directory is there:
    the banner, the resolution of the identifier, the run and the
    summary.  A [TypeError] thrown on the way reaches the handler of
    lines 1528-1533, which prints it and exits with 1. *)
Definition runIdentifier (options : Options) : M Run :=
  when (negb (quiet options)) printBanner;;
  match resolve (tool options) with
  | Unknown =>
      printMessage ("Unknown tool or group: " ++ tool options);;
      printMessage
        ("Use " ++ Js.dquote ++ "help" ++ Js.dquote
         ++ " to see available options");;
      mret {| results := []; exitCode := 1 |}
  | NotAnArray =>
      printMessage
        ("Error: " ++ typeErrorMessage W (tool options) (parallel options));;
      mret {| results := []; exitCode := 1 |}
  | Resolved toolsToRun =>
      collected ← runResolved toolsToRun options;
      passed ← printSummary collected options;
      mret {| results := collected;
              exitCode := if (passed : bool) then 0 else 1 |}
  end.

(** [main] (lines 1376-1514) *)
Definition main (argv : list string) : M Run :=
  options ← parseArgs argv;
  if isHelp (tool options) then
    printHelp;;
    mret {| results := []; exitCode := 0 |}
  else
    ensureReportsDirectory;;
    runIdentifier options.

(** A whole run from a fresh process. *)
Definition run (argv : list string) : Run * State :=
  main argv (initialState W).

End WithWorld.

(** *** Reading a trace *)

(** The children alive after each event: [Spawn] adds one, its [Close]
    or [ChildError] removes it. *)
Fixpoint removeFirst (c : string * list string)
    (live : list (string * list string)) : list (string * list string) :=
  match live with
  | [] => []
  | c' :: rest => if bool_decide (c = c') then rest else c' :: removeFirst c rest
  end.

Definition stepLive (live : list (string * list string)) (e : Event)
    : list (string * list string) :=
  match e with
  | Spawn cmd argv => (cmd, argv) :: live
  | Close cmd argv _ => removeFirst (cmd, argv) live
  | ChildError cmd argv _ => removeFirst (cmd, argv) live
  | Mkdir _ => live
  | Log _ => live
  end.

(** The largest number of children alive at the same time while [events]
    unfold, starting with [live]. *)
Fixpoint peakFrom (live : list (string * list string)) (events : list Event)
    : nat :=
  match events with
  | [] => length live
  | e :: rest => Nat.max (length live) (peakFrom (stepLive live e) rest)
  end.

Definition peakConcurrency (events : list Event) : nat := peakFrom [] events.

Definition isSpawn (e : Event) : bool :=
  match e with
  | Spawn _ _ => true
  | _ => false
  end.

Definition isLog (e : Event) : bool :=
  match e with
  | Log _ => true
  | _ => false
  end.

(** [m] returns a value that satisfies [P], whatever the state. *)
Definition returns {A : Type} (m : M A) (P : A -> Prop) : Prop :=
  forall s, P (fst (m s)).

(** How many times [cmd argv] was spawned. *)
Definition spawnCount (cmd : string) (argv : list string)
    (events : list Event) : nat :=
  length (List.filter (fun e => bool_decide (e = Spawn cmd argv)) events).

Definition logged (events : list Event) : list string :=
  flat_map (fun e => match e with Log line => [line] | _ => [] end) events.

(** The command line of [t] in fix mode, when it has one. *)
Definition fixCommandOf (sourceDir : string) (t : Tool)
    : option (string * list string) :=
  match fixArgs t with
  | Some fixing => Some (command t, processArgs sourceDir fixing)
  | None => None
  end.

(** The categories the fix-mode pipeline runs for diagnosis only. *)
Definition diagnosticCategories : list Category := [
  SecurityScanning; VulnerabilityChecking; DeadCode; Duplication;
  Complexity; Maintainability; DependencyCheck
].

(** A trace in which every child ends before anything else happens, and
    every command line spawned satisfies [ok]. *)
Inductive Sequential (ok : string -> list string -> Prop)
    : list Event -> Prop :=
| seq_nil : Sequential ok []
| seq_log line rest :
    Sequential ok rest -> Sequential ok (Log line :: rest)
| seq_mkdir dir rest :
    Sequential ok rest -> Sequential ok (Mkdir dir :: rest)
| seq_close cmd argv code rest :
    ok cmd argv -> Sequential ok rest ->
    Sequential ok (Spawn cmd argv :: Close cmd argv code :: rest)
| seq_error cmd argv message rest :
    ok cmd argv -> Sequential ok rest ->
    Sequential ok (Spawn cmd argv :: ChildError cmd argv message :: rest).

(** [s] with [events] appended to its trace. *)
Definition extend (s : State) (events : list Event) : State := {|
  trace := (trace s ++ events)%list;
  SOURCE_DIR := SOURCE_DIR s;
  PROJECT_NAME := PROJECT_NAME s;
  reportsDir := reportsDir s
|}.

(** [m], started in [s], returns [a] after appending [events] to the
    trace and changes nothing else. *)
Definition steps {A : Type} (m : M A) (s : State) (a : A)
    (events : list Event) : Prop :=
  m s = (a, extend s events).

(** [m] returns [a] and only prints, whatever the state. *)
Definition printsOnly {A : Type} (m : M A) (a : A) : Prop :=
  forall s, exists logs,
    steps m s a logs /\ Forall (fun e => isLog e = true) logs.

(** With [SOURCE_DIR] set to [sourceDir], [m] only adds a sequential
    trace whose command lines satisfy [ok]. *)
Definition sequentially {A : Type} (sourceDir : string)
    (ok : string -> list string -> Prop) (m : M A) : Prop :=
  forall s, SOURCE_DIR s = sourceDir ->
    exists a events, steps m s a events /\ Sequential ok events.

(** The two command lines [runTool] may spawn for [toolName]. *)
Definition commandOf (toolName : string) (fixing : bool)
    (sourceDir cmd : string) (argv : list string) : Prop :=
  exists t, tools !! toolName = Some t
    /\ ((cmd, argv) = probeCommand t
        \/ (cmd, argv) = (command t, processArgs sourceDir (argsInMode t fixing))).

(** The fix-mode pipeline as a plan: the tools it runs and whether each
    runs with its fix arguments. *)
Definition fixPlan : list (string * bool) :=
  [("prettier", true); ("eslint", true); ("type-check", false);
   ("security-scanning", false); ("vulnerability-checking", false);
   ("dead-code", false); ("duplication", false); ("complexity", false);
   ("maintainability", false); ("dependency-check", false)].

Definition planned (plan : list (string * bool))
    (sourceDir cmd : string) (argv : list string) : Prop :=
  exists toolName fixing,
    In (toolName, fixing) plan /\ commandOf toolName fixing sourceDir cmd argv.

(** The plan on either side of the type check. *)
Definition fixPlanBefore : list (string * bool) :=
  [("prettier", true); ("eslint", true)].

Definition fixPlanAfter : list (string * bool) :=
  [("security-scanning", false); ("vulnerability-checking", false);
   ("dead-code", false); ("duplication", false); ("complexity", false);
   ("maintainability", false); ("dependency-check", false)].

(** What [runTool("type-check", ...)], started in [s], adds to the trace:
    the probe [npx tsc --version] and its end; when the probe exits with
    code 0, [npx tsc --noEmit] and its end, with lines printed in between
    and after; otherwise lines only. *)
Definition typeChecked (W : World) (s : State) (events : list Event) : Prop :=
  let probed :=
    child W (trace s ++ [Spawn "npx" ["tsc"; "--version"]])
      "npx" ["tsc"; "--version"] in
  exists logs,
    Forall (fun e => isLog e = true) logs
    /\ if exitedCleanly probed then
         exists outcome logs',
           Forall (fun e => isLog e = true) logs'
           /\ events
              = ([Spawn "npx" ["tsc"; "--version"];
                  Close "npx" ["tsc"; "--version"] 0]
                 ++ logs
                 ++ [Spawn "npx" ["tsc"; "--noEmit"];
                     endingOf "npx" ["tsc"; "--noEmit"] outcome]
                 ++ logs')%list
       else
         events
         = ([Spawn "npx" ["tsc"; "--version"];
             endingOf "npx" ["tsc"; "--version"] probed] ++ logs)%list
         /\ endingOf "npx" ["tsc"; "--version"] probed
            <> Close "npx" ["tsc"; "--version"] 0.

(** With [SOURCE_DIR] set to [sourceDir], [m] adds a sequential trace of
    [ok] command lines, then events that satisfy [P] of the state they
    start in, then a sequential trace of [ok'] command lines. *)
Definition around {A : Type} (sourceDir : string)
    (ok ok' : string -> list string -> Prop)
    (P : State -> list Event -> Prop) (m : M A) : Prop :=
  forall s, SOURCE_DIR s = sourceDir ->
    exists a before mid after,
      steps m s a (before ++ mid ++ after)
      /\ Sequential ok before
      /\ P (extend s before) mid
      /\ Sequential ok' after.

(** Sample inputs. *)

(** The [type-check] entry of [tools]: a tool without [fixArgs]. *)
Definition typeCheckTool : Tool := {|
  command := "npx";
  args := ["tsc"; "--noEmit"];
  fixArgs := None;
  description := "TypeScript type checking";
  category := TypeChecking;
  order := 4
|}.

(** The [dependency-check] entry of [tools], the one whose arguments
    name the source directory. *)
Definition dependencyCheckTool : Tool := {|
  command := "npx";
  args := ["depcruise"; "--validate"; ".dependency-cruiser.cjs"; "src/"];
  fixArgs := None;
  description := "Dependency analysis and validation (dependency-cruiser)";
  category := DependencyCheck;
  order := 11
|}.

(** The options of [quality-check.js type-check --fix]. *)
Definition typeCheckWithFix : Options := {|
  tool := "type-check";
  fix_ := true;
  verbose := false;
  quiet := false;
  parallel := false;
  sourceDir := None;
  projectName := None
|}.

(** Every identifier the tables define. *)
Definition validIdentifiers : list string :=
  (map fst toolTable ++ map fst groupTable)%list.

(** A world in which every child exits with status 0 after 5 ms. *)
Definition allPass : World := {|
  child := fun _ _ _ => Closed 0 "" 5;
  reportsDirExists := false;
  typeErrorMessage := fun _ isParallel =>
    if isParallel then "toolNames.map is not a function"
    else "toolNames is not iterable"
|}.

(** A world without the type checker: [npx tsc --version] exits with
    status 1, every other child with status 0. *)
Definition withoutTypeChecker : World := {|
  child := fun _ _ argv =>
    if bool_decide (argv = ["tsc"; "--version"]) then Closed 1 "" 5
    else Closed 0 "" 5;
  reportsDirExists := false;
  typeErrorMessage := fun _ isParallel =>
    if isParallel then "toolNames.map is not a function"
    else "toolNames is not iterable"
|}.

(** *** Reading a run *)

(** [args[0] || "help"] *)
Definition identifierOf (argv : list string) : string :=
  match argv with
  | a :: _ => if Js.truthy a then a else "help"
  | [] => "help"
  end.


(** [m], started with [SOURCE_DIR] set to [sourceDir], changes nothing
    but the trace, appends only events that satisfy [P] and returns a
    value that satisfies [Q]. *)
Definition performs {A : Type} (sourceDir : string) (P : Event -> Prop)
    (Q : A -> Prop) (m : M A) : Prop :=
  forall s, SOURCE_DIR s = sourceDir ->
    exists a events, steps m s a events /\ Forall P events /\ Q a.

(** A command line of the table: the probe or the command of some tool,
    in one of its two modes. *)
Definition tableCommand (sourceDir cmd : string) (argv : list string)
    : Prop :=
  exists toolName fixing, commandOf toolName fixing sourceDir cmd argv.

(** What a run does once the reports directory is there: it prints, and
    it starts and awaits children whose command lines come from the
    table. *)
Definition fromTable (sourceDir : string) (e : Event) : Prop :=
  match e with
  | Log _ => True
  | Mkdir _ => False
  | Spawn cmd argv | Close cmd argv _ | ChildError cmd argv _ =>
      tableCommand sourceDir cmd argv
  end.



(** [result] is what [runTool] may return for [toolName]: the tool
    passes when its probe and its own command both exit with status 0, at
    whatever moments they are run. *)
Definition judged (W : World) (sourceDir : string) (fixing : bool)
    (toolName : string) (result : ToolResult) : Prop :=
  r_tool result = toolName
  /\ exists before1 before2,
       success result
       = match tools !! toolName with
         | None => false
         | Some t =>
             exitedCleanly
               (child W before1 (fst (probeCommand t)) (snd (probeCommand t)))
             && exitedCleanly
                  (child W before2 (command t)
                     (processArgs sourceDir (argsInMode t fixing)))
         end.

(** What [resumeTool] hands over for [toolName]. *)
Definition resumed (W : World) (sourceDir : string) (fixing : bool)
    (toolName : string) (pending : string * InFlight) : Prop :=
  fst pending = toolName
  /\ match tools !! toolName with
     | None => snd pending = Settled false
     | Some t =>
         exists before,
           let available :=
             exitedCleanly
               (child W before (fst (probeCommand t)) (snd (probeCommand t)))
           in
           snd pending
           = if available
             then Running t (processArgs sourceDir (argsInMode t fixing))
             else Settled false
     end.

(** What [finishTool] makes of a pending entry. *)
Definition finished (W : World) (pending : string * InFlight)
    (result : ToolResult) : Prop :=
  r_tool result = fst pending
  /\ match snd pending with
     | Settled verdict => success result = verdict
     | Running t processedArgs =>
         exists before,
           success result
           = exitedCleanly (child W before (command t) processedArgs)
     end.

(** The members of [toolsToRun] that the loop over the four display
    categories reaches, in the order it reaches them. *)
Definition byCategory (toolsToRun : list string) : list string :=
  flat_map
    (fun categoryName =>
       List.filter (Js.includes toolsToRun) (group categoryName))
    ["formatting"; "linting"; "security"; "analysis"].

(** The tools a run goes through for the resolved list [toolsToRun], and
    whether each is run with its fix arguments. *)
Definition planOf (options : Options) (toolsToRun : list string)
    : list (string * bool) :=
  if fix_ options && String.eqb (tool options) "all" then fixPlan
  else
    map (fun toolName => (toolName, fix_ options))
      (if String.eqb (tool options) "all" then byCategory toolsToRun
       else toolsToRun).

Definition judgedAs (W : World) (sourceDir : string)
    (entry : string * bool) (result : ToolResult) : Prop :=
  judged W sourceDir (snd entry) (fst entry) result.

(** What [runIdentifier] hands back: the exit status follows the
    results, and the results follow the plan. *)
Definition reported (W : World) (sourceDir : string) (options : Options)
    (r : Run) : Prop :=
  exitCode r
  = (if forallb success (results r)
        && match resolve (tool options) with Resolved _ => true | _ => false end
     then 0 else 1)
  /\ match resolve (tool options) with
     | Resolved toolsToRun =>
         Forall2 (judgedAs W sourceDir) (planOf options toolsToRun) (results r)
     | _ => results r = []
     end.

(** The name a tool is registered under. *)
Definition registered (toolName : string) : Prop :=
  is_Some (tools !! toolName).

End Runner.

(** * Theorems *)

(** ** The maintainability scorer *)

Module ScorerFacts.

Import Scorer.
Open Scope Q_scope.

(** *** Arithmetic helpers *)

Lemma inject_Z_nonneg (z : Z) : (0 <= z)%Z -> 0 <= inject_Z z.
Proof. intros H. change 0 with (inject_Z 0). now rewrite <- Zle_Qle. Qed.

Lemma inject_Z_pos (z : Z) : (0 < z)%Z -> 0 < inject_Z z.
Proof. intros H. change 0 with (inject_Z 0). now rewrite <- Zlt_Qlt. Qed.

Lemma weightOf_ge_1 (r : FileMetric) : 1 <= weightOf r.
Proof.
  unfold weightOf. change 1 with (inject_Z 1).
  rewrite <- Zle_Qle. lia.
Qed.

Lemma weightOf_lines (r : FileMetric) :
  (1 <= fm_lines r)%Z -> weightOf r = inject_Z (fm_lines r).
Proof. intros H. unfold weightOf. now rewrite Z.max_r. Qed.

Lemma div_nonneg (a b : Q) : 0 <= a -> 0 < b -> 0 <= a / b.
Proof. intros Ha Hb. apply Qle_shift_div_l; lra. Qed.

Lemma div_le_compat (a b c : Q) : 0 < c -> a <= b -> a / c <= b / c.
Proof.
  intros Hc Hab. apply Qle_shift_div_l; [exact Hc|].
  assert (E : a / c * c == a) by (field; lra).
  rewrite E. exact Hab.
Qed.

Lemma div_le_bound (a c k : Q) : 0 < c -> a <= k * c -> a / c <= k.
Proof. intros Hc H. now apply Qle_shift_div_r. Qed.

Lemma mul_div_cancel (a c : Q) : 0 < c -> a * c / c == a.
Proof. intros Hc. field. lra. Qed.

(** [Math.max(0, x - p)] is monotone in [x] and never negative. *)
Lemma floor_monotone (x y p : Q) : x <= y -> Qmax 0 (x - p) <= Qmax 0 (y - p).
Proof. intros H. apply Q.max_le_compat_l. lra. Qed.

Lemma floor_nonneg (x : Q) : 0 <= Qmax 0 x.
Proof. apply Q.le_max_l. Qed.

(** Case analysis on every [Math.max] in sight, innermost first. *)
Ltac split_max :=
  repeat match goal with
  | |- context [Qmax ?a ?b] =>
      lazymatch b with
      | context [Qmax _ _] => fail
      | _ =>
          let m := fresh "m" in
          let E := fresh "E" in
          destruct (Q.max_spec a b) as [[? E] | [? E]];
          set (m := Qmax a b) in *; clearbody m
      end
  end.

(** *** The three penalties *)

Lemma penalizedScore_stages (r : FileMetric) :
  penalizedScore r =
    let s1 :=
      if isComplexFile r then Qmax 0 (fm_maintainability r - p1 r)
      else fm_maintainability r in
    let s2 := if isLargeFile r then Qmax 0 (s1 - p2 r) else s1 in
    if (0 <? length (complexFunctionsOf r))%nat
    then Qmax 0 (s2 - p3 r) else s2.
Proof. reflexivity. Qed.

Lemma p1_pos (r : FileMetric) : isComplexFile r = true -> 0 < p1 r.
Proof.
  unfold isComplexFile, p1. intros H. apply Z.ltb_lt in H.
  apply inject_Z_pos. lia.
Qed.

Lemma p2_pos (r : FileMetric) : isLargeFile r = true -> 0 < p2 r.
Proof.
  unfold isLargeFile, p2. intros H. apply Z.ltb_lt in H.
  apply Qlt_shift_div_l; [reflexivity|].
  rewrite Qmult_0_l. apply inject_Z_pos. lia.
Qed.

Lemma p3_pos (r : FileMetric) :
  (0 <? length (complexFunctionsOf r))%nat = true -> 0 < p3 r.
Proof.
  unfold p3. intros H. apply Nat.ltb_lt in H.
  apply inject_Z_pos. lia.
Qed.

Lemma p1_value (r : FileMetric) :
  p1 r == 2 * inject_Z (fm_complexity r - maxCyclomatic (complexity config)).
Proof. unfold p1. rewrite inject_Z_mult. change (inject_Z 2) with 2. lra. Qed.

Lemma p3_value (r : FileMetric) :
  p3 r == 3 * inject_Z (Z.of_nat (length (complexFunctionsOf r))).
Proof. unfold p3. rewrite inject_Z_mult. change (inject_Z 3) with 3. lra. Qed.

Lemma p3_zero (r : FileMetric) :
  (0 <? length (complexFunctionsOf r))%nat = false -> p3 r == 0.
Proof.
  unfold p3. intros H. apply Nat.ltb_ge in H.
  assert (E : length (complexFunctionsOf r) = 0%nat) by lia.
  rewrite E. reflexivity.
Qed.

Lemma penalizedScore_floored (r : FileMetric) :
  anyPenaltyApplies r = true \/ 0 <= fm_maintainability r ->
  penalizedScore r == flooredScore r.
Proof.
  intros H. rewrite penalizedScore_stages. unfold flooredScore.
  assert (Hq1 : 0 <= (if isComplexFile r then p1 r else 0)).
  { destruct (isComplexFile r) eqn:E; [apply Qlt_le_weak, p1_pos, E | lra]. }
  assert (Hq2 : 0 <= (if isLargeFile r then p2 r else 0)).
  { destruct (isLargeFile r) eqn:E; [apply Qlt_le_weak, p2_pos, E | lra]. }
  assert (Hq3 : 0 <= p3 r).
  { destruct (0 <? length (complexFunctionsOf r))%nat eqn:E;
      [apply Qlt_le_weak, p3_pos, E | rewrite (p3_zero r E); lra]. }
  assert (E1 : complexityPenalty r == (if isComplexFile r then p1 r else 0)).
  { unfold complexityPenalty. destruct (isComplexFile r);
      [symmetry; apply p1_value | reflexivity]. }
  assert (E2 : sizePenalty r == (if isLargeFile r then p2 r else 0)).
  { unfold sizePenalty, p2. destruct (isLargeFile r); reflexivity. }
  assert (E3 : functionPenalty r
               == (if (0 <? length (complexFunctionsOf r))%nat
                   then p3 r else 0)).
  { unfold functionPenalty. rewrite <- p3_value.
    destruct (0 <? length (complexFunctionsOf r))%nat eqn:E;
      [reflexivity | apply p3_zero, E]. }
  rewrite E1, E2, E3.
  unfold anyPenaltyApplies in H.
  destruct (isComplexFile r) eqn:B1, (isLargeFile r) eqn:B2,
    (0 <? length (complexFunctionsOf r))%nat eqn:B3;
    cbn zeta iota;
    try (destruct H as [H | H]; [discriminate H|]);
    try (destruct H as [_ | H]);
    split_max; lra.
Qed.

Lemma penalizedScore_raw (r : FileMetric) :
  anyPenaltyApplies r = false -> penalizedScore r = fm_maintainability r.
Proof.
  unfold anyPenaltyApplies. intros H.
  apply orb_false_elim in H as [H H3]. apply orb_false_elim in H as [H1 H2].
  rewrite penalizedScore_stages, H1, H2, H3. reflexivity.
Qed.

Lemma penalizedScore_nonneg (r : FileMetric) :
  anyPenaltyApplies r = true \/ 0 <= fm_maintainability r ->
  0 <= penalizedScore r.
Proof.
  intros H. rewrite (penalizedScore_floored r H).
  unfold flooredScore. apply floor_nonneg.
Qed.

Lemma penalizedScore_le_raw (r : FileMetric) :
  0 <= fm_maintainability r -> penalizedScore r <= fm_maintainability r.
Proof.
  intros H. rewrite penalizedScore_stages.
  pose proof (p1_pos r) as H1. pose proof (p2_pos r) as H2.
  pose proof (p3_pos r) as H3.
  destruct (isComplexFile r), (isLargeFile r),
    (0 <? length (complexFunctionsOf r))%nat;
    cbn zeta iota;
    try specialize (H1 eq_refl); try specialize (H2 eq_refl);
    try specialize (H3 eq_refl);
    split_max; lra.
Qed.

(** *** The loop and its totals *)

Lemma fold_accumulate (results : list FileMetric) (acc : Q * Q) :
  fst (fold_left accumulate results acc) == fst acc + scoreSum results
  /\ snd (fold_left accumulate results acc) == snd acc + weightSum results.
Proof.
  revert acc. induction results as [|r rest IH]; intros acc; simpl.
  - split; lra.
  - destruct (IH (accumulate acc r)) as [HS HW]. rewrite HS, HW.
    unfold accumulate, contribution, weightShare.
    destruct (hasError r); simpl; split; lra.
Qed.

Lemma totals_sums (results : list FileMetric) :
  fst (totals results) == scoreSum results
  /\ snd (totals results) == weightSum results.
Proof.
  destruct (fold_accumulate results (0, 0)) as [HS HW].
  unfold totals. rewrite HS, HW. simpl. split; lra.
Qed.

(** Entries with an error leave the accumulator alone. *)
Lemma fold_skips_errors (results : list FileMetric) (acc : Q * Q) :
  fold_left accumulate results acc
  = fold_left accumulate (withoutErrors results) acc.
Proof.
  revert acc. induction results as [|r rest IH]; intros acc; simpl.
  - reflexivity.
  - unfold withoutErrors in *. simpl.
    destruct (hasError r) eqn:E; simpl.
    + unfold accumulate at 2. rewrite E. apply IH.
    + apply IH.
Qed.

Lemma weightShare_nonneg (r : FileMetric) : 0 <= weightShare r.
Proof.
  unfold weightShare. pose proof (weightOf_ge_1 r).
  destruct (hasError r); lra.
Qed.

Lemma weightSum_nonneg (results : list FileMetric) : 0 <= weightSum results.
Proof.
  induction results as [|r rest IH]; simpl; [lra|].
  pose proof (weightShare_nonneg r). lra.
Qed.

Lemma weightSum_pos (results : list FileMetric) :
  results <> [] ->
  Forall (fun r => hasError r = false) results ->
  0 < weightSum results.
Proof.
  intros Hne Hall. destruct results as [|r rest]; [congruence|].
  simpl. inversion Hall as [|? ? Hr _]; subst.
  unfold weightShare. rewrite Hr.
  pose proof (weightOf_ge_1 r). pose proof (weightSum_nonneg rest). lra.
Qed.

(** The value returned on a non-empty list, in terms of the two sums. *)
Lemma score_positive_weight (results : list FileMetric) :
  results <> [] -> 0 < weightSum results ->
  calculateMaintainabilityScore results
  == scoreSum results / weightSum results.
Proof.
  intros Hne Hpos. unfold calculateMaintainabilityScore.
  destruct results as [|r rest]; [congruence|].
  cbn [length Nat.eqb].
  destruct (totals_sums (r :: rest)) as [HS HW].
  destruct (totals (r :: rest)) as [s w]. cbn [fst snd] in HS, HW.
  destruct (Qlt_le_dec 0 w) as [Hw | Hw].
  - rewrite HS, HW. reflexivity.
  - lra.
Qed.

Lemma score_no_weight (results : list FileMetric) :
  weightSum results <= 0 -> calculateMaintainabilityScore results = 0.
Proof.
  intros Hw. unfold calculateMaintainabilityScore.
  destruct (length results =? 0)%nat; [reflexivity|].
  destruct (totals_sums results) as [_ HW].
  destruct (totals results) as [s w]. cbn [fst snd] in HW.
  destruct (Qlt_le_dec 0 w) as [Hw' | Hw']; [lra | reflexivity].
Qed.

Lemma scoreSum_app (xs ys : list FileMetric) :
  scoreSum (xs ++ ys) == scoreSum xs + scoreSum ys.
Proof. induction xs as [|x xs IH]; simpl; [lra | rewrite IH; lra]. Qed.

Lemma weightSum_app (xs ys : list FileMetric) :
  weightSum (xs ++ ys) == weightSum xs + weightSum ys.
Proof. induction xs as [|x xs IH]; simpl; [lra | rewrite IH; lra]. Qed.

Lemma sumQ_from (l : list Q) (a : Q) :
  fold_left Qplus l a == a + fold_right Qplus 0 l.
Proof.
  revert a. induction l as [|x l IH]; intros a; simpl; [lra|].
  rewrite IH. lra.
Qed.

Lemma sumQ_cons (x : Q) (l : list Q) : sumQ (x :: l) == x + sumQ l.
Proof. unfold sumQ. simpl. rewrite !sumQ_from. lra. Qed.

Lemma sumZ_from (l : list Z) (a : Z) :
  fold_left Z.add l a = (a + fold_right Z.add 0 l)%Z.
Proof.
  revert a. induction l as [|x l IH]; intros a; simpl; [lia|].
  rewrite IH. lia.
Qed.

Lemma sumZ_cons (x : Z) (l : list Z) : sumZ (x :: l) = (x + sumZ l)%Z.
Proof. unfold sumZ. simpl. rewrite !sumZ_from. lia. Qed.

Lemma scoreSum_map (results : list FileMetric) :
  Forall (fun r => hasError r = false) results ->
  scoreSum results
  == sumQ (map (fun r => penalizedScore r * weightOf r) results).
Proof.
  induction 1 as [|r rest Hr _ IH]; [reflexivity|].
  cbn [map scoreSum]. rewrite sumQ_cons, <- IH.
  unfold contribution. rewrite Hr. reflexivity.
Qed.

Lemma weightSum_map (results : list FileMetric) :
  Forall (fun r => hasError r = false) results ->
  weightSum results == sumQ (map weightOf results).
Proof.
  induction 1 as [|r rest Hr _ IH]; [reflexivity|].
  cbn [map weightSum]. rewrite sumQ_cons, <- IH.
  unfold weightShare. rewrite Hr. reflexivity.
Qed.

Lemma weights_are_lines (results : list FileMetric) :
  Forall (fun r => (1 <= fm_lines r)%Z) results ->
  sumQ (map (fun r => penalizedScore r * weightOf r) results)
  == sumQ (map (fun r => penalizedScore r * inject_Z (fm_lines r)) results)
  /\ sumQ (map weightOf results) == inject_Z (sumZ (map fm_lines results)).
Proof.
  induction 1 as [|r rest Hr _ [IH1 IH2]]; [split; reflexivity|].
  cbn [map]. rewrite !sumQ_cons, sumZ_cons, inject_Z_plus, IH1, IH2.
  rewrite (weightOf_lines r Hr). split; reflexivity.
Qed.

(** *** Zero eligible files *)

(** C3, as the code has it: when no eligible file is found, [main] prints
    the warning "No files found to analyze" and returns; no report object
    is built, nothing is written, and the process ends with status 0.
    [calculateMaintainabilityScore] is not reached; on an empty list it
    returns 0 without dividing. *)
Theorem no_files_no_report (env : Env) (options : Options) :
  helpRequested env = false ->
  analyzerAvailable env = true ->
  filesToAnalyze env options = [] ->
  main env options
  = {| effects :=
         ((if quiet options then [] else [PrintHeader])
          ++ [Print "No files found to analyze"])%list;
       report := None;
       exitCode := 0 |}
  /\ calculateMaintainabilityScore [] = 0.
Proof.
  intros Hhelp Havail Hfiles. split; [|reflexivity].
  unfold main, validateToolAvailability.
  rewrite Hhelp, Havail, Hfiles. reflexivity.
Qed.

Lemma no_files_no_report_witness :
  main emptyProject defaultOptions
  = {| effects := [PrintHeader; Print "No files found to analyze"];
       report := None;
       exitCode := 0 |}
  /\ calculateMaintainabilityScore [] = 0.
Proof.
  apply (no_files_no_report emptyProject defaultOptions); reflexivity.
Defined.

(** C3 as stated fails: on a project without eligible files the scorer
    builds no report at all, and the recommendations computed for an empty
    result list would hold the "below threshold" entry only. *)
Lemma empty_project_has_no_report :
  filesToAnalyze emptyProject defaultOptions = []
  /\ report (main emptyProject defaultOptions) = None
  /\ map rec_message (generateRecommendations [] 0)
     = ["Overall maintainability score is below acceptable threshold"].
Proof. repeat split. Qed.

(** *** Penalties *)

(** C4, as the code has it: for an entry without error the loop adds
    [penalizedScore r] times the weight; the penalized score is the raw
    sub-score less 2 x (complexity - 10) when complexity exceeds 10, less
    (lines - 300)/50 when lines exceed 300, less 3 x the number of
    functions whose complexity exceeds 10, floored at zero, whenever at
    least one penalty applies or the raw sub-score is not negative; when
    no penalty applies the raw sub-score is passed on unchanged. *)
Theorem penalized_score_is_floored (r : FileMetric) (acc : Q * Q) :
  hasError r = false ->
  accumulate acc r
  = (fst acc + penalizedScore r * weightOf r, snd acc + weightOf r)
  /\ (anyPenaltyApplies r = false ->
      penalizedScore r = fm_maintainability r)
  /\ (anyPenaltyApplies r = true \/ 0 <= fm_maintainability r ->
      penalizedScore r == flooredScore r /\ 0 <= penalizedScore r).
Proof.
  intros Herr. split; [|split].
  - unfold accumulate. rewrite Herr. reflexivity.
  - apply penalizedScore_raw.
  - intros H. split;
      [apply penalizedScore_floored | apply penalizedScore_nonneg]; exact H.
Qed.

Lemma penalized_score_is_floored_witness :
  accumulate (0, 0) tangledFile
  = (0 + penalizedScore tangledFile * weightOf tangledFile,
     0 + weightOf tangledFile)
  /\ (anyPenaltyApplies tangledFile = false ->
      penalizedScore tangledFile = fm_maintainability tangledFile)
  /\ (anyPenaltyApplies tangledFile = true
      \/ 0 <= fm_maintainability tangledFile ->
      penalizedScore tangledFile == flooredScore tangledFile
      /\ 0 <= penalizedScore tangledFile).
Proof. apply (penalized_score_is_floored tangledFile (0, 0)). reflexivity. Defined.

Example tangledFile_score : penalizedScore tangledFile == 45.
Proof. reflexivity. Qed.

(** C4 as stated fails: an entry without error whose raw sub-score is
    negative and to which no penalty applies keeps its negative score. *)
Lemma unpenalized_score_can_be_negative :
  hasError minifiedBundle = false
  /\ penalizedScore minifiedBundle < 0
  /\ ~ penalizedScore minifiedBundle == flooredScore minifiedBundle.
Proof.
  split; [reflexivity|]. split; [reflexivity|].
  intros H. vm_compute in H. discriminate H.
Qed.

(** *** Entries with a parse error *)

(** C10: the score of a list is the score of its entries without error;
    a list of error entries only scores 0. *)
Theorem score_ignores_error_entries (results : list FileMetric) :
  calculateMaintainabilityScore results
  = calculateMaintainabilityScore (withoutErrors results)
  /\ (Forall (fun r => hasError r = true) results ->
      calculateMaintainabilityScore results = 0).
Proof.
  assert (Hfirst : calculateMaintainabilityScore results
                   = calculateMaintainabilityScore (withoutErrors results)).
  { unfold calculateMaintainabilityScore, totals.
    rewrite (fold_skips_errors results (0, 0)).
    destruct results as [|r rest]; [reflexivity|].
    cbn [length Nat.eqb].
    destruct (withoutErrors (r :: rest)) as [|r' rest'] eqn:E;
      reflexivity. }
  split; [exact Hfirst|].
  intros Hall. rewrite Hfirst.
  assert (E : withoutErrors results = []).
  { clear Hfirst. induction Hall as [|r rest Hr _ IH]; [reflexivity|].
    unfold withoutErrors in *. simpl. rewrite Hr. exact IH. }
  rewrite E. reflexivity.
Qed.

Lemma score_ignores_error_entries_witness :
  calculateMaintainabilityScore
    [errorEntry "src/broken.ts" "Unexpected token"; cleanFile]
  = calculateMaintainabilityScore
      (withoutErrors [errorEntry "src/broken.ts" "Unexpected token"; cleanFile])
  /\ calculateMaintainabilityScore
       [errorEntry "src/broken.ts" "Unexpected token"] = 0.
Proof.
  split.
  - apply (score_ignores_error_entries
             [errorEntry "src/broken.ts" "Unexpected token"; cleanFile]).
  - apply (score_ignores_error_entries
             [errorEntry "src/broken.ts" "Unexpected token"]).
    repeat constructor.
Defined.

(** *** The weighted mean *)

(** C5, as the code has it: on a non-empty list of entries without error
    the score is the quotient the loop builds, the sum of the penalized
    scores times their weights [max(1, lines)] over the sum of the weights;
    it is the line-count-weighted mean when every file has at least one
    line.  Nothing is said of a single file beyond that: its score is
    [(s * w) / w], which binary64 rounds (see [Binary64Facts]). *)
Theorem score_is_weighted_mean (results : list FileMetric) :
  results <> [] ->
  Forall (fun r => hasError r = false) results ->
  calculateMaintainabilityScore results == weightedMean results
  /\ (Forall (fun r => (1 <= fm_lines r)%Z) results ->
      calculateMaintainabilityScore results == lineWeightedMean results).
Proof.
  intros Hne Hall.
  pose proof (weightSum_pos results Hne Hall) as Hpos.
  pose proof (score_positive_weight results Hne Hpos) as Hscore.
  assert (Hmean : calculateMaintainabilityScore results
                  == weightedMean results).
  { rewrite Hscore. unfold weightedMean.
    rewrite (scoreSum_map results Hall), (weightSum_map results Hall).
    reflexivity. }
  split; [exact Hmean|].
  intros Hlines. rewrite Hmean. unfold weightedMean, lineWeightedMean.
  destruct (weights_are_lines results Hlines) as [E1 E2].
  rewrite E1, E2. reflexivity.
Qed.

Lemma score_is_weighted_mean_witness :
  calculateMaintainabilityScore [cleanFile; tangledFile]
  == weightedMean [cleanFile; tangledFile]
  /\ calculateMaintainabilityScore [cleanFile; tangledFile]
     == lineWeightedMean [cleanFile; tangledFile].
Proof.
  assert (Hne : [cleanFile; tangledFile] <> []) by discriminate.
  assert (Hall : Forall (fun r => hasError r = false)
                   [cleanFile; tangledFile])
    by (repeat constructor).
  assert (Hlines : Forall (fun r => (1 <= fm_lines r)%Z)
                     [cleanFile; tangledFile])
    by (repeat constructor; discriminate).
  destruct (score_is_weighted_mean [cleanFile; tangledFile] Hne Hall)
    as [Hmean Hline].
  split; [exact Hmean | exact (Hline Hlines)].
Defined.

(** C5 as stated fails: a file of zero lines still weighs 1, so the score
    is not the mean weighted by the line counts themselves. *)
Lemma zero_line_file_still_weighs :
  Forall (fun r => hasError r = false) [emptyFile; cleanFile]
  /\ calculateMaintainabilityScore [emptyFile; cleanFile] == 1050 / 11
  /\ lineWeightedMean [emptyFile; cleanFile] == 100
  /\ ~ calculateMaintainabilityScore [emptyFile; cleanFile]
       == lineWeightedMean [emptyFile; cleanFile].
Proof.
  split; [repeat constructor|]. split; [reflexivity|].
  split; [reflexivity|].
  intros H. vm_compute in H. discriminate H.
Qed.

(** *** Range of the score *)

Lemma scoreSum_bounds (results : list FileMetric) :
  Forall (fun r => hasError r = false ->
                   0 <= fm_maintainability r <= 100) results ->
  0 <= scoreSum results /\ scoreSum results <= 100 * weightSum results.
Proof.
  induction 1 as [|r rest Hr _ [IH1 IH2]]; simpl; [split; lra|].
  unfold contribution, weightShare.
  destruct (hasError r) eqn:E; [split; lra|].
  destruct (Hr eq_refl) as [Hlo Hhi].
  pose proof (weightOf_ge_1 r) as Hw.
  pose proof (penalizedScore_nonneg r (or_intror Hlo)) as Hp0.
  pose proof (penalizedScore_le_raw r Hlo) as Hp1.
  split; nra.
Qed.

(** C9, as the code has it: when the raw sub-score of every entry without
    error lies between 0 and 100, so does the overall score. *)
Theorem score_within_bounds (results : list FileMetric) :
  Forall (fun r => hasError r = false ->
                   0 <= fm_maintainability r <= 100) results ->
  0 <= calculateMaintainabilityScore results <= 100.
Proof.
  intros Hraw.
  destruct (Qlt_le_dec 0 (weightSum results)) as [Hpos | Hzero].
  - assert (Hne : results <> []).
    { intros ->. simpl in Hpos. lra. }
    rewrite (score_positive_weight results Hne Hpos).
    destruct (scoreSum_bounds results Hraw) as [Hlo Hhi].
    split; [apply div_nonneg | apply div_le_bound]; assumption.
  - rewrite (score_no_weight results Hzero). split; lra.
Qed.

Lemma score_within_bounds_witness :
  0 <= calculateMaintainabilityScore [cleanFile; tangledFile] <= 100.
Proof.
  apply (score_within_bounds [cleanFile; tangledFile]).
  repeat (apply List.Forall_cons; [intros _; simpl; lra|]).
  apply List.Forall_nil.
Defined.

(** C9 as stated fails: nothing clamps the raw sub-score, and the
    analyzer's default scale runs up to 171. *)
Lemma score_can_exceed_100 :
  hasError trivialFile = false
  /\ calculateMaintainabilityScore [trivialFile] == 150
  /\ ~ calculateMaintainabilityScore [trivialFile] <= 100.
Proof.
  split; [reflexivity|]. split; [reflexivity|].
  intros H. vm_compute in H. apply H. reflexivity.
Qed.

(** *** Monotonicity in one file's complexity *)

Lemma p1_monotone (r : FileMetric) (c c' : Z) :
  (c <= c')%Z -> p1 (withComplexity r c) <= p1 (withComplexity r c').
Proof.
  intros H. unfold p1. cbn [fm_complexity withComplexity].
  rewrite <- Zle_Qle. lia.
Qed.

Lemma stages_monotone (x a a' q2 q3 : Q) (b2 b3 : bool) :
  a <= a' ->
  (let s1 := Qmax 0 (x - a') in
   let s2 := if b2 then Qmax 0 (s1 - q2) else s1 in
   if b3 then Qmax 0 (s2 - q3) else s2)
  <= (let s1 := Qmax 0 (x - a) in
      let s2 := if b2 then Qmax 0 (s1 - q2) else s1 in
      if b3 then Qmax 0 (s2 - q3) else s2).
Proof.
  intros H. cbn zeta.
  assert (H1 : Qmax 0 (x - a') <= Qmax 0 (x - a))
    by (apply Q.max_le_compat_l; lra).
  destruct b2, b3; try exact H1;
    repeat apply floor_monotone; exact H1.
Qed.

Lemma penalizedScore_monotone (r : FileMetric) (c c' : Z) :
  (maxCyclomatic (complexity config) < c)%Z -> (c <= c')%Z ->
  penalizedScore (withComplexity r c')
  <= penalizedScore (withComplexity r c).
Proof.
  intros Hc Hcc'. rewrite !penalizedScore_stages.
  assert (B : isComplexFile (withComplexity r c) = true)
    by (apply Z.ltb_lt; exact Hc).
  assert (B' : isComplexFile (withComplexity r c') = true)
    by (apply Z.ltb_lt; cbn [fm_complexity withComplexity]; lia).
  rewrite B, B'.
  change (isLargeFile (withComplexity r c')) with (isLargeFile r).
  change (isLargeFile (withComplexity r c)) with (isLargeFile r).
  change (complexFunctionsOf (withComplexity r c'))
    with (complexFunctionsOf r).
  change (complexFunctionsOf (withComplexity r c))
    with (complexFunctionsOf r).
  change (p2 (withComplexity r c')) with (p2 r).
  change (p2 (withComplexity r c)) with (p2 r).
  change (p3 (withComplexity r c')) with (p3 r).
  change (p3 (withComplexity r c)) with (p3 r).
  change (fm_maintainability (withComplexity r c'))
    with (fm_maintainability r).
  change (fm_maintainability (withComplexity r c))
    with (fm_maintainability r).
  apply stages_monotone, p1_monotone, Hcc'.
Qed.

Lemma contribution_monotone (r : FileMetric) (c c' : Z) :
  penalizedScore (withComplexity r c') <= penalizedScore (withComplexity r c) ->
  contribution (withComplexity r c') <= contribution (withComplexity r c)
  /\ weightShare (withComplexity r c') = weightShare (withComplexity r c).
Proof.
  intros Hp. split; [|reflexivity].
  unfold contribution.
  change (hasError (withComplexity r c')) with (hasError r).
  change (hasError (withComplexity r c)) with (hasError r).
  change (weightOf (withComplexity r c')) with (weightOf r).
  change (weightOf (withComplexity r c)) with (weightOf r).
  destruct (hasError r); [lra|].
  pose proof (weightOf_ge_1 r) as Hw.
  nra.
Qed.

(** A file whose penalized score does not rise cannot raise the overall
    score: its weight and everybody else's contribution stay the same. *)
Lemma score_monotone_of_file
    (before after : list FileMetric) (r : FileMetric) (c c' : Z) :
  penalizedScore (withComplexity r c') <= penalizedScore (withComplexity r c) ->
  calculateMaintainabilityScore (before ++ withComplexity r c' :: after)
  <= calculateMaintainabilityScore (before ++ withComplexity r c :: after).
Proof.
  intros Hp.
  destruct (contribution_monotone r c c' Hp) as [Hcontrib Hshare].
  set (hi := (before ++ withComplexity r c' :: after)%list).
  set (lo := (before ++ withComplexity r c :: after)%list).
  assert (HW : weightSum hi == weightSum lo).
  { unfold hi, lo. rewrite !weightSum_app. simpl. rewrite Hshare.
    reflexivity. }
  assert (HS : scoreSum hi <= scoreSum lo).
  { unfold hi, lo. rewrite !scoreSum_app. simpl. lra. }
  assert (Hhi : hi <> []) by (unfold hi; destruct before; discriminate).
  assert (Hlo : lo <> []) by (unfold lo; destruct before; discriminate).
  destruct (Qlt_le_dec 0 (weightSum lo)) as [Hpos | Hzero].
  - rewrite (score_positive_weight lo Hlo Hpos).
    rewrite (score_positive_weight hi Hhi) by lra.
    rewrite HW. apply div_le_compat; assumption.
  - rewrite (score_no_weight lo Hzero).
    rewrite (score_no_weight hi) by lra. lra.
Qed.

(** With a raw sub-score that is not negative, the same holds from any
    starting complexity, also from below the threshold. *)
Lemma penalizedScore_monotone_nonneg (r : FileMetric) (c c' : Z) :
  0 <= fm_maintainability r -> (c <= c')%Z ->
  penalizedScore (withComplexity r c')
  <= penalizedScore (withComplexity r c).
Proof.
  intros Hraw Hcc'.
  destruct (Z.ltb_spec (maxCyclomatic (complexity config)) c) as [Hc | Hc].
  - apply penalizedScore_monotone; assumption.
  - destruct (Z.ltb_spec (maxCyclomatic (complexity config)) c') as [Hc' | Hc'].
    + apply Qle_trans
        with (penalizedScore (withComplexity r (maxCyclomatic (complexity config) + 1))).
      * apply penalizedScore_monotone; lia.
      * rewrite !penalizedScore_stages.
        assert (B : isComplexFile (withComplexity r c) = false)
          by (apply Z.ltb_ge; exact Hc).
        rewrite B.
        change (isComplexFile
                  (withComplexity r (maxCyclomatic (complexity config) + 1)))
          with true.
        cbn iota.
        change (fm_maintainability (withComplexity r _))
          with (fm_maintainability r).
        assert (H1 : Qmax 0 (fm_maintainability r
                             - p1 (withComplexity r
                                     (maxCyclomatic (complexity config) + 1)))
                     <= fm_maintainability r).
        { change (p1 (withComplexity r
                        (maxCyclomatic (complexity config) + 1))) with 2.
          split_max; lra. }
        destruct (isLargeFile (withComplexity r c)) eqn:B2,
          (0 <? length (complexFunctionsOf (withComplexity r c)))%nat eqn:B3;
          change (isLargeFile
                    (withComplexity r (maxCyclomatic (complexity config) + 1)))
            with (isLargeFile (withComplexity r c));
          change (complexFunctionsOf
                    (withComplexity r (maxCyclomatic (complexity config) + 1)))
            with (complexFunctionsOf (withComplexity r c));
          rewrite ?B2, ?B3; cbn zeta iota;
          change (p2 (withComplexity r _)) with (p2 r);
          change (p3 (withComplexity r _)) with (p3 r);
          try exact H1; repeat apply floor_monotone; exact H1.
    + assert (E : penalizedScore (withComplexity r c')
                  = penalizedScore (withComplexity r c)).
      { rewrite !penalizedScore_stages.
        assert (B : isComplexFile (withComplexity r c) = false)
          by (apply Z.ltb_ge; exact Hc).
        assert (B' : isComplexFile (withComplexity r c') = false)
          by (apply Z.ltb_ge; exact Hc').
        rewrite B, B'. reflexivity. }
      rewrite E. lra.
Qed.

Lemma score_monotone_from_any_complexity
    (before after : list FileMetric) (r : FileMetric) (c c' : Z) :
  0 <= fm_maintainability r -> (c <= c')%Z ->
  calculateMaintainabilityScore (before ++ withComplexity r c' :: after)
  <= calculateMaintainabilityScore (before ++ withComplexity r c :: after).
Proof.
  intros Hraw Hcc'.
  apply score_monotone_of_file.
  apply penalizedScore_monotone_nonneg; assumption.
Qed.

(** C8, as the code has it: raising the cyclomatic complexity of one file,
    everything else unchanged, never raises the overall score when the
    rise starts above the threshold, or when the file's raw sub-score is not
    negative (then also across the threshold). *)
Theorem score_monotone_in_complexity
    (before after : list FileMetric) (r : FileMetric) (c c' : Z) :
  (c <= c')%Z ->
  (maxCyclomatic (complexity config) < c)%Z \/ 0 <= fm_maintainability r ->
  calculateMaintainabilityScore (before ++ withComplexity r c' :: after)
  <= calculateMaintainabilityScore (before ++ withComplexity r c :: after).
Proof.
  intros Hcc' [Hc | Hraw]; apply score_monotone_of_file.
  - apply penalizedScore_monotone; assumption.
  - apply penalizedScore_monotone_nonneg; assumption.
Qed.

Lemma score_monotone_in_complexity_witness :
  calculateMaintainabilityScore ([cleanFile] ++ withComplexity tangledFile 30 :: [])
  <= calculateMaintainabilityScore ([cleanFile] ++ withComplexity tangledFile 5 :: []).
Proof.
  apply (score_monotone_in_complexity [cleanFile] [] tangledFile 5 30).
  - discriminate.
  - right. simpl. lra.
Defined.

(** Across the threshold a negative raw sub-score is lifted to the floor:
    the first penalty raises such a file's score from -5 to 0. *)
Example crossing_with_negative_raw :
  penalizedScore (withComplexity minifiedBundle 10) == -5
  /\ penalizedScore (withComplexity minifiedBundle 11) == 0.
Proof. split; reflexivity. Qed.

(** C8 as stated fails: a file whose raw sub-score is negative gains from
    crossing the threshold, because only the penalty applies the floor; its
    score, and with it the overall score, rises from -5 to 0 when the
    complexity goes from 10 to 11. *)
Lemma crossing_can_raise_the_score :
  hasError minifiedBundle = false
  /\ (fm_complexity (withComplexity minifiedBundle 10)
      <= maxCyclomatic (complexity config)
      < fm_complexity (withComplexity minifiedBundle 11))%Z
  /\ calculateMaintainabilityScore [withComplexity minifiedBundle 10] == -5
  /\ calculateMaintainabilityScore [withComplexity minifiedBundle 11] == 0
  /\ ~ calculateMaintainabilityScore [withComplexity minifiedBundle 11]
       <= calculateMaintainabilityScore [withComplexity minifiedBundle 10].
Proof.
  split; [reflexivity|]. split; [split; [discriminate | reflexivity]|].
  split; [reflexivity|]. split; [reflexivity|].
  intros H. vm_compute in H. apply H. reflexivity.
Qed.

End ScorerFacts.

(** ** Further facts about the scorer *)

Module ScorerMore.

Import Scorer ScorerFacts.
Open Scope Q_scope.

(** *** Grades *)

Lemma geq_true (score t : Q) : geq score t = true <-> t <= score.
Proof. unfold geq. apply Qle_bool_iff. Qed.

Lemma geq_false (score t : Q) : geq score t = false <-> score < t.
Proof.
  unfold geq. split.
  - intros H. apply Qnot_le_lt. intros Hle.
    apply Qle_bool_iff in Hle. congruence.
  - intros H. destruct (Qle_bool t score) eqn:E; [|reflexivity].
    apply Qle_bool_iff in E. lra.
Qed.

Ltac split_geq :=
  repeat match goal with
  | |- context [geq ?s ?t] =>
      let E := fresh "E" in
      destruct (geq s t) eqn:E;
      [apply geq_true in E | apply geq_false in E]
  | H : context [geq ?s ?t] |- _ =>
      let E := fresh "E" in
      destruct (geq s t) eqn:E;
      [apply geq_true in E | apply geq_false in E]
  end.

(** X1: [getGrade] is monotone: a higher score never gets a worse
    grade. *)
Theorem getGrade_monotone (low high : Q) :
  low <= high -> (rank (getGrade low) <= rank (getGrade high))%nat.
Proof.
  intros H. unfold getGrade. cbn [thresholds config excellent good acceptable needsImprovement].
  split_geq; cbn [rank]; try lia; lra.
Qed.

Lemma getGrade_monotone_witness :
  60 <= 90 /\ (rank (getGrade 60) <= rank (getGrade 90))%nat.
Proof.
  assert (H : 60 <= 90) by lra.
  split; [exact H | exact (getGrade_monotone 60 90 H)].
Defined.

Lemma getGrade_acceptable (score : Q) :
  (2 <= rank (getGrade score))%nat <-> acceptable (thresholds config) <= score.
Proof.
  unfold getGrade. cbn [thresholds config excellent good acceptable needsImprovement].
  split_geq; cbn [rank]; split; intros; try lia; try lra.
Qed.

(** *** How a run of the scorer ends *)

Lemma main_analyses (env : Env) (options : Options) :
  helpRequested env = false ->
  analyzerAvailable env = true ->
  filesToAnalyze env options <> [] ->
  let results :=
    map (analyzeFileComplexity env) (filesToAnalyze env options) in
  let score := calculateMaintainabilityScore results in
  let rep := generateReport (runConfig env) results score in
  report (main env options) = Some rep
  /\ exitCode (main env options)
     = (if geq score (effectiveThreshold options) then 0 else 1)%Z
  /\ List.filter (fun e => negb (isPrint e)) (effects (main env options))
     = fst (saveReports env rep options)
  /\ (quiet options = true ->
      effects (main env options) = fst (saveReports env rep options)).
Proof.
  intros Hhelp Havail Hfiles results score rep.
  unfold main, validateToolAvailability. rewrite Hhelp, Havail.
  cbn [negb].
  destruct (filesToAnalyze env options) as [|file files] eqn:E;
    [congruence|].
  cbn [length Nat.eqb]. unfold analyzeFiles, handleFinalResult, handleReports.
  fold results. fold score. fold rep.
  destruct (saveReports env rep options) as [saved [json html]] eqn:Esave.
  cbn [fst snd report exitCode effects].
  split; [reflexivity|]. split; [destruct (geq score _); reflexivity|].
  assert (Hsaved : List.filter (fun e => negb (isPrint e)) saved = saved).
  { unfold saveReports in Esave. injection Esave as <- _ _.
    destruct (outputDirExists env), (wantsHtml options); reflexivity. }
  assert (Hprogress :
    forall l : list string,
      List.filter (fun e => negb (isPrint e))
        (flat_map
           (fun f =>
              if verbose options && negb (quiet options)
              then [Print ("  Analyzing: " ++ relativePath env f)]
              else []) l) = []).
  { intros l. induction l as [|x l IH]; [reflexivity|].
    cbn [flat_map]. rewrite List.filter_app, IH.
    destruct (verbose options && negb (quiet options)); reflexivity. }
  split.
  - rewrite !List.filter_app, Hprogress, Hsaved.
    destruct (quiet options), (geq score (effectiveThreshold options)), html;
      cbn; rewrite ?app_nil_r; reflexivity.
  - intros Hquiet. rewrite Hquiet, andb_false_r. cbn [negb].
    assert (Hnone : forall l : list string,
               flat_map (fun _ : string => @nil Effect) l = []).
    { intros l. induction l as [|x l IH]; [reflexivity | exact IH]. }
    rewrite Hnone. cbn [app]. rewrite !app_nil_r. reflexivity.
Qed.

(** X2: the scorer exits with 0 or 1, and with 1 exactly when it analysed
    at least one file and the overall score lies below the threshold in
    force ([--threshold], else 70); it builds no report exactly when help
    was asked for, the analyzer is missing or no file was found. *)
Theorem scorer_fails_only_below_threshold (env : Env) (options : Options) :
  (exitCode (main env options) = 0%Z \/ exitCode (main env options) = 1%Z)
  /\ (exitCode (main env options) = 1%Z <->
      helpRequested env = false
      /\ analyzerAvailable env = true
      /\ filesToAnalyze env options <> []
      /\ calculateMaintainabilityScore
           (map (analyzeFileComplexity env) (filesToAnalyze env options))
         < effectiveThreshold options)
  /\ (report (main env options) = None <->
      helpRequested env = true
      \/ analyzerAvailable env = false
      \/ filesToAnalyze env options = []).
Proof.
  destruct (helpRequested env) eqn:Hhelp.
  { unfold main. rewrite Hhelp. cbn. repeat split; auto; intuition discriminate. }
  destruct (analyzerAvailable env) eqn:Havail.
  2:{ unfold main, validateToolAvailability. rewrite Hhelp, Havail. cbn.
      repeat split; auto; intuition discriminate. }
  destruct (filesToAnalyze env options) as [|file files] eqn:Hfiles.
  { unfold main, validateToolAvailability. rewrite Hhelp, Havail, Hfiles. cbn.
      repeat split; auto; intuition (discriminate || congruence). }
  assert (Hne : filesToAnalyze env options <> []) by (rewrite Hfiles; discriminate).
  destruct (main_analyses env options Hhelp Havail Hne) as (Hrep & Hexit & _).
  rewrite Hfiles in Hrep, Hexit. rewrite Hrep, Hexit.
  destruct (geq _ (effectiveThreshold options)) eqn:E;
    [apply geq_true in E | apply geq_false in E].
  - split; [now left|]. split.
    + split; [discriminate|]. intros (_ & _ & _ & Hlt).
      exfalso. exact (Qlt_not_le _ _ Hlt E).
    + split; [discriminate|]. intros [H | [H | H]]; discriminate.
  - split; [now right|]. split.
    + split; [|reflexivity]. intros _. repeat split; [discriminate | exact E].
    + split; [discriminate|]. intros [H | [H | H]]; discriminate.
Qed.

Lemma existsb_pushIf (cond : bool) (item : Recommendation)
    (l : list Recommendation) :
  existsb isCritical (pushIf cond item l)
  = existsb isCritical l || (cond && isCritical item).
Proof.
  unfold pushIf. destruct cond; cbn [andb].
  - rewrite existsb_app. cbn. now rewrite orb_false_r.
  - now rewrite orb_false_r.
Qed.

Lemma critical_iff_below (results : list FileMetric) (score : Q) :
  existsb isCritical (generateRecommendations results score) = true
  <-> score < acceptable (thresholds config).
Proof.
  unfold generateRecommendations. cbn zeta. rewrite !existsb_pushIf.
  cbn [isCritical rec_type String.eqb Ascii.eqb Bool.eqb existsb].
  rewrite !andb_false_r, !orb_false_r, andb_true_r. cbn [orb].
  destruct (geq score (acceptable (thresholds config))) eqn:E;
    [apply geq_true in E | apply geq_false in E]; cbn [negb].
  - split; [discriminate | intros H; exfalso; lra].
  - split; [intros _; exact E | reflexivity].
Qed.

(** X3: without [--threshold], the exit status, the grade and the
    recommendations of a report agree: the run succeeds exactly when the
    grade is Acceptable or better, and fails exactly when the report holds
    a critical recommendation. *)
Theorem default_threshold_agrees_with_grade (env : Env) (options : Options) :
  helpRequested env = false ->
  analyzerAvailable env = true ->
  filesToAnalyze env options <> [] ->
  threshold options = None ->
  exists rep,
    report (main env options) = Some rep
    /\ (exitCode (main env options) = 0%Z <-> (2 <= rank (rp_grade rep))%nat)
    /\ (exitCode (main env options) = 1%Z <->
        existsb isCritical (rp_recommendations rep) = true).
Proof.
  intros Hhelp Havail Hfiles Hthreshold.
  destruct (main_analyses env options Hhelp Havail Hfiles) as (Hrep & Hexit & _).
  eexists. split; [exact Hrep|].
  cbn [rp_grade rp_recommendations generateReport].
  rewrite Hexit, getGrade_acceptable, critical_iff_below.
  unfold effectiveThreshold. rewrite Hthreshold.
  destruct (geq _ (acceptable (thresholds config))) eqn:E;
    [apply geq_true in E | apply geq_false in E];
    split; split; intros; try discriminate; try reflexivity; try assumption;
    first [lra | exfalso; lra].
Qed.

(** X4: a run that analyses files always writes the JSON report, after
    creating the output directory when it is missing, and the HTML report
    only for the formats html and both; with [--quiet] nothing is
    printed. *)
Theorem analysed_run_writes_the_json_report (env : Env) (options : Options) :
  helpRequested env = false ->
  analyzerAvailable env = true ->
  filesToAnalyze env options <> [] ->
  exists rep,
    report (main env options) = Some rep
    /\ List.filter (fun e => negb (isPrint e)) (effects (main env options))
       = ((if outputDirExists env then []
           else [Mkdir (outputDir (runConfig env))])
          ++ [WriteJson
                (outputDir (runConfig env) ++ "/maintainability-report.json")
                rep]
          ++ (if wantsHtml options
              then [WriteHtml
                      (outputDir (runConfig env)
                       ++ "/maintainability-report.html") rep]
              else []))%list
    /\ (quiet options = true ->
        List.filter isPrint (effects (main env options)) = []).
Proof.
  intros Hhelp Havail Hfiles.
  destruct (main_analyses env options Hhelp Havail Hfiles)
    as (Hrep & _ & Hsaved & Hquiet).
  eexists. split; [exact Hrep|]. split; [exact Hsaved|].
  intros Hq. rewrite (Hquiet Hq). unfold saveReports. cbn [fst].
  destruct (outputDirExists env), (wantsHtml options); reflexivity.
Qed.

Lemma default_threshold_agrees_with_grade_witness :
  exists rep,
    report (main smallProject defaultOptions) = Some rep
    /\ (exitCode (main smallProject defaultOptions) = 0%Z <->
        (2 <= rank (rp_grade rep))%nat)
    /\ (exitCode (main smallProject defaultOptions) = 1%Z <->
        existsb isCritical (rp_recommendations rep) = true).
Proof.
  apply (default_threshold_agrees_with_grade smallProject defaultOptions);
    [reflexivity | reflexivity | discriminate | reflexivity].
Defined.

Lemma analysed_run_writes_the_json_report_witness :
  exists rep,
    report (main smallProject defaultOptions) = Some rep
    /\ List.filter (fun e => negb (isPrint e))
         (effects (main smallProject defaultOptions))
       = ((if outputDirExists smallProject then []
           else [Mkdir (outputDir (runConfig smallProject))])
          ++ [WriteJson
                (outputDir (runConfig smallProject)
                 ++ "/maintainability-report.json")
                rep]
          ++ (if wantsHtml defaultOptions
              then [WriteHtml
                      (outputDir (runConfig smallProject)
                       ++ "/maintainability-report.html") rep]
              else []))%list
    /\ (quiet defaultOptions = true ->
        List.filter isPrint (effects (main smallProject defaultOptions)) = []).
Proof.
  apply (analysed_run_writes_the_json_report smallProject defaultOptions);
    [reflexivity | reflexivity | discriminate].
Defined.

(** *** When nothing is recommended *)

Lemma pushIf_nil (cond : bool) (item : Recommendation)
    (l : list Recommendation) :
  pushIf cond item l = [] <-> cond = false /\ l = [].
Proof.
  unfold pushIf. destruct cond.
  - split; [|intros [H _]; discriminate H].
    intros H. destruct l; discriminate H.
  - tauto.
Qed.

Lemma pushIf_length (cond : bool) (item : Recommendation)
    (l : list Recommendation) :
  (length (pushIf cond item l) <= S (length l))%nat.
Proof. unfold pushIf. destruct cond; rewrite ?length_app; cbn; lia. Qed.

Lemma no_filter_match {A : Type} (f : A -> bool) (l : list A) :
  (0 <? length (List.filter f l))%nat = false
  <-> Forall (fun x => f x = false) l.
Proof.
  induction l as [|x l IH]; cbn [List.filter].
  - split; [constructor | reflexivity].
  - destruct (f x) eqn:E.
    + split; [discriminate|]. intros H. inversion H; congruence.
    + rewrite IH. split; [now constructor | intros H; now inversion H].
Qed.

Lemma no_flat_match {A B : Type} (g : A -> list B) (l : list A) :
  (0 <? length (flat_map g l))%nat = false
  <-> Forall (fun x => g x = []) l.
Proof.
  induction l as [|x l IH]; cbn [flat_map].
  - split; [constructor | reflexivity].
  - rewrite length_app. destruct (g x) as [|b bs] eqn:E.
    + cbn [length Nat.add]. rewrite IH.
      split; [now constructor | intros H; now inversion H].
    + split; [discriminate|]. intros H. inversion H; congruence.
Qed.

Lemma filter_nil_iff {A : Type} (f : A -> bool) (l : list A) :
  List.filter f l = [] <-> Forall (fun x => f x = false) l.
Proof.
  induction l as [|x l IH]; cbn [List.filter].
  - split; [constructor | reflexivity].
  - destruct (f x) eqn:E.
    + split; [discriminate|]. intros H. inversion H; congruence.
    + rewrite IH. split; [now constructor | intros H; now inversion H].
Qed.

(** X7: the report recommends nothing exactly when the score reaches the
    acceptable threshold and every file and function stays within the
    limits; at most five recommendations are ever given. *)
Theorem nothing_recommended_iff_within_limits
    (results : list FileMetric) (score : Q) :
  (generateRecommendations results score = [] <->
   acceptable (thresholds config) <= score /\ Forall withinLimits results)
  /\ (length (generateRecommendations results score) <= 5)%nat.
Proof.
  unfold generateRecommendations. cbn zeta. split.
  - rewrite !pushIf_nil, !no_filter_match, !no_flat_match.
    rewrite negb_false_iff, geq_true.
    unfold withinLimits, complexFunctionsOf.
    split.
    + intros (Hlong & Hfun & Hlarge & Hcomplex & Hscore & _).
      split; [exact Hscore|].
      rewrite Forall_forall in *. intros r Hr.
      split; [apply Hcomplex, Hr|]. split; [apply Hlarge, Hr|].
      specialize (Hlong r Hr). specialize (Hfun r Hr).
      rewrite filter_nil_iff in Hlong, Hfun.
      rewrite Forall_forall in *. intros f Hf.
      specialize (Hlong f Hf). specialize (Hfun f Hf). cbn beta in *.
      apply Z.ltb_ge in Hlong, Hfun. split; assumption.
    + intros (Hscore & Hall).
      rewrite Forall_forall in Hall.
      repeat split; try assumption; rewrite Forall_forall; intros r Hr;
        destruct (Hall r Hr) as (Hc & Hl & Hf); try assumption;
        rewrite filter_nil_iff, Forall_forall; intros f Hin;
        rewrite Forall_forall in Hf; destruct (Hf f Hin);
        apply Z.ltb_ge; assumption.
  - repeat match goal with
    | |- context [pushIf ?c ?i ?l] =>
        lazymatch l with
        | context [pushIf _ _ _] => fail
        | _ => pose proof (pushIf_length c i l); set (pushIf c i l) in *
        end
    end.
    cbn [length] in *. lia.
Qed.
End ScorerMore.

(** ** Where binary64 parts from the exact reading *)

Module Binary64Facts.

Import Binary64.
Open Scope float_scope.

(** One file of score 60.2 and three lines: the loop returns
    [(60.2 * 3) / 3], which is the next float above 60.2. *)
#[warnings="-inexact-float"]
Example single_file_score_is_rounded :
  penalizedScore shortFile = 60.2
  /\ calculateMaintainabilityScore [shortFile] = 60.20000000000001
  /\ ltb (penalizedScore shortFile) (calculateMaintainabilityScore [shortFile])
     = true.
Proof. repeat split. Qed.

(** The same three files in two orders: the sums round differently. *)
#[warnings="-inexact-float"]
Example score_depends_on_file_order :
  Permutation threeFiles threeFilesSwapped
  /\ calculateMaintainabilityScore threeFiles = 64.56076696165191
  /\ calculateMaintainabilityScore threeFilesSwapped = 64.56076696165192.
Proof.
  split; [apply perm_skip, perm_swap | split; reflexivity].
Qed.

End Binary64Facts.

(** ** Facts about the file discovery *)

Module FileScanFacts.

Import Scorer FileScan.

(** *** Strings as lists of characters *)

Lemma chars_app (a b : string) : chars (a ++ b) = (chars a ++ chars b)%list.
Proof.
  induction a as [|c a IH]; [reflexivity|].
  change (c :: chars (a ++ b) = c :: (chars a ++ chars b)%list).
  now rewrite IH.
Qed.

Lemma append_assoc (a b c : string) : (a ++ b) ++ c = a ++ b ++ c.
Proof.
  induction a as [|x a IH]; [reflexivity|].
  change (String x ((a ++ b) ++ c) = String x (a ++ b ++ c)). now rewrite IH.
Qed.

Lemma chars_cons (c : ascii) (s : string) : chars (String c s) = c :: chars s.
Proof. reflexivity. Qed.

Lemma endsWith_spec (s suffix : string) :
  endsWith s suffix = true -> exists front, s = front ++ suffix.
Proof.
  induction s as [|c s IH]; cbn [endsWith]; intros H.
  - rewrite orb_false_r in H. apply String.eqb_eq in H. subst. now exists "".
  - apply orb_true_iff in H as [H | H].
    + apply String.eqb_eq in H. rewrite H. now exists "".
    + destruct (IH H) as [front ->]. now exists (String c front).
Qed.

(** *** Matching *)

Lemma search_app (re : list Atom) (front s : list ascii) :
  matchHere re s = true -> search re (front ++ s) = true.
Proof.
  intros H. induction front as [|c front IH]; cbn [app].
  - destruct s; cbn [search]; rewrite H; reflexivity.
  - cbn [search]. rewrite IH. apply orb_true_r.
Qed.

Lemma matchHere_star (re : list Atom) (run s : list ascii) :
  Forall (fun c => isSlash c = false) run ->
  matchHere re s = true ->
  matchHere (NotSlashes :: re) (run ++ s) = true.
Proof.
  intros Hrun H. induction Hrun as [|c run Hc _ IH]; cbn [app].
  - destruct s; cbn [matchHere]; rewrite H; reflexivity.
  - cbn [matchHere] in *. rewrite Hc. cbn [negb andb].
    rewrite IH. apply orb_true_r.
Qed.

Lemma matchHere_any (re : list Atom) (c : ascii) (s : list ascii) :
  isLineTerminator c = false ->
  matchHere (AnyChar :: re) (c :: s) = matchHere re s.
Proof. intros H. cbn [matchHere]. now rewrite H. Qed.

Lemma matchHere_lit (re : list Atom) (c : ascii) (s : list ascii) :
  matchHere (Lit c :: re) (c :: s) = matchHere re s.
Proof. cbn [matchHere]. now rewrite Ascii.eqb_refl. Qed.

Lemma matchHere_word (re : list Atom) (word s : list ascii) :
  matchHere (map Lit word ++ re) (word ++ s) = matchHere re s.
Proof.
  induction word as [|c word IH]; [reflexivity|].
  cbn [map app]. rewrite matchHere_lit. exact IH.
Qed.

Lemma matchHere_any_tail (s : list ascii) :
  matchHere [NotSlashes] s = true.
Proof. destruct s; reflexivity. Qed.

(** A line terminator is not a slash. *)
Lemma terminators_not_slash (run : list ascii) :
  Forall (fun c => isLineTerminator c = true) run ->
  Forall (fun c => isSlash c = false) run.
Proof.
  apply List.Forall_impl. intros c H. unfold isLineTerminator, isSlash in *.
  apply orb_true_iff in H as [H | H]; apply Ascii.eqb_eq in H; now subst.
Qed.

(** The last ordinary character of a text. *)
Lemma last_ordinary (s : list ascii) :
  Exists (fun c => isLineTerminator c = false) s ->
  exists front c run,
    s = (front ++ c :: run)%list
    /\ isLineTerminator c = false
    /\ Forall (fun c => isLineTerminator c = true) run.
Proof.
  induction s as [|d s IH]; intros H; [inversion H|].
  assert (Hdec : forall c, {isLineTerminator c = false}
                           + {isLineTerminator c <> false}).
  { intros c. destruct (isLineTerminator c); [right | left]; congruence. }
  destruct (List.Exists_dec (fun c => isLineTerminator c = false) s Hdec)
    as [Hs | Hs].
  - destruct (IH Hs) as (front & c & run & -> & Hc & Hrun).
    now exists (d :: front), c, run.
  - inversion H as [? ? Hd | ? ? Hrest]; subst; [|contradiction].
    exists [], d, s. repeat split; [assumption|].
    apply Forall_forall. intros c Hin.
    destruct (isLineTerminator c) eqn:E; [reflexivity|].
    exfalso. apply Hs. apply Exists_exists. now exists c.
Qed.

(** The shape [x run / stem y word z ...] on which the expression made
    from [**/*.word.*] matches. *)
Lemma glob_word_matches (word : string) (front run stem tail : list ascii)
    (x y z : ascii) :
  isLineTerminator x = false ->
  Forall (fun c => isSlash c = false) run ->
  Forall (fun c => isSlash c = false) stem ->
  isLineTerminator y = false ->
  isLineTerminator z = false ->
  search
    ([AnyChar; NotSlashes; Lit "/"; NotSlashes; AnyChar]
       ++ map Lit (chars word) ++ [AnyChar; NotSlashes])
    (front ++ x :: run ++ "/"%char :: stem ++ y :: chars word ++ z :: tail)
  = true.
Proof.
  intros Hx Hrun Hstem Hy Hz. apply search_app.
  cbn [app]. rewrite (matchHere_any _ x) by assumption.
  apply matchHere_star; [assumption|]. rewrite matchHere_lit.
  apply matchHere_star; [assumption|].
  rewrite (matchHere_any _ y) by assumption.
  rewrite matchHere_word. rewrite (matchHere_any _ z) by assumption.
  apply matchHere_any_tail.
Qed.

Lemma matchesExclude_pattern (pattern p : string) (re : list Atom) :
  In pattern (exclude config) ->
  parseRegex (toRegexSource pattern) = Some re ->
  search re (chars p) = true ->
  matchesExclude p = true.
Proof.
  intros Hin Hre Hsearch. unfold matchesExclude.
  apply existsb_exists. exists pattern. split; [exact Hin|].
  unfold regexTest. now rewrite Hre.
Qed.

(** The last slash of a text that has one. *)
Lemma last_slash (dir rest : list ascii) :
  exists more stem,
    (dir ++ "/"%char :: rest = (dir ++ more) ++ "/"%char :: stem)%list
    /\ Forall (fun c => isSlash c = false) stem.
Proof.
  induction rest as [|c rest IH] using rev_ind.
  - exists [], []. now rewrite app_nil_r.
  - destruct IH as (more & stem & Heq & Hstem).
    destruct (isSlash c) eqn:E.
    + apply Ascii.eqb_eq in E. subst c.
      exists ("/"%char :: rest), []. split; [|constructor].
      now rewrite <- !app_assoc.
    + exists more, (stem ++ [c])%list. split.
      * change (dir ++ "/"%char :: rest ++ [c])%list
          with (dir ++ ("/"%char :: rest) ++ [c])%list.
        rewrite app_assoc, Heq, <- !app_assoc. reflexivity.
      * apply Forall_app. split; [assumption | now constructor].
Qed.


(** Below a directory with an ordinary character in its path, a name in
    which [test] or [spec] stands between two ordinary characters is
    skipped. *)
Lemma word_in_name_is_skipped (word dir rest tail : string) (y z : ascii) :
  isWord word ->
  ordinary dir ->
  isLineTerminator y = false ->
  isLineTerminator z = false ->
  matchesExclude (dir ++ "/" ++ rest ++ String y (word ++ String z tail))
  = true.
Proof.
  intros Hword Hdir Hy Hz.
  destruct (last_slash (chars dir) (chars rest)) as (more & stem & Heq & Hstem).
  assert (Hord : Exists (fun c => isLineTerminator c = false)
                   (chars dir ++ more)).
  { apply Exists_app. now left. }
  destruct (last_ordinary _ Hord) as (front & x & run & Hsplit & Hx & Hrun).
  assert (Hchars :
    chars (dir ++ "/" ++ rest ++ String y (word ++ String z tail))
    = (front ++ x :: run ++ "/"%char :: stem ++ y :: chars word ++ z :: chars tail)%list).
  { rewrite !chars_app. change (chars "/") with ["/"%char].
    rewrite chars_cons, chars_app, chars_cons.
    transitivity ((chars dir ++ "/"%char :: chars rest)
                    ++ y :: chars word ++ z :: chars tail)%list.
    { rewrite <- !app_assoc. reflexivity. }
    rewrite Heq, Hsplit, <- !app_assoc. reflexivity. }
  destruct Hword as [-> | ->].
  - apply (matchesExclude_pattern "**/*.test.*" _
             ([AnyChar; NotSlashes; Lit "/"; NotSlashes; AnyChar]
                ++ map Lit (chars "test") ++ [AnyChar; NotSlashes]));
      [vm_compute; tauto | reflexivity |].
    rewrite Hchars.
    apply glob_word_matches; auto using terminators_not_slash.
  - apply (matchesExclude_pattern "**/*.spec.*" _
             ([AnyChar; NotSlashes; Lit "/"; NotSlashes; AnyChar]
                ++ map Lit (chars "spec") ++ [AnyChar; NotSlashes]));
      [vm_compute; tauto | reflexivity |].
    rewrite Hchars.
    apply glob_word_matches; auto using terminators_not_slash.
Qed.


(** *** The scan *)

Lemma Node_nested_ind (P : Node -> Prop) :
  P File -> P Other -> P Broken -> P (Directory None) ->
  (forall items,
     Forall (fun entry => P (snd entry)) items ->
     P (Directory (Some items))) ->
  forall node, P node.
Proof.
  intros HFile HOther HBroken HNone HSome.
  fix IH 1. intros [ | [items|] | | ]; try assumption.
  apply HSome.
  induction items as [|[name child] rest IHrest]; constructor;
    [apply IH | exact IHrest].
Qed.

Lemma scanDirectory_listing (cwd : string) (options : Options) (dir : string)
    (items : list (string * Node)) (files : list string) :
  scanDirectory cwd options dir (Directory (Some items)) files
  = scanItems cwd options dir items files.
Proof.
  revert files. induction items as [|[item child] rest IH]; intros files;
    [reflexivity|].
  cbn [scanItems]. rewrite <- !IH. reflexivity.
Qed.

Lemma scanItems_broken (cwd : string) (options : Options) (dir : string)
    (before after : list (string * Node)) (name : string)
    (files : list string) :
  scanItems cwd options dir (before ++ (name, Broken) :: after)%list files
  = scanItems cwd options dir before files.
Proof.
  revert files. induction before as [|[item child] before IH]; intros files.
  - reflexivity.
  - cbn [app scanItems]. rewrite !IH. reflexivity.
Qed.

(** X11: an entry on which [statSync] throws ends the scan of its
    directory: the entries listed after it are not looked at. *)
Theorem broken_entry_hides_the_rest (cwd : string) (options : Options) (dir : string)
    (before after : list (string * Node)) (name : string)
    (files : list string) :
  scanDirectory cwd options dir
    (Directory (Some (before ++ (name, Broken) :: after)%list)) files
  = scanDirectory cwd options dir (Directory (Some before)) files.
Proof. rewrite !scanDirectory_listing. apply scanItems_broken. Qed.

(** What was found before stays. *)
Lemma scan_keeps (cwd : string) (options : Options) (node : Node) :
  forall dir files p,
    In p files -> In p (scanDirectory cwd options dir node files).
Proof.
  induction node as [ | | | | items IH] using Node_nested_ind;
    intros dir files p Hp; try exact Hp.
  rewrite scanDirectory_listing. revert files Hp.
  induction IH as [|[name child] rest Hchild _ IHrest]; intros files Hp;
    [exact Hp|].
  cbn [scanItems snd] in *.
  destruct child as [ | listing | | ]; try exact Hp.
  - destruct (shouldIncludeFile cwd options (pathJoin dir name));
      apply IHrest; [apply in_or_app; now left | exact Hp].
  - destruct (shouldSkipPath cwd (pathJoin dir name)); cbn [negb];
      apply IHrest; [exact Hp | now apply Hchild].
  - now apply IHrest.
Qed.

Lemma pathFrom_cons (dir name : string) (segments : list string) :
  pathFrom dir (name :: segments) = pathFrom (pathJoin dir name) segments.
Proof. reflexivity. Qed.

Lemma Found_below (cwd : string) (options : Options) (dir name : string)
    (items : list (string * Node)) (child : Node) (p : string) :
  In (name, child) items ->
  shouldSkipPath cwd (pathJoin dir name) = false ->
  Found cwd options (pathJoin dir name) child p ->
  Found cwd options dir (Directory (Some items)) p.
Proof.
  intros Hin Hskip (segments & Hne & Hloc & -> & Hdesc & Hinc).
  exists (name :: segments). split; [discriminate|].
  split; [now apply Located_below with child|].
  split; [reflexivity|]. split; [|exact Hinc].
  destruct segments as [|s rest]; [congruence|].
  cbn [descends]. rewrite Hskip. exact Hdesc.
Qed.

Lemma Found_file (cwd : string) (options : Options) (dir name : string)
    (items : list (string * Node)) :
  In (name, File) items ->
  shouldIncludeFile cwd options (pathJoin dir name) = true ->
  Found cwd options dir (Directory (Some items)) (pathJoin dir name).
Proof.
  intros Hin Hinc. exists [name]. split; [discriminate|].
  split; [apply Located_below with File; [exact Hin | constructor]|].
  repeat split. exact Hinc.
Qed.

Lemma Found_more (cwd : string) (options : Options) (dir : string)
    (entry : string * Node) (items : list (string * Node)) (p : string) :
  Found cwd options dir (Directory (Some items)) p ->
  Found cwd options dir (Directory (Some (entry :: items))) p.
Proof.
  intros (segments & Hne & Hloc & Hp & Hdesc & Hinc).
  exists segments. repeat split; try assumption.
  inversion Hloc; subst.
  eapply Located_below; [right|]; eassumption.
Qed.

Lemma scan_sound (cwd : string) (options : Options) (node : Node) :
  forall dir files p,
    In p (scanDirectory cwd options dir node files) ->
    In p files \/ Found cwd options dir node p.
Proof.
  induction node as [ | | | | items IH] using Node_nested_ind;
    intros dir files p Hp; try (left; exact Hp).
  rewrite scanDirectory_listing in Hp. revert files Hp.
  induction IH as [|[name child] rest Hchild _ IHrest]; intros files Hp;
    [left; exact Hp|].
  cbn [scanItems snd] in *.
  assert (Hrest : forall found,
            In p (scanItems cwd options dir rest found) ->
            In p found
            \/ Found cwd options dir (Directory (Some ((name, child) :: rest))) p).
  { intros found H. destruct (IHrest found H) as [H' | H'];
      [now left | right; now apply Found_more]. }
  destruct child as [ | listing | | ]; try (left; exact Hp).
  - destruct (shouldIncludeFile cwd options (pathJoin dir name)) eqn:Hinc;
      [|now apply Hrest].
    destruct (Hrest _ Hp) as [H | H]; [|now right].
    apply in_app_or in H as [H | [<- | []]]; [now left|].
    right. apply Found_file; [now left | exact Hinc].
  - destruct (shouldSkipPath cwd (pathJoin dir name)) eqn:Hskip; cbn [negb] in Hp;
      [now apply Hrest|].
    destruct (Hrest _ Hp) as [H | H]; [|now right].
    destruct (Hchild _ _ _ H) as [H' | H']; [now left|].
    right. eapply Found_below; [now left | exact Hskip | exact H'].
  - now apply Hrest.
Qed.

Lemma scanItems_keeps (cwd : string) (options : Options) (dir : string)
    (items : list (string * Node)) (files : list string) (p : string) :
  In p files -> In p (scanItems cwd options dir items files).
Proof.
  rewrite <- scanDirectory_listing. apply scan_keeps.
Qed.

Lemma scan_complete (cwd : string) (options : Options) (node : Node) :
  healthy node = true ->
  forall dir files p,
    Found cwd options dir node p ->
    In p (scanDirectory cwd options dir node files).
Proof.
  induction node as [ | | | | items IH] using Node_nested_ind;
    intros Hhealthy dir files p (segments & Hne & Hloc & Hp & Hdesc & Hinc);
    try (inversion Hloc; subst; congruence).
  rewrite scanDirectory_listing.
  inversion Hloc as [|? name child rest ? Hin Hbelow]; subst.
  clear Hloc Hne. cbn [healthy] in Hhealthy.
  rewrite forallb_forall in Hhealthy. rewrite List.Forall_forall in IH.
  revert files.
  induction items as [|[name' child'] others IHothers]; intros files;
    [destruct Hin|].
  cbn [scanItems].
  assert (Hgood : healthy child' = true).
  { apply (Hhealthy (name', child')). now left. }
  destruct Hin as [Heq | Hin].
  - injection Heq as -> ->.
    destruct rest as [|next rest].
    + inversion Hbelow; subst. cbn [pathFrom fold_left] in Hinc.
      rewrite Hinc. apply scanItems_keeps. apply in_or_app. right. now left.
    + cbn [descends] in Hdesc. apply andb_true_iff in Hdesc as [Hskip Hdesc].
      inversion Hbelow as [|inner ? ? ? ? _ _]; subst. rewrite Hskip.
      apply scanItems_keeps.
      apply (IH (name, Directory (Some inner)));
        [now left | exact Hgood |].
      exists (next :: rest). split; [discriminate|].
      split; [exact Hbelow|]. split; [reflexivity|].
      split; [exact Hdesc | exact Hinc].
  - assert (Hnext : forall found,
              In (pathFrom dir (name :: rest))
                 (scanItems cwd options dir others found)).
    { apply IHothers; [| |exact Hin].
      - intros entry He. apply IH. now right.
      - intros entry He. apply Hhealthy. now right. }
    destruct child' as [ | listing | | ]; [| | |discriminate Hgood].
    + destruct (shouldIncludeFile cwd options (pathJoin dir name')); apply Hnext.
    + destruct (shouldSkipPath cwd (pathJoin dir name')); apply Hnext.
    + apply Hnext.
Qed.

(** X8: the scan returns only files of the tree that [shouldIncludeFile]
    accepts and that lie below no skipped directory; when no entry makes
    [statSync] throw it returns every such file; a missing source directory
    gives no file. *)
Theorem scan_returns_the_eligible_files (cwd sourceDir : string)
    (root : Node) (options : Options) :
  let startDir := pathJoin cwd sourceDir in
  (forall p, In p (getFilesToAnalyze cwd sourceDir (Some root) options) ->
             Found cwd options startDir root p)
  /\ (healthy root = true ->
      forall p, Found cwd options startDir root p ->
                In p (getFilesToAnalyze cwd sourceDir (Some root) options))
  /\ getFilesToAnalyze cwd sourceDir None options = [].
Proof.
  intros startDir. split; [|split; [|reflexivity]].
  - intros p Hp.
    destruct (scan_sound cwd options root startDir [] p Hp) as [[] | H].
    exact H.
  - intros Hhealthy p Hp. now apply scan_complete.
Qed.


Lemma scan_returns_the_eligible_files_witness :
  healthy smallTree = true
  /\ In "/home/ci/shop/src/lib/util.js"
       (getFilesToAnalyze "/home/ci/shop" "src" (Some smallTree)
          defaultOptions).
Proof.
  assert (Hhealthy : healthy smallTree = true) by reflexivity.
  split; [exact Hhealthy|].
  apply (proj1 (proj2 (scan_returns_the_eligible_files
                         "/home/ci/shop" "src" smallTree defaultOptions))
           Hhealthy).
  exists ["lib"; "util.js"]. split; [discriminate|]. split.
  - apply Located_below with (Directory (Some [("util.js", File)]));
      [right; left; reflexivity|].
    apply Located_below with File; [left; reflexivity | constructor].
  - repeat split; reflexivity.
Defined.

(** *** Names the exclude patterns catch *)

Lemma Found_not_skipped (cwd : string) (options : Options) (dir : string)
    (node : Node) (p : string) :
  Found cwd options dir node p -> matchesExclude (pathRelative cwd p) = false.
Proof.
  intros (_ & _ & _ & _ & _ & Hinc). unfold shouldIncludeFile in Hinc.
  cbn zeta in Hinc.
  destruct (negb (Js.includes extensions (extname p))); [discriminate|].
  apply andb_true_iff in Hinc as [_ Hinc]. now apply negb_true_iff in Hinc.
Qed.

Lemma returned_not_skipped (cwd sourceDir : string) (root : option Node)
    (options : Options) (p : string) :
  In p (getFilesToAnalyze cwd sourceDir root options) ->
  matchesExclude (pathRelative cwd p) = false.
Proof.
  destruct root as [root|]; [|intros []].
  intros Hp.
  destruct (scan_sound cwd options root _ [] p Hp) as [[] | H].
  exact (Found_not_skipped _ _ _ _ _ H).
Qed.

(** X10: a file is never returned, whatever the options, when in its
    path relative to the working directory, after a slash, [test] or
    [spec] stands between two characters other than line terminators: the
    dots of the patterns [**/*.test.*] and [**/*.spec.*] match any
    character, and the expressions are not anchored. *)
Theorem names_around_test_or_spec_are_never_analysed
    (cwd sourceDir : string) (root : option Node) (options : Options)
    (p word dir stem tail : string) (y z : ascii) :
  isWord word ->
  ordinary dir ->
  isLineTerminator y = false ->
  isLineTerminator z = false ->
  pathRelative cwd p = dir ++ "/" ++ stem ++ String y (word ++ String z tail) ->
  ~ In p (getFilesToAnalyze cwd sourceDir root options).
Proof.
  intros Hword Hdir Hy Hz Hrel Hin.
  apply returned_not_skipped in Hin. rewrite Hrel in Hin.
  rewrite (word_in_name_is_skipped word dir stem tail y z) in Hin
    by assumption.
  discriminate Hin.
Qed.

Lemma names_around_test_or_spec_are_never_analysed_witness :
  ~ In "/home/ci/shop/src/inspector.ts"
      (getFilesToAnalyze "/home/ci/shop" "src" (Some sampleTree)
         (withIncludeTests true defaultOptions)).
Proof.
  apply (names_around_test_or_spec_are_never_analysed
           "/home/ci/shop" "src" (Some sampleTree)
           (withIncludeTests true defaultOptions)
           "/home/ci/shop/src/inspector.ts"
           "spec" "src" "i" "or.ts" "n" "t").
  - right. reflexivity.
  - apply Exists_cons_hd. reflexivity.
  - reflexivity.
  - reflexivity.
  - reflexivity.
Defined.

Lemma directory_pattern_matches (name front tail : list ascii) (c : ascii) :
  isLineTerminator c = false ->
  search (map Lit name ++ [Lit "/"; AnyChar; NotSlashes])
    (front ++ name ++ "/"%char :: c :: tail) = true.
Proof.
  intros Hc. apply search_app. rewrite matchHere_word, matchHere_lit.
  rewrite matchHere_any by assumption. apply matchHere_any_tail.
Qed.

Lemma directory_name_is_skipped (name front tail : string) (c : ascii) :
  isExcludedDirectory name ->
  isLineTerminator c = false ->
  matchesExclude (front ++ name ++ "/" ++ String c tail) = true.
Proof.
  intros Hname Hc.
  assert (Hchars :
    chars (front ++ name ++ "/" ++ String c tail)
    = (chars front ++ chars name ++ "/"%char :: c :: chars tail)%list).
  { now rewrite !chars_app. }
  assert (Hin : In (name ++ "/**") (exclude config)).
  { unfold isExcludedDirectory in Hname. cbn [In] in Hname.
    decompose [or] Hname; subst; vm_compute; tauto. }
  apply (matchesExclude_pattern (name ++ "/**") _
           (map Lit (chars name) ++ [Lit "/"; AnyChar; NotSlashes]) Hin).
  - unfold isExcludedDirectory in Hname. cbn [In] in Hname.
    decompose [or] Hname; subst; try reflexivity; contradiction.
  - rewrite Hchars. now apply directory_pattern_matches.
Qed.

(** X12: a file is never returned when its path relative to the working
    directory contains [node_modules/], [dist/], [build/], [coverage/] or
    [tests/] followed by a character other than a line terminator, also
    when the name only ends a longer directory name. *)
Theorem paths_through_excluded_names_are_never_analysed
    (cwd sourceDir : string) (root : option Node) (options : Options)
    (p name front tail : string) (c : ascii) :
  isExcludedDirectory name ->
  isLineTerminator c = false ->
  pathRelative cwd p = front ++ name ++ "/" ++ String c tail ->
  ~ In p (getFilesToAnalyze cwd sourceDir root options).
Proof.
  intros Hname Hc Hrel Hin. apply returned_not_skipped in Hin.
  rewrite Hrel in Hin.
  rewrite (directory_name_is_skipped name front tail c) in Hin by assumption.
  discriminate Hin.
Qed.

Lemma paths_through_excluded_names_are_never_analysed_witness :
  ~ In "/home/ci/shop/src/contests/board.ts"
      (getFilesToAnalyze "/home/ci/shop" "src" (Some sampleTree)
         defaultOptions).
Proof.
  apply (paths_through_excluded_names_are_never_analysed
           "/home/ci/shop" "src" (Some sampleTree) defaultOptions
           "/home/ci/shop/src/contests/board.ts"
           "tests" "src/con" "oard.ts" "b").
  - unfold isExcludedDirectory. cbn [In]. tauto.
  - reflexivity.
  - reflexivity.
Defined.

(** *** [--include-tests] *)

Lemma chars_inj (a b : string) : chars a = chars b -> a = b.
Proof.
  intros H. rewrite <- (string_of_list_ascii_of_string a),
    <- (string_of_list_ascii_of_string b).
  unfold chars in H. now rewrite H.
Qed.

(** An ending without a slash, met at the end of [dir/item], lies within
    [item]. *)
Lemma ending_within_item (dir item front ending : string) :
  dir ++ "/" ++ item = front ++ ending ->
  slashFree ending ->
  exists stem, item = stem ++ ending.
Proof.
  intros Heq Hfree. apply (f_equal chars) in Heq.
  rewrite !chars_app in Heq. change (chars "/") with ["/"%char] in Heq.
  cbn [app] in Heq. unfold slashFree in Hfree.
  apply app_eq_app in Heq as [middle [[Hdir Hend] | [Hfront Hitem]]].
  - exfalso. rewrite Hend in Hfree. apply Forall_app in Hfree as [_ Hfree].
    inversion Hfree as [|? ? Hslash _]. discriminate Hslash.
  - destruct middle as [|c middle].
    + exfalso. cbn [app] in Hitem. rewrite <- Hitem in Hfree.
      inversion Hfree as [|? ? Hslash _]. discriminate Hslash.
    + injection Hitem as _ Hitem.
      exists (string_of_list_ascii middle). apply chars_inj.
      rewrite chars_app. unfold chars at 2.
      now rewrite list_ascii_of_string_of_list_ascii.
Qed.

Lemma test_file_is_skipped (dir item : string) :
  ordinary dir ->
  isTestFile (dir ++ "/" ++ item) = true ->
  matchesExclude (dir ++ "/" ++ item) = true.
Proof.
  intros Hdir Htest. unfold isTestFile in Htest.
  apply existsb_exists in Htest as (ending & Hin & Hends).
  apply endsWith_spec in Hends as [front Hfront].
  assert (Hshape : exists word ext,
            isWord word /\ ending = String "." (word ++ String "." ext)).
  { cbn [In] in Hin. unfold isWord.
    decompose [or] Hin; subst; try contradiction;
      [exists "test", "ts" | exists "test", "tsx" | exists "test", "js"
       | exists "test", "jsx" | exists "spec", "ts" | exists "spec", "tsx"
       | exists "spec", "js" | exists "spec", "jsx"]; split; auto. }
  destruct Hshape as (word & ext & Hword & ->).
  assert (Hfree : slashFree (String "." (word ++ String "." ext))).
  { cbn [In] in Hin. unfold slashFree.
    decompose [or] Hin; try contradiction;
      match goal with H : _ = String _ _ |- _ => rewrite <- H end;
      repeat constructor. }
  destruct (ending_within_item dir item front _ Hfront Hfree) as [stem ->].
  apply word_in_name_is_skipped; [exact Hword | exact Hdir | reflexivity..].
Qed.


(** *** Paths made of names *)

Lemma splitSlash_not_nil (s : string) : splitSlash s <> [].
Proof.
  destruct s as [|c s]; cbn [splitSlash]; [discriminate|].
  destruct (Ascii.eqb c "/"); [discriminate|].
  destruct (splitSlash s); discriminate.
Qed.

Lemma splitSlash_app (a b : string) :
  splitSlash (a ++ "/" ++ b) = (splitSlash a ++ splitSlash b)%list.
Proof.
  induction a as [|c a IH]; [reflexivity|].
  change (String c a ++ "/" ++ b) with (String c (a ++ "/" ++ b)).
  cbn [splitSlash]. rewrite IH.
  destruct (Ascii.eqb c "/"); [reflexivity|].
  pose proof (splitSlash_not_nil a) as Hne.
  destruct (splitSlash a) as [|first more]; [congruence | reflexivity].
Qed.

Lemma join_splitSlash (s : string) : Js.join "/" (splitSlash s) = s.
Proof.
  induction s as [|c s IH]; [reflexivity|].
  cbn [splitSlash]. pose proof (splitSlash_not_nil s) as Hne.
  destruct (Ascii.eqb_spec c "/") as [-> | _].
  - destruct (splitSlash s) as [|first more]; [congruence|].
    change (Js.join "/" ("" :: first :: more))
      with ("" ++ "/" ++ Js.join "/" (first :: more)).
    rewrite IH. reflexivity.
  - destruct (splitSlash s) as [|first [|second more]]; [congruence | |];
      rewrite <- IH; reflexivity.
Qed.

Lemma isName_spec (name : string) :
  isName name = true ->
  name <> "" /\ name <> "." /\ name <> ".."
  /\ forallb (fun c => negb (isSlash c)) (chars name) = true.
Proof.
  unfold isName. intros H.
  apply andb_true_iff in H as [H Hfree].
  apply andb_true_iff in H as [H Hdots].
  apply andb_true_iff in H as [Hempty Hdot].
  repeat split; try exact Hfree; intros ->; discriminate.
Qed.

Lemma splitSlash_slashFree (s : string) :
  forallb (fun c => negb (isSlash c)) (chars s) = true ->
  splitSlash s = [s].
Proof.
  induction s as [|c s IH]; [reflexivity|].
  cbn [chars list_ascii_of_string forallb]. intros H.
  apply andb_true_iff in H as [Hc Hs].
  cbn [splitSlash]. unfold isSlash in Hc.
  destruct (Ascii.eqb c "/"); [discriminate|].
  unfold chars in IH. now rewrite (IH Hs).
Qed.

Lemma splitSlash_names (names : list string) :
  names <> [] -> forallb isName names = true ->
  splitSlash (Js.join "/" names) = names.
Proof.
  induction names as [|name [|next rest] IH]; intros Hne Hnames;
    [congruence | |].
  - cbn [forallb] in Hnames. apply andb_true_iff in Hnames as [Hname _].
    apply splitSlash_slashFree. now apply isName_spec.
  - cbn [forallb] in Hnames. apply andb_true_iff in Hnames as [Hname Hrest].
    change (Js.join "/" (name :: next :: rest))
      with (name ++ "/" ++ Js.join "/" (next :: rest)).
    rewrite splitSlash_app, IH by (congruence || exact Hrest).
    rewrite splitSlash_slashFree by now apply isName_spec.
    reflexivity.
Qed.

Lemma keepSegment_name (allow : bool) (kept : list string) (name : string) :
  isName name = true -> keepSegment allow kept name = name :: kept.
Proof.
  intros H. destruct (isName_spec name H) as (Hempty & Hdot & Hdots & _).
  unfold keepSegment.
  apply String.eqb_neq in Hempty, Hdot, Hdots.
  now rewrite Hempty, Hdot, Hdots.
Qed.

Lemma fold_names (allow : bool) (names kept : list string) :
  forallb isName names = true ->
  fold_left (keepSegment allow) names kept = (rev names ++ kept)%list.
Proof.
  revert kept. induction names as [|name rest IH]; intros kept Hnames;
    [reflexivity|].
  cbn [forallb] in Hnames. apply andb_true_iff in Hnames as [Hname Hrest].
  cbn [fold_left rev]. rewrite keepSegment_name, IH by assumption.
  now rewrite <- app_assoc.
Qed.

(** The segments of an absolute path made of names. *)
Lemma fold_render (names : list string) :
  forallb isName names = true ->
  fold_left (keepSegment false) (splitSlash (render names)) [] = rev names.
Proof.
  intros Hnames. unfold render.
  change ("/" ++ Js.join "/" names) with (String "/" (Js.join "/" names)).
  cbn [splitSlash Ascii.eqb Bool.eqb fold_left].
  change (keepSegment false [] "") with (@nil string).
  destruct names as [|name rest]; [reflexivity|].
  rewrite splitSlash_names by (congruence || exact Hnames).
  rewrite fold_names by exact Hnames. apply app_nil_r.
Qed.

Lemma normalizeSegments_render (names : list string) :
  forallb isName names = true ->
  normalizeSegments false (render names) = names.
Proof.
  intros H. unfold normalizeSegments. rewrite fold_render by exact H.
  apply rev_involutive.
Qed.

(** What [normalizeString] keeps of an absolute path are names. *)
Lemma splitSlash_free (s : string) :
  Forall (fun segment =>
            forallb (fun c => negb (isSlash c)) (chars segment) = true)
    (splitSlash s).
Proof.
  induction s as [|c s IH]; [repeat constructor|].
  cbn [splitSlash]. destruct (Ascii.eqb c "/") eqn:Hc.
  - constructor; [reflexivity | exact IH].
  - destruct (splitSlash s) as [|first more]; [repeat constructor|].
    + cbn. unfold isSlash. now rewrite Hc.
    + inversion IH as [|? ? Hfirst Hmore]; subst.
      constructor; [|exact Hmore].
      cbn [chars list_ascii_of_string forallb]. unfold isSlash at 1.
      rewrite Hc. exact Hfirst.
Qed.

Lemma keepSegment_names (kept : list string) (segment : string) :
  forallb isName kept = true ->
  forallb (fun c => negb (isSlash c)) (chars segment) = true ->
  forallb isName (keepSegment false kept segment) = true.
Proof.
  intros Hkept Hfree. unfold keepSegment.
  destruct (String.eqb_spec segment "") as [-> | Hempty]; [exact Hkept|].
  destruct (String.eqb_spec segment ".") as [-> | Hdot]; [exact Hkept|].
  cbn [orb].
  destruct (String.eqb_spec segment "..") as [-> | Hdots].
  - destruct kept as [|last before]; [reflexivity|].
    destruct (String.eqb last ".."); [exact Hkept|].
    cbn [forallb] in Hkept. now apply andb_true_iff in Hkept as [_ H].
  - cbn [forallb]. rewrite Hkept, andb_true_r. unfold isName.
    apply String.eqb_neq in Hempty, Hdot, Hdots.
    now rewrite Hempty, Hdot, Hdots, Hfree.
Qed.

Lemma normalizeSegments_names (p : string) :
  forallb isName (normalizeSegments false p) = true.
Proof.
  unfold normalizeSegments.
  assert (H : forall segments kept,
             Forall (fun segment =>
                       forallb (fun c => negb (isSlash c)) (chars segment)
                       = true) segments ->
             forallb isName kept = true ->
             forallb isName (fold_left (keepSegment false) segments kept)
             = true).
  { induction segments as [|segment rest IH]; intros kept Hfree Hkept;
      [exact Hkept|].
    inversion Hfree as [|? ? Hsegment Hrest]; subst.
    cbn [fold_left]. apply IH; [exact Hrest|].
    now apply keepSegment_names. }
  specialize (H (splitSlash p) [] (splitSlash_free p) eq_refl).
  apply forallb_forall. intros name Hin. apply in_rev in Hin.
  rewrite forallb_forall in H. now apply H.
Qed.

Lemma join_app (a b : list string) :
  a <> [] -> b <> [] ->
  Js.join "/" (a ++ b) = Js.join "/" a ++ "/" ++ Js.join "/" b.
Proof.
  intros Ha Hb. induction a as [|x [|y a] IH]; [congruence | |].
  - destruct b as [|z b]; [congruence | reflexivity].
  - change (Js.join "/" ((x :: y :: a) ++ b))
      with (x ++ "/" ++ Js.join "/" ((y :: a) ++ b)).
    rewrite IH by congruence.
    change (Js.join "/" (x :: y :: a)) with (x ++ "/" ++ Js.join "/" (y :: a)).
    now rewrite !append_assoc.
Qed.

Lemma join_names_not_empty (names : list string) :
  names <> [] -> forallb isName names = true -> Js.join "/" names <> "".
Proof.
  destruct names as [|name rest]; [congruence|]. intros _ Hnames.
  cbn [forallb] in Hnames. apply andb_true_iff in Hnames as [Hname _].
  destruct (isName_spec name Hname) as (Hempty & _).
  destruct name as [|c name]; [congruence|].
  destruct rest; discriminate.
Qed.

Lemma endsInSlash_app (a b : string) :
  b <> "" -> endsInSlash (a ++ b) = endsInSlash b.
Proof.
  intros Hb. induction a as [|c a IH]; [reflexivity|].
  change (String c a ++ b) with (String c (a ++ b)).
  cbn [endsInSlash]. destruct (a ++ b) eqn:E; [|exact IH].
  destruct a; [change (b = "") in E; congruence | discriminate E].
Qed.

Lemma endsInSlash_free (s : string) :
  forallb (fun c => negb (isSlash c)) (chars s) = true ->
  endsInSlash s = false.
Proof.
  induction s as [|c s IH]; [reflexivity|].
  cbn [chars list_ascii_of_string forallb]. intros H.
  apply andb_true_iff in H as [Hc Hs]. cbn [endsInSlash].
  destruct s as [|d s]; [|now apply IH].
  unfold isSlash in Hc. now destruct (Ascii.eqb c "/").
Qed.

Lemma endsInSlash_names (names : list string) :
  names <> [] -> forallb isName names = true ->
  endsInSlash (Js.join "/" names) = false.
Proof.
  induction names as [|name [|next rest] IH]; intros Hne Hnames;
    [congruence | |].
  - cbn [forallb] in Hnames. apply andb_true_iff in Hnames as [Hname _].
    apply endsInSlash_free. now apply isName_spec.
  - cbn [forallb] in Hnames. apply andb_true_iff in Hnames as [_ Hrest].
    change (Js.join "/" (name :: next :: rest))
      with (name ++ "/" ++ Js.join "/" (next :: rest)).
    rewrite <- append_assoc.
    rewrite endsInSlash_app
      by (apply join_names_not_empty; [congruence | exact Hrest]).
    apply IH; [congruence | exact Hrest].
Qed.

(** Joining names to an absolute path made of names appends them. *)
Lemma pathJoin_names (dir more : list string) :
  forallb isName dir = true -> forallb isName more = true -> more <> [] ->
  pathJoin (render dir) (Js.join "/" more) = render (dir ++ more).
Proof.
  intros Hdir Hmore Hne.
  pose proof (join_names_not_empty more Hne Hmore) as Hjoined.
  assert (Hall : forallb isName (dir ++ more) = true)
    by (rewrite forallb_app, Hdir, Hmore; reflexivity).
  assert (Hnonempty : Js.join "/" (dir ++ more) <> "").
  { apply join_names_not_empty; [|exact Hall].
    destruct dir; [exact Hne | discriminate]. }
  unfold pathJoin. cbn zeta.
  apply String.eqb_neq in Hjoined. rewrite Hjoined.
  change (String.eqb (render dir) "") with false. cbn match.
  change (render dir ++ "/" ++ Js.join "/" more)
    with (String "/" (Js.join "/" dir ++ "/" ++ Js.join "/" more)).
  unfold normalize. cbn zeta.
  change (String.eqb (String "/" ?s) "") with false.
  cbn match.
  assert (Habs : String.prefix "/"
                   (String "/" (Js.join "/" dir ++ "/" ++ Js.join "/" more))
                 = true).
  { cbn. now destruct (Js.join "/" dir ++ "/" ++ Js.join "/" more). }
  rewrite Habs. cbn [negb].
  assert (Hsegments :
    normalizeString false
      (String "/" (Js.join "/" dir ++ "/" ++ Js.join "/" more))
    = Js.join "/" (dir ++ more)).
  { unfold normalizeString, normalizeSegments. f_equal.
    change (String "/" (Js.join "/" dir ++ "/" ++ Js.join "/" more))
      with (render dir ++ "/" ++ Js.join "/" more).
    rewrite splitSlash_app, fold_left_app, fold_render by exact Hdir.
    rewrite splitSlash_names, fold_names by assumption.
    now rewrite rev_app_distr, !rev_involutive. }
  rewrite Hsegments. apply String.eqb_neq in Hnonempty. rewrite Hnonempty.
  assert (Htrail :
    endsInSlash (String "/" (Js.join "/" dir ++ "/" ++ Js.join "/" more))
    = false).
  { change (String "/" (Js.join "/" dir ++ "/" ++ Js.join "/" more))
      with (("/" ++ Js.join "/" dir) ++ "/" ++ Js.join "/" more).
    rewrite endsInSlash_app by discriminate.
    rewrite endsInSlash_app by now apply String.eqb_neq.
    now apply endsInSlash_names. }
  rewrite Htrail. reflexivity.
Qed.

Lemma dropCommon_prefix (shared rest : list string) :
  dropCommon shared (shared ++ rest) = ([], rest).
Proof.
  induction shared as [|name shared IH]; [now destruct rest|].
  cbn [app dropCommon]. now rewrite String.eqb_refl.
Qed.

(** Seen from an absolute path made of names, what lies below it is the
    names that follow. *)
Lemma pathRelative_below (base rest : list string) :
  forallb isName base = true -> forallb isName rest = true ->
  pathRelative (render base) (render (base ++ rest)) = Js.join "/" rest.
Proof.
  intros Hbase Hrest. unfold pathRelative.
  rewrite !normalizeSegments_render
    by (rewrite ?forallb_app, ?Hbase, ?Hrest; reflexivity).
  now rewrite dropCommon_prefix.
Qed.

(** *** The scan below the working directory *)

Section BelowTheWorkingDirectory.

(** [base] are the names of the working directory, [below] the names
    that lead from there to the directory being scanned. *)
Variable base : list string.
Hypothesis base_names : forallb isName base = true.

Lemma ordinary_below (below : list string) (name : string) :
  below <> [] -> ordinary (Js.join "/" below) ->
  ordinary (Js.join "/" (below ++ [name])).
Proof.
  intros Hne Hord. rewrite join_app by (congruence || discriminate).
  unfold ordinary. rewrite chars_app. apply Exists_app. now left.
Qed.

Lemma entry_below (below : list string) (name : string) :
  forallb isName below = true -> below <> [] -> isName name = true ->
  pathJoin (render (base ++ below)) name
  = render (base ++ below ++ [name])
  /\ pathRelative (render base) (pathJoin (render (base ++ below)) name)
     = Js.join "/" below ++ "/" ++ name
  /\ forallb isName (below ++ [name]) = true.
Proof.
  intros Hbelow Hne Hname.
  assert (Hjoin : pathJoin (render (base ++ below)) name
                  = render (base ++ below ++ [name])).
  { rewrite (List.app_assoc base).
    apply (pathJoin_names (base ++ below) [name]).
    - rewrite forallb_app, base_names, Hbelow. reflexivity.
    - cbn [forallb]. now rewrite Hname.
    - discriminate. }
  assert (Hnames : forallb isName (below ++ [name]) = true).
  { rewrite forallb_app, Hbelow. cbn [forallb]. now rewrite Hname. }
  split; [exact Hjoin|]. split; [|exact Hnames].
  rewrite Hjoin, pathRelative_below by assumption.
  apply join_app; [exact Hne | discriminate].
Qed.

Lemma include_ignores_options (o1 o2 : Options) (below : list string)
    (name : string) :
  forallb isName below = true -> below <> [] ->
  ordinary (Js.join "/" below) -> isName name = true ->
  let fullPath := pathJoin (render (base ++ below)) name in
  shouldIncludeFile (render base) o1 fullPath
  = shouldIncludeFile (render base) o2 fullPath
  /\ (shouldIncludeFile (render base) o1 fullPath = true ->
      isTestFile (pathRelative (render base) fullPath) = false).
Proof.
  intros Hbelow Hne Hord Hname fullPath.
  destruct (entry_below below name Hbelow Hne Hname) as (_ & Hrel & _).
  fold fullPath in Hrel.
  unfold shouldIncludeFile, shouldSkipPath. cbn zeta.
  destruct (negb (Js.includes extensions (extname fullPath)));
    [split; [reflexivity | discriminate]|].
  rewrite Hrel.
  destruct (isTestFile (Js.join "/" below ++ "/" ++ name)) eqn:Htest.
  - rewrite (test_file_is_skipped _ name Hord Htest).
    rewrite !andb_false_r. split; [reflexivity | discriminate].
  - split; reflexivity.
Qed.

Lemma scan_ignores_options (o1 o2 : Options) (node : Node) :
  named node = true ->
  forall below files,
    forallb isName below = true -> below <> [] ->
    ordinary (Js.join "/" below) ->
    scanDirectory (render base) o1 (render (base ++ below)) node files
    = scanDirectory (render base) o2 (render (base ++ below)) node files.
Proof.
  induction node as [ | | | | items IH] using Node_nested_ind;
    intros Hnamed below files Hbelow Hne Hord; try reflexivity.
  rewrite !scanDirectory_listing. revert files.
  cbn [named] in Hnamed.
  induction IH as [|[name child] rest Hchild _ IHrest]; intros files;
    [reflexivity|].
  cbn [forallb fst snd] in Hnamed.
  apply andb_true_iff in Hnamed as [Hentry Hothers].
  apply andb_true_iff in Hentry as [Hname Hnamedchild].
  specialize (IHrest Hothers).
  cbn [scanItems snd] in *.
  destruct (entry_below below name Hbelow Hne Hname) as (Hjoin & _ & Hnames).
  destruct child as [ | listing | | ]; try reflexivity.
  - destruct (include_ignores_options o1 o2 below name Hbelow Hne Hord Hname)
      as [-> _].
    destruct (shouldIncludeFile (render base) o2
                (pathJoin (render (base ++ below)) name)); apply IHrest.
  - destruct (shouldSkipPath (render base)
                (pathJoin (render (base ++ below)) name)); cbn [negb];
      [apply IHrest|].
    rewrite Hjoin.
    rewrite (Hchild Hnamedchild (below ++ [name])%list files Hnames)
      by (try (now destruct below); now apply ordinary_below).
    apply IHrest.
  - apply IHrest.
Qed.

Lemma scan_holds_no_test_file (options : Options) (node : Node) :
  named node = true ->
  forall below files,
    forallb isName below = true -> below <> [] ->
    ordinary (Js.join "/" below) ->
    Forall (fun p => isTestFile (pathRelative (render base) p) = false)
      files ->
    Forall (fun p => isTestFile (pathRelative (render base) p) = false)
      (scanDirectory (render base) options (render (base ++ below)) node
         files).
Proof.
  induction node as [ | | | | items IH] using Node_nested_ind;
    intros Hnamed below files Hbelow Hne Hord Hfiles; try exact Hfiles.
  rewrite !scanDirectory_listing. revert files Hfiles.
  cbn [named] in Hnamed.
  induction IH as [|[name child] rest Hchild _ IHrest]; intros files Hfiles;
    [exact Hfiles|].
  cbn [forallb fst snd] in Hnamed.
  apply andb_true_iff in Hnamed as [Hentry Hothers].
  apply andb_true_iff in Hentry as [Hname Hnamedchild].
  specialize (IHrest Hothers).
  cbn [scanItems snd] in *.
  destruct (entry_below below name Hbelow Hne Hname) as (Hjoin & _ & Hnames).
  destruct child as [ | listing | | ]; try exact Hfiles.
  - destruct (shouldIncludeFile (render base) options
                (pathJoin (render (base ++ below)) name)) eqn:Hinc;
      apply IHrest; [|exact Hfiles].
    apply Forall_app. split; [exact Hfiles|]. constructor; [|constructor].
    now apply (include_ignores_options options options below name).
  - destruct (shouldSkipPath (render base)
                (pathJoin (render (base ++ below)) name)); cbn [negb];
      apply IHrest; [exact Hfiles|].
    rewrite Hjoin.
    apply Hchild; try assumption;
      [now destruct below | now apply ordinary_below].
  - now apply IHrest.
Qed.

End BelowTheWorkingDirectory.

(** X9: [--include-tests] changes nothing when the source directory is
    given as names joined by slashes, as the default [src] is, below a
    working directory in normal form: every file the scan meets then has a
    directory part in its path relative to the working directory, so the
    patterns [**/*.test.*] and [**/*.spec.*] skip every test file anyway;
    the scan returns the same files, none of them a test file, and the
    whole run ends the same. *)
Theorem include_tests_changes_nothing (cwd sourceDir : string)
    (root : option Node) (options : Options) (value : bool) (env : Env) :
  pathResolve cwd = cwd ->
  isPlainPath sourceDir = true ->
  ordinary sourceDir ->
  (forall node, root = Some node -> named node = true) ->
  filesToAnalyze env = getFilesToAnalyze cwd sourceDir root ->
  getFilesToAnalyze cwd sourceDir root (withIncludeTests value options)
  = getFilesToAnalyze cwd sourceDir root options
  /\ Forall (fun p => isTestFile (pathRelative cwd p) = false)
       (getFilesToAnalyze cwd sourceDir root options)
  /\ main env (withIncludeTests value options) = main env options.
Proof.
  intros Hcwd Hplain Hord Hnamed Henv.
  pose proof (normalizeSegments_names cwd) as Hbase.
  set (base := normalizeSegments false cwd) in *.
  assert (Hrender : cwd = render base) by (symmetry; exact Hcwd).
  clearbody base. subst cwd. clear Hcwd.
  set (below := splitSlash sourceDir).
  assert (Hbelow : forallb isName below = true) by exact Hplain.
  assert (Hne : below <> []) by apply splitSlash_not_nil.
  assert (Hsource : sourceDir = Js.join "/" below)
    by (symmetry; apply join_splitSlash).
  assert (Hstart : pathJoin (render base) sourceDir = render (base ++ below)).
  { rewrite Hsource at 1. now apply pathJoin_names. }
  rewrite Hsource in Hord.
  assert (Hsame : getFilesToAnalyze (render base) sourceDir root
                    (withIncludeTests value options)
                  = getFilesToAnalyze (render base) sourceDir root options).
  { destruct root as [root|]; [|reflexivity].
    unfold getFilesToAnalyze. cbn zeta. rewrite Hstart.
    apply scan_ignores_options; auto. }
  split; [exact Hsame|]. split.
  - destruct root as [root|]; [|constructor].
    unfold getFilesToAnalyze. cbn zeta. rewrite Hstart.
    apply scan_holds_no_test_file; auto.
  - unfold main, analyzeFiles, handleReports, handleFinalResult, saveReports,
      effectiveThreshold, wantsHtml.
    rewrite Henv, Hsame. reflexivity.
Qed.

Lemma include_tests_changes_nothing_witness :
  getFilesToAnalyze "/home/ci/shop" "src" (Some sampleTree)
    (withIncludeTests true defaultOptions)
  = getFilesToAnalyze "/home/ci/shop" "src" (Some sampleTree) defaultOptions
  /\ Forall (fun p => isTestFile (pathRelative "/home/ci/shop" p) = false)
       (getFilesToAnalyze "/home/ci/shop" "src" (Some sampleTree)
          defaultOptions)
  /\ main (scanned "/home/ci/shop" "src" (Some sampleTree))
       (withIncludeTests true defaultOptions)
     = main (scanned "/home/ci/shop" "src" (Some sampleTree)) defaultOptions.
Proof.
  apply (include_tests_changes_nothing "/home/ci/shop" "src"
           (Some sampleTree) defaultOptions
           true (scanned "/home/ci/shop" "src" (Some sampleTree))).
  - reflexivity.
  - reflexivity.
  - apply Exists_cons_hd. reflexivity.
  - intros node H. injection H as <-. reflexivity.
  - reflexivity.
Defined.

(** Started at the working directory itself, the scan meets files whose
    relative path is a bare name; the patterns need a slash, and
    [--include-tests] decides. *)
Example include_tests_matters_at_the_working_directory :
  isPlainPath "." = false
  /\ In "/home/ci/shop/app.test.ts"
       (getFilesToAnalyze "/home/ci/shop" "." (Some sampleTree)
          (withIncludeTests true defaultOptions))
  /\ ~ In "/home/ci/shop/app.test.ts"
         (getFilesToAnalyze "/home/ci/shop" "." (Some sampleTree)
            defaultOptions).
Proof.
  split; [reflexivity|]. split.
  - vm_compute. tauto.
  - vm_compute. intuition discriminate.
Qed.

(** *** Extensions *)

Lemma fromLast_suffix (c : ascii) (s found : string) :
  fromLast c s = Some found -> exists front, s = front ++ found.
Proof.
  revert found. induction s as [|d s IH]; intros found; cbn [fromLast];
    [discriminate|].
  destruct (fromLast c s) as [inner|].
  - intros H. injection H as <-. destruct (IH inner eq_refl) as [front ->].
    now exists (String d front).
  - destruct (Ascii.eqb d c); [|discriminate].
    intros H. injection H as <-. now exists "".
Qed.

Lemma basename_suffix (p : string) : exists front, p = front ++ basename p.
Proof.
  unfold basename. destruct (fromLast "/" p) as [[|c base]|] eqn:E;
    try (now exists "").
  destruct (fromLast_suffix _ _ _ E) as [front ->].
  exists (front ++ String c ""). now rewrite append_assoc.
Qed.

Lemma extname_suffix (p : string) :
  extname p <> "" -> exists stem, p = stem ++ extname p.
Proof.
  unfold extname. cbn zeta.
  destruct (fromLast "." (basename p)) as [ext|] eqn:E; [|congruence].
  destruct (_ || _); [congruence|]. intros _.
  destruct (fromLast_suffix _ _ _ E) as [front Hbase].
  destruct (basename_suffix p) as [dir Hp].
  exists (dir ++ front). now rewrite append_assoc, <- Hbase.
Qed.

(** X22: every path the scan returns ends in [.ts], [.tsx], [.js] or
    [.jsx]. *)
Theorem returned_files_have_a_source_extension (cwd sourceDir : string)
    (root : option Node) (options : Options) (p : string) :
  In p (getFilesToAnalyze cwd sourceDir root options) ->
  exists stem ext,
    p = stem ++ ext /\ In ext [".ts"; ".tsx"; ".js"; ".jsx"].
Proof.
  intros Hp. destruct root as [root|]; [|destruct Hp].
  destruct (scan_sound cwd options root _ [] p Hp) as [[] | Hfound].
  destruct Hfound as (_ & _ & _ & _ & _ & Hinc).
  unfold shouldIncludeFile in Hinc. cbn zeta in Hinc.
  unfold Js.includes in Hinc.
  destruct (existsb (String.eqb (extname p)) extensions) eqn:Hext;
    [|discriminate Hinc].
  apply existsb_exists in Hext as (ext & Hin & Heq).
  apply String.eqb_eq in Heq.
  assert (Hne : extname p <> "").
  { rewrite Heq. clear Heq. cbn [extensions In] in Hin.
    destruct Hin as [<- | [<- | [<- | [<- | []]]]]; discriminate. }
  destruct (extname_suffix p Hne) as [stem Hstem].
  exists stem, ext. split; [now rewrite <- Heq | exact Hin].
Qed.

Lemma returned_files_have_a_source_extension_witness :
  exists stem ext,
    "/home/ci/shop/src/lib/util.js" = stem ++ ext
    /\ In ext [".ts"; ".tsx"; ".js"; ".jsx"].
Proof.
  apply (returned_files_have_a_source_extension "/home/ci/shop" "src"
           (Some smallTree) defaultOptions "/home/ci/shop/src/lib/util.js").
  vm_compute. tauto.
Defined.

End FileScanFacts.

(** ** The orchestrator *)

Module RunnerFacts.

Import Runner.

(** *** Steps of the monad *)

Lemma extend_nil (s : State) : extend s [] = s.
Proof. destruct s. unfold extend. cbn. now rewrite app_nil_r. Qed.

Lemma extend_extend (s : State) (xs ys : list Event) :
  extend (extend s xs) ys = extend s (xs ++ ys).
Proof. unfold extend. cbn. now rewrite app_assoc. Qed.

Lemma steps_ret {A : Type} (a : A) (s : State) : steps (mret a) s a [].
Proof. unfold steps. now rewrite extend_nil. Qed.

Lemma steps_bind {A B : Type} (m : M A) (f : A -> M B) (s : State)
    (a : A) (b : B) (xs ys : list Event) :
  steps m s a xs -> steps (f a) (extend s xs) b ys ->
  steps (m ≫= f) s b (xs ++ ys).
Proof.
  unfold steps, mbind, M_bind. intros -> ->. now rewrite extend_extend.
Qed.

Lemma steps_emit (e : Event) (s : State) : steps (emit e) s tt [e].
Proof. reflexivity. Qed.

Lemma steps_await (W : World) (cmd : string) (argv : list string) (s : State) :
  steps (await W cmd argv) s (child W (trace s) cmd argv)
    [endingOf cmd argv (child W (trace s) cmd argv)].
Proof. reflexivity. Qed.

Lemma steps_spawned (W : World) (cmd : string) (argv : list string)
    (s : State) :
  steps (spawned W cmd argv) s
    (child W (trace s ++ [Spawn cmd argv]) cmd argv)
    [Spawn cmd argv;
     endingOf cmd argv (child W (trace s ++ [Spawn cmd argv]) cmd argv)].
Proof.
  unfold spawned.
  apply (steps_bind _ _ s tt _ [Spawn cmd argv] [_]);
    [apply steps_emit | apply steps_await].
Qed.

(** *** Sequential traces *)

Lemma Sequential_app ok (xs ys : list Event) :
  Sequential ok xs -> Sequential ok ys -> Sequential ok (xs ++ ys)%list.
Proof. induction 1; cbn; intros; try constructor; auto. Qed.

Lemma Sequential_weaken (ok ok' : string -> list string -> Prop)
    (events : list Event) :
  (forall cmd argv, ok cmd argv -> ok' cmd argv) ->
  Sequential ok events -> Sequential ok' events.
Proof. intros H. induction 1; constructor; auto. Qed.

Section Sequentially.

Variable sd : string.
Variable ok : string -> list string -> Prop.

Lemma seq_ret {A : Type} (a : A) : sequentially sd ok (mret a).
Proof.
  intros s _. exists a, []. split; [apply steps_ret | constructor].
Qed.

Lemma seq_bind {A B : Type} (m : M A) (f : A -> M B) :
  sequentially sd ok m -> (forall a, sequentially sd ok (f a)) ->
  sequentially sd ok (m ≫= f).
Proof.
  intros Hm Hf s Hs.
  destruct (Hm s Hs) as (a & xs & Hsteps & Hxs).
  destruct (Hf a (extend s xs) Hs) as (b & ys & Hsteps' & Hys).
  exists b, (xs ++ ys)%list. split.
  - eapply steps_bind; eassumption.
  - apply Sequential_app; assumption.
Qed.

Lemma seq_log (line : string) : sequentially sd ok (log line).
Proof.
  intros s _. exists tt, [Log line].
  split; [apply steps_emit | repeat constructor].
Qed.

Lemma seq_when (cond : bool) (m : M unit) :
  sequentially sd ok m -> sequentially sd ok (when cond m).
Proof. intros H. destruct cond; [exact H | apply seq_ret]. Qed.

Lemma seq_getSourceDir {B : Type} (f : string -> M B) :
  sequentially sd ok (f sd) -> sequentially sd ok (getSourceDir ≫= f).
Proof.
  intros H s Hs. destruct (H s Hs) as (b & ys & Hsteps & Hys).
  exists b, ys. split; [|exact Hys].
  unfold steps, mbind, M_bind, getSourceDir. rewrite Hs. exact Hsteps.
Qed.

Lemma seq_getProjectName {B : Type} (f : string -> M B) :
  (forall name, sequentially sd ok (f name)) ->
  sequentially sd ok (getProjectName ≫= f).
Proof.
  intros H s Hs. destruct (H (PROJECT_NAME s) s Hs) as (b & ys & Hsteps & Hys).
  exists b, ys. split; [|exact Hys]. exact Hsteps.
Qed.

Lemma seq_spawned (W : World) (cmd : string) (argv : list string) :
  ok cmd argv -> sequentially sd ok (spawned W cmd argv).
Proof.
  intros Hok s _. eexists _, _. split; [apply steps_spawned|].
  destruct (child W _ cmd argv); cbn [endingOf];
    constructor; (assumption || constructor).
Qed.

Lemma seq_mapM {A B : Type} (f : A -> M B) (l : list A) :
  (forall x, In x l -> sequentially sd ok (f x)) ->
  sequentially sd ok (mapM f l).
Proof.
  induction l as [|x l IH]; intros H; cbn [mapM].
  - apply seq_ret.
  - apply seq_bind; [apply H; now left|]. intros y.
    apply seq_bind; [apply IH; intros z Hz; apply H; now right|].
    intros ys. apply seq_ret.
Qed.

End Sequentially.

Ltac seq_auto :=
  repeat first
    [ apply seq_ret
    | apply seq_log
    | apply seq_when
    | apply seq_getSourceDir
    | apply seq_getProjectName; intros ?
    | apply seq_mapM; intros ? _
    | apply seq_bind; [|intros ?] ].

Lemma seq_runTool (W : World) (sd : string) (toolName : string)
    (options : Options) :
  sequentially sd (commandOf toolName (fix_ options) sd)
    (runTool W toolName options).
Proof.
  unfold runTool, checkToolAvailability.
  destruct (tools !! toolName) as [t|] eqn:Hlook.
  - apply seq_bind.
    + apply seq_bind; [|intros ?; apply seq_ret].
      apply seq_spawned. exists t. split; [exact Hlook|]. left.
      now destruct (probeCommand t).
    + intros isAvailable. destruct (negb isAvailable).
      * unfold notInstalled, printMessage. seq_auto.
      * apply seq_getSourceDir. 
        apply seq_bind; [unfold announce, printMessage; seq_auto|].
        intros _. apply seq_bind.
        -- apply seq_spawned. exists t. split; [exact Hlook|]. right. reflexivity.
        -- intros outcome. unfold settle, printMessage.
           destruct outcome as [code out ms | message];
             [destruct (code =? 0)%Z; [|destruct (negb (quiet options))]|];
             seq_auto.
  - unfold printMessage. seq_auto.
Qed.

Lemma seq_weaken {A : Type} (sd : string)
    (ok ok' : string -> list string -> Prop) (m : M A) :
  (forall cmd argv, ok cmd argv -> ok' cmd argv) ->
  sequentially sd ok m -> sequentially sd ok' m.
Proof.
  intros H Hm s Hs. destruct (Hm s Hs) as (a & events & Hsteps & Hseq).
  exists a, events. split; [exact Hsteps|].
  eapply Sequential_weaken; eassumption.
Qed.

Lemma seq_runToolsSequential (W : World) (sd : string)
    (ok : string -> list string -> Prop)
    (toolNames : list string) (options : Options) :
  (forall toolName cmd argv,
      In toolName toolNames ->
      commandOf toolName (fix_ options) sd cmd argv -> ok cmd argv) ->
  sequentially sd ok (runToolsSequential W toolNames options).
Proof.
  induction toolNames as [|toolName rest IH]; intros Hok; cbn [runToolsSequential].
  - apply seq_ret.
  - apply seq_bind.
    + eapply seq_weaken; [|apply seq_runTool].
      intros cmd argv. apply Hok. now left.
    + intros result. apply seq_bind; [|intros ?; apply seq_ret].
      apply IH. intros n cmd argv Hn. apply Hok. now right.
Qed.

Lemma seq_printCategoryHeader (sd : string) ok (categoryName : string)
    (members : list string) :
  sequentially sd ok (printCategoryHeader categoryName members).
Proof. unfold printCategoryHeader, printMessage. seq_auto. Qed.

Lemma seq_printSummary (sd : string) ok (results : list ToolResult)
    (options : Options) :
  sequentially sd ok (printSummary results options).
Proof.
  unfold printSummary, printMessage. seq_auto.
  destruct (_ =? 0)%nat; seq_auto.
Qed.

Lemma seq_printBanner (sd : string) ok : sequentially sd ok printBanner.
Proof. unfold printBanner. seq_auto. Qed.

Lemma group_formatting : group "formatting" = ["prettier"].
Proof. vm_compute. reflexivity. Qed.

Lemma group_linting : group "linting" = ["linting"].
Proof. vm_compute. reflexivity. Qed.

Lemma group_security :
  group "security" = ["security-scanning"; "vulnerability-checking"].
Proof. vm_compute. reflexivity. Qed.

Lemma group_analysis :
  group "analysis"
  = ["dead-code"; "duplication"; "complexity"; "maintainability";
     "dependency-check"].
Proof. vm_compute. reflexivity. Qed.

Lemma planned_intro (plan : list (string * bool)) (sd : string)
    (toolName : string) (fixing : bool) (cmd : string) (argv : list string) :
  In (toolName, fixing) plan ->
  commandOf toolName fixing sd cmd argv -> planned plan sd cmd argv.
Proof. intros Hin Hc. exists toolName, fixing. split; assumption. Qed.

Lemma seq_runAllWithFix (W : World) (sd : string) (options : Options) :
  fix_ options = true ->
  sequentially sd (planned fixPlan sd) (runAllWithFix W options).
Proof.
  intros Hfix. unfold runAllWithFix.
  rewrite group_formatting, group_linting.
  apply seq_bind; [unfold printMessage; seq_auto|]. intros _.
  apply seq_bind; [apply seq_when, seq_printCategoryHeader|]. intros _.
  apply seq_bind.
  { apply seq_runToolsSequential. intros n cmd argv [<- | []] Hc.
    rewrite Hfix in Hc. eapply planned_intro; [|exact Hc]. cbn. tauto. }
  intros formattingResults.
  apply seq_bind; [apply seq_when, seq_printCategoryHeader|]. intros _.
  apply seq_bind.
  { apply seq_runToolsSequential. intros n cmd argv [<- | []] Hc.
    eapply planned_intro; [|exact Hc]. cbn. tauto. }
  intros lintingResults.
  apply seq_bind.
  { eapply seq_weaken; [|apply seq_runTool]. intros cmd argv Hc.
    eapply planned_intro; [|exact Hc]. cbn. tauto. }
  intros typeCheckResult.
  apply seq_bind; [|intros ?; apply seq_ret].
  apply seq_mapM. intros categoryName Hcat.
  apply seq_bind; [apply seq_when, seq_printCategoryHeader|]. intros _.
  apply seq_runToolsSequential. intros n cmd argv Hn Hc.
  eapply planned_intro; [|exact Hc].
  destruct Hcat as [<- | [<- | []]];
    [rewrite group_security in Hn | rewrite group_analysis in Hn];
    cbn in Hn |- *; intuition (subst; auto 12).
Qed.

(** *** Reading a sequential trace *)

Lemma removeFirst_head (c : string * list string)
    (live : list (string * list string)) :
  removeFirst c (c :: live) = live.
Proof. cbn. now rewrite bool_decide_eq_true_2. Qed.

Lemma Sequential_peak ok (events : list Event) :
  Sequential ok events ->
  forall live,
    fold_left stepLive events live = live
    /\ (peakFrom live events <= S (length live))%nat.
Proof.
  induction 1 as [| line rest _ IH | dir rest _ IH
                  | cmd argv code rest _ _ IH
                  | cmd argv message rest _ _ IH]; intros live.
  - cbn. split; [reflexivity | lia].
  - destruct (IH live) as [E P]. cbn. split; [exact E | lia].
  - destruct (IH live) as [E P]. cbn. split; [exact E | lia].
  - destruct (IH live) as [E P].
    cbn [fold_left peakFrom stepLive]. rewrite removeFirst_head.
    split; [exact E | cbn [length]; lia].
  - destruct (IH live) as [E P].
    cbn [fold_left peakFrom stepLive]. rewrite removeFirst_head.
    split; [exact E | cbn [length]; lia].
Qed.

Lemma Sequential_peakConcurrency ok (events : list Event) :
  Sequential ok events -> (peakConcurrency events <= 1)%nat.
Proof. intros H. apply (Sequential_peak ok events H []). Qed.

Lemma Sequential_spawn ok (events : list Event)
    (cmd : string) (argv : list string) :
  Sequential ok events -> In (Spawn cmd argv) events -> ok cmd argv.
Proof.
  induction 1 as [| line rest _ IH | dir rest _ IH
                  | cmd' argv' code rest Hok _ IH
                  | cmd' argv' message rest Hok _ IH]; cbn; intros Hin.
  - destruct Hin.
  - destruct Hin as [Heq | Hin]; [discriminate Heq | auto].
  - destruct Hin as [Heq | Hin]; [discriminate Heq | auto].
  - destruct Hin as [Heq | [Heq | Hin]];
      [injection Heq as <- <-; exact Hok | discriminate Heq | auto].
  - destruct Hin as [Heq | [Heq | Hin]];
      [injection Heq as <- <-; exact Hok | discriminate Heq | auto].
Qed.

Lemma spawnCount_zero (cmd : string) (argv : list string)
    (events : list Event) :
  ~ In (Spawn cmd argv) events -> spawnCount cmd argv events = 0%nat.
Proof.
  unfold spawnCount. induction events as [|e rest IH]; cbn; intros Hnot.
  - reflexivity.
  - destruct (bool_decide_reflect (e = Spawn cmd argv)) as [-> | Hne].
    + exfalso. apply Hnot. now left.
    + apply IH. intros Hin. apply Hnot. now right.
Qed.

(** *** [parseArgs] and the first steps of [main] *)

Lemma parseArgs_spec (argv : list string) (s : State) :
  exists options s1,
    parseArgs argv s = (options, s1)
    /\ trace s1 = trace s
    /\ reportsDir s1 = reportsDir s
    /\ tool options
       = match argv with
         | a :: _ => if Js.truthy a then a else "help"
         | [] => "help"
         end
    /\ fix_ options = Js.includes argv "--fix"
    /\ quiet options = Js.includes argv "--quiet" || Js.includes argv "-q"
    /\ parallel options = Js.includes argv "--parallel".
Proof.
  unfold parseArgs.
  destruct (valueAfter "--source-dir" argv),
    (valueAfter "--project-name" argv);
    eexists _, _; (split; [reflexivity|]); repeat split.
Qed.

Lemma ensureReportsDirectory_spec (s : State) :
  exists s2,
    ensureReportsDirectory s = (tt, s2)
    /\ trace s2
       = (trace s ++ (if reportsDir s then [] else [Mkdir "reports"]))%list
    /\ SOURCE_DIR s2 = SOURCE_DIR s
    /\ PROJECT_NAME s2 = PROJECT_NAME s
    /\ reportsDir s2 = true.
Proof.
  unfold ensureReportsDirectory.
  destruct (reportsDir s) eqn:E; eexists;
    (split; [reflexivity|]); cbn; rewrite ?app_nil_r; auto.
Qed.

Lemma resolve_all :
  resolve "all"
  = Resolved
      ["prettier"; "import-sorting"; "linting"; "type-check";
       "security-scanning"; "vulnerability-checking"; "dead-code";
       "duplication"; "complexity"; "maintainability"; "dependency-check"].
Proof. vm_compute. reflexivity. Qed.

(** A run that is not a request for help: the arguments are parsed, the
    reports directory is made sure of, and [runIdentifier] does the rest. *)
Lemma main_not_help (W : World) (argv : list string) (s : State) :
  exists options s2,
    tool options
    = match argv with
      | a :: _ => if Js.truthy a then a else "help"
      | [] => "help"
      end
    /\ fix_ options = Js.includes argv "--fix"
    /\ quiet options = Js.includes argv "--quiet" || Js.includes argv "-q"
    /\ parallel options = Js.includes argv "--parallel"
    /\ trace s2
       = (trace s ++ (if reportsDir s then [] else [Mkdir "reports"]))%list
    /\ reportsDir s2 = true
    /\ (isHelp (tool options) = false ->
        main W argv s = runIdentifier W options s2).
Proof.
  destruct (parseArgs_spec argv s)
    as (options & s1 & Hparse & Htrace1 & Hdir1 & Htool & Hfix & Hquiet
        & Hparallel).
  destruct (ensureReportsDirectory_spec s1)
    as (s2 & Hensure & Htrace2 & _ & _ & Hdir2).
  exists options, s2. rewrite Htrace2, Htrace1, Hdir1.
  repeat split; try assumption.
  intros Hhelp. unfold main, mbind, M_bind.
  rewrite Hparse, Hhelp, Hensure. reflexivity.
Qed.

Lemma seq_runIdentifier_fix_all (W : World) (sd : string) (options : Options) :
  tool options = "all" -> fix_ options = true ->
  sequentially sd (planned fixPlan sd) (runIdentifier W options).
Proof.
  intros Htool Hfix. unfold runIdentifier. rewrite Htool, resolve_all.
  apply seq_bind; [apply seq_when, seq_printBanner|]. intros _.
  apply seq_bind.
  - unfold runResolved. rewrite Hfix, Htool.
    apply seq_runAllWithFix, Hfix.
  - intros collected.
    apply seq_bind; [apply seq_printSummary | intros ?; apply seq_ret].
Qed.

Lemma Sequential_mkdir_prefix ok (reportsExist : bool) (events : list Event) :
  Sequential ok events ->
  Sequential ok
    (([] ++ (if reportsExist then [] else [Mkdir "reports"])) ++ events)%list.
Proof. intros H. destruct reportsExist; cbn; [|constructor]; exact H. Qed.

Lemma main_fix_all (W : World) (rest : list string) :
  Js.includes rest "--fix" = true ->
  Sequential
    (planned fixPlan (SOURCE_DIR (run W ("all" :: rest)).2))
    (trace (run W ("all" :: rest)).2).
Proof.
  intros Hfix. unfold run.
  destruct (main_not_help W ("all" :: rest) (initialState W))
    as (options & s2 & Htool & Hfix' & _ & _ & Htrace & _ & Hmain).
  change (tool options = "all") in Htool.
  change (fix_ options = Js.includes rest "--fix") in Hfix'.
  rewrite Hfix in Hfix'.
  rewrite Hmain by (rewrite Htool; reflexivity).
  destruct (seq_runIdentifier_fix_all W (SOURCE_DIR s2) options Htool Hfix'
              s2 eq_refl) as (r & events & Hsteps & Hseq).
  rewrite Hsteps. cbn [snd extend trace SOURCE_DIR]. rewrite Htrace.
  apply Sequential_mkdir_prefix, Hseq.
Qed.

(** *** What the registry holds *)

Lemma tool_in_table (toolName : string) (t : Tool) :
  tools !! toolName = Some t -> In (toolName, t) toolTable.
Proof.
  intros H. apply list_elem_of_In. 
  apply (elem_of_list_to_map_2 (M := gmap string)). exact H.
Qed.

(** The command lines the fix-mode pipeline may spawn. *)
Lemma planned_fixPlan_commands (sd cmd : string) (argv : list string) :
  planned fixPlan sd cmd argv ->
  In (cmd, argv)
    [("npx", ["prettier"; "--version"]);
     ("npx", ["prettier"; "--write"; "."]);
     ("npx", ["eslint"; "--version"]);
     ("npx", ["eslint"; "."; "--config"; ".eslint-configs/linting.js"; "--fix"]);
     ("npx", ["tsc"; "--version"]);
     ("npx", ["tsc"; "--noEmit"]);
     ("npx", ["eslint"; "."; "--config"; ".eslint-configs/security.js"]);
     ("npm", ["--version"]);
     ("npm", ["audit"; "--audit-level=moderate"]);
     ("npx", ["ts-prune"; "--version"]);
     ("npx", ["ts-prune"]);
     ("npx", ["jscpd"; "--version"]);
     ("npx", ["jscpd"; "."; "--reporters"; "console,html"; "--output";
              "./reports/duplication"; "--ignore";
              "**/node_modules/**,**/.next/**,**/dist/**"]);
     ("npx", ["eslint"; "."; "--config"; ".eslint-configs/complexity.js"]);
     ("node", ["--version"]);
     ("node", ["scripts/maintainability-check.js"]);
     ("npx", ["depcruise"; "--version"]);
     ("npx", processArgs sd
               ["depcruise"; "--validate"; ".dependency-cruiser.cjs"; "src/"])].
Proof.
  intros (toolName & fixing & Hplan & t & Hlook & Hcmd).
  cbn in Hplan.
  repeat (destruct Hplan as [Hplan | Hplan];
          [injection Hplan as <- <-;
           vm_compute in Hlook; injection Hlook as <-;
           destruct Hcmd as [-> | ->]; cbn; tauto|]).
  destruct Hplan.
Qed.

(** *** The fix-mode pipeline *)

(** The security scanner does have a fix command; the pipeline runs its
    check command all the same. *)
Example security_scanner_runs_in_check_mode :
  spawnCount "npx"
    ["eslint"; "."; "--config"; ".eslint-configs/security.js"; "--fix"]
    (trace (snd (run allPass ["all"; "--fix"]))) = 0%nat
  /\ spawnCount "npx"
       ["eslint"; "."; "--config"; ".eslint-configs/security.js"]
       (trace (snd (run allPass ["all"; "--fix"]))) = 1%nat.
Proof. vm_compute. split; reflexivity. Qed.

(** *** What the runs return *)

Lemma returns_ret {A : Type} (a : A) (P : A -> Prop) :
  P a -> returns (mret a) P.
Proof. intros H s. exact H. Qed.

Lemma returns_bind {A B : Type} (m : M A) (f : A -> M B)
    (Q : A -> Prop) (P : B -> Prop) :
  returns m Q -> (forall a, Q a -> returns (f a) P) ->
  returns (m ≫= f) P.
Proof.
  intros Hm Hf s. unfold mbind, M_bind.
  specialize (Hm s). destruct (m s) as [a s1]. apply Hf, Hm.
Qed.

Lemma returns_any {A : Type} (m : M A) : returns m (fun _ => True).
Proof. intros s. exact I. Qed.

Lemma returns_then {A B : Type} (m : M A) (f : A -> M B) (P : B -> Prop) :
  (forall a, returns (f a) P) -> returns (m ≫= f) P.
Proof.
  intros Hf. apply (returns_bind m f (fun _ => True)); [apply returns_any|].
  intros a _. apply Hf.
Qed.

Lemma returns_mapM {A B C : Type} (f : A -> M B) (g : B -> C) (h : A -> C)
    (l : list A) :
  (forall x, returns (f x) (fun y => g y = h x)) ->
  returns (mapM f l) (fun ys => map g ys = map h l).
Proof.
  intros H. induction l as [|x l IH]; cbn [mapM].
  - apply returns_ret. reflexivity.
  - eapply returns_bind; [apply H|]. intros y Hy.
    eapply returns_bind; [apply IH|]. intros ys Hys.
    apply returns_ret. cbn. now rewrite Hy, Hys.
Qed.

Lemma runToolsSequential_names (W : World) (toolNames : list string)
    (options : Options) :
  returns (runToolsSequential W toolNames options)
    (fun collected => map r_tool collected = toolNames).
Proof.
  induction toolNames as [|toolName rest IH]; cbn [runToolsSequential].
  - apply returns_ret. reflexivity.
  - apply returns_then. intros result.
    eapply returns_bind; [apply IH|]. intros collected Hc.
    apply returns_ret. cbn. now rewrite Hc.
Qed.

Lemma resumeTool_name (W : World) (options : Options) (toolName : string) :
  returns (resumeTool W options toolName) (fun pending => fst pending = toolName).
Proof.
  unfold resumeTool. destruct (tools !! toolName) as [t|].
  - apply returns_then. intros outcome.
    destruct (negb (exitedCleanly outcome)).
    + apply returns_then. intros ?. now apply returns_ret.
    + repeat (apply returns_then; intros ?). now apply returns_ret.
  - now apply returns_ret.
Qed.

Lemma finishTool_name (W : World) (options : Options)
    (pending : string * InFlight) :
  returns (finishTool W options pending) (fun r => r_tool r = fst pending).
Proof.
  unfold finishTool. destruct (snd pending).
  - now apply returns_ret.
  - repeat (apply returns_then; intros ?). now apply returns_ret.
Qed.

Lemma runToolsParallel_names (W : World) (toolNames : list string)
    (options : Options) :
  returns (runToolsParallel W toolNames options)
    (fun collected => map r_tool collected = toolNames).
Proof.
  unfold runToolsParallel. apply returns_then. intros _.
  eapply returns_bind.
  - apply (returns_mapM _ fst id). apply resumeTool_name.
  - cbn beta. intros pending Hp. rewrite map_id in Hp. rewrite <- Hp.
    apply (returns_mapM _ r_tool fst). apply finishTool_name.
Qed.

Lemma runAllByCategory_names (W : World) (toolsToRun : list string)
    (options : Options) :
  returns (runAllByCategory W toolsToRun options)
    (fun collected =>
       map r_tool collected
       = flat_map
           (fun categoryName =>
              List.filter (Js.includes toolsToRun) (group categoryName))
           ["formatting"; "linting"; "security"; "analysis"]).
Proof.
  unfold runAllByCategory.
  eapply returns_bind.
  - apply (returns_mapM _ (map r_tool)
             (fun categoryName =>
                List.filter (Js.includes toolsToRun) (group categoryName))).
    intros categoryName.
    destruct (List.filter (Js.includes toolsToRun) (group categoryName))
      as [|x xs] eqn:E; cbn [length Nat.eqb].
    + now apply returns_ret.
    + apply returns_then. intros _.
      destruct (parallel options && negb (String.eqb categoryName "formatting"));
        [apply runToolsParallel_names | apply runToolsSequential_names].
  - cbn beta. intros perCategory Hper. apply returns_ret.
    rewrite flat_map_concat_map, <- Hper. apply concat_map.
Qed.

Lemma filter_all_length {A : Type} (f : A -> bool) (l : list A) :
  (length (List.filter f l) <= length l)%nat
  /\ ((length l - length (List.filter f l) =? 0)%nat = forallb f l).
Proof.
  induction l as [|x l [IH1 IH2]]; cbn; [split; [lia | reflexivity]|].
  destruct (f x); cbn [length andb].
  - split; [lia | exact IH2].
  - split; [lia|]. apply Nat.eqb_neq. lia.
Qed.

Lemma printSummary_verdict (collected : list ToolResult) (options : Options) :
  returns (printSummary collected options)
    (fun passed => passed = forallb success collected).
Proof.
  unfold printSummary.
  repeat (cbn zeta; apply returns_then; intros ?).
  apply returns_ret. apply filter_all_length.
Qed.

Lemma runAllWithFix_names (W : World) (options : Options) :
  returns (runAllWithFix W options)
    (fun collected =>
       map r_tool collected
       = ["prettier"; "eslint"; "type-check"; "security-scanning";
          "vulnerability-checking"; "dead-code"; "duplication";
          "complexity"; "maintainability"; "dependency-check"]).
Proof.
  unfold runAllWithFix. rewrite group_formatting.
  do 2 (apply returns_then; intros _).
  eapply returns_bind; [apply runToolsSequential_names|].
  intros formattingResults Hformatting. apply returns_then. intros _.
  eapply returns_bind; [apply runToolsSequential_names|].
  intros lintingResults Hlinting. apply returns_then. intros typeCheckResult.
  eapply returns_bind.
  - apply (returns_mapM _ (map r_tool) group). intros categoryName.
    apply returns_then. intros _. apply runToolsSequential_names.
  - cbn beta. intros remaining Hremaining. apply returns_ret.
    rewrite !map_app, Hformatting, Hlinting, concat_map, Hremaining.
    cbn [map]. rewrite group_security, group_analysis. reflexivity.
Qed.

Lemma runResolved_names (W : World) (toolsToRun : list string)
    (options : Options) :
  returns (runResolved W toolsToRun options)
    (fun collected =>
       map r_tool collected
       = if String.eqb (tool options) "all" then
           if fix_ options then
             ["prettier"; "eslint"; "type-check"; "security-scanning";
              "vulnerability-checking"; "dead-code"; "duplication";
              "complexity"; "maintainability"; "dependency-check"]
           else
             flat_map
               (fun categoryName =>
                  List.filter (Js.includes toolsToRun) (group categoryName))
               ["formatting"; "linting"; "security"; "analysis"]
         else toolsToRun).
Proof.
  unfold runResolved.
  destruct (String.eqb (tool options) "all"), (fix_ options); cbn [andb].
  - apply runAllWithFix_names.
  - apply runAllByCategory_names.
  - destruct (parallel options && (1 <? length toolsToRun))%nat;
      [apply runToolsParallel_names | apply runToolsSequential_names].
  - destruct (parallel options && (1 <? length toolsToRun))%nat;
      [apply runToolsParallel_names | apply runToolsSequential_names].
Qed.

(** The run of a resolved identifier: one result per tool that was run,
    and the exit status is 0 exactly when every result is a success. *)
Lemma runIdentifier_resolved (W : World) (options : Options)
    (toolsToRun : list string) :
  resolve (tool options) = Resolved toolsToRun ->
  returns (runIdentifier W options)
    (fun r =>
       map r_tool (results r)
       = (if String.eqb (tool options) "all" then
            if fix_ options then
              ["prettier"; "eslint"; "type-check"; "security-scanning";
               "vulnerability-checking"; "dead-code"; "duplication";
               "complexity"; "maintainability"; "dependency-check"]
            else
              flat_map
                (fun categoryName =>
                   List.filter (Js.includes toolsToRun) (group categoryName))
                ["formatting"; "linting"; "security"; "analysis"]
          else toolsToRun)
       /\ exitCode r = (if forallb success (results r) then 0 else 1)%Z).
Proof.
  intros Hresolve. unfold runIdentifier. rewrite Hresolve.
  apply returns_then. intros _.
  eapply returns_bind; [apply runResolved_names|].
  cbn beta. intros collected Hnames.
  eapply returns_bind; [apply printSummary_verdict|].
  cbn beta. intros passed ->. apply returns_ret. cbn. split; [exact Hnames | reflexivity].
Qed.

(** C1, what the code does: [all] resolves to the eleven tools of the
    workflow, but a run of [all] without [--fix] collects nine results,
    whatever the children do: the loop over the display categories
    formatting, linting, security and analysis never reaches
    [import-sorting] and [type-check]. *)
Theorem all_suite_without_fix_runs_nine_tools (W : World) (rest : list string) :
  Js.includes rest "--fix" = false ->
  resolve "all"
  = Resolved
      ["prettier"; "import-sorting"; "linting"; "type-check";
       "security-scanning"; "vulnerability-checking"; "dead-code";
       "duplication"; "complexity"; "maintainability"; "dependency-check"]
  /\ map r_tool (results (fst (run W ("all" :: rest))))
     = ["prettier"; "linting"; "security-scanning";
        "vulnerability-checking"; "dead-code"; "duplication"; "complexity";
        "maintainability"; "dependency-check"].
Proof.
  intros Hfix. split; [apply resolve_all|]. unfold run.
  destruct (main_not_help W ("all" :: rest) (initialState W))
    as (options & s2 & Htool & Hfix' & _ & _ & _ & _ & Hmain).
  change (tool options = "all") in Htool.
  change (fix_ options = Js.includes rest "--fix") in Hfix'.
  rewrite Hfix in Hfix'.
  rewrite Hmain by (rewrite Htool; reflexivity).
  assert (Hresolve : resolve (tool options) = _)
    by (rewrite Htool; apply resolve_all).
  destruct (runIdentifier_resolved W options _ Hresolve s2) as [Hnames _].
  rewrite Hnames, Htool, Hfix'. vm_compute. reflexivity.
Qed.

Lemma all_suite_without_fix_runs_nine_tools_witness :
  resolve "all"
  = Resolved
      ["prettier"; "import-sorting"; "linting"; "type-check";
       "security-scanning"; "vulnerability-checking"; "dead-code";
       "duplication"; "complexity"; "maintainability"; "dependency-check"]
  /\ map r_tool (results (fst (run allPass ["all"])))
     = ["prettier"; "linting"; "security-scanning";
        "vulnerability-checking"; "dead-code"; "duplication"; "complexity";
        "maintainability"; "dependency-check"].
Proof.
  apply (all_suite_without_fix_runs_nine_tools allPass []). reflexivity.
Defined.

(** In that run neither the type checker nor the import sorter is ever
    spawned, and the process still exits with 0. *)
Example all_suite_never_spawns_the_type_checker :
  spawnCount "npx" ["tsc"; "--noEmit"] (trace (snd (run allPass ["all"])))
  = 0%nat
  /\ spawnCount "npx"
       ["eslint"; "."; "--config"; ".eslint-configs/import-sorting.js"]
       (trace (snd (run allPass ["all"]))) = 0%nat
  /\ exitCode (fst (run allPass ["all"])) = 0%Z.
Proof. vm_compute. repeat split. Qed.

(** With [--fix] the run collects ten results: [import-sorting] is left
    out again and [eslint] takes the place of [linting]. *)
Example all_suite_with_fix_runs_ten_tools :
  map r_tool (results (fst (run allPass ["all"; "--fix"])))
  = ["prettier"; "eslint"; "type-check"; "security-scanning";
     "vulnerability-checking"; "dead-code"; "duplication"; "complexity";
     "maintainability"; "dependency-check"].
Proof. vm_compute. reflexivity. Qed.

(** For every identifier other than [all], each resolved tool gets its
    result, in the resolved order, also when a tool fails; the exit status
    is 0 when every result is a success and 1 otherwise. *)
Lemma run_reports_every_resolved_tool (W : World) (identifier : string)
    (rest toolsToRun : list string) :
  Js.truthy identifier = true ->
  isHelp identifier = false ->
  String.eqb identifier "all" = false ->
  resolve identifier = Resolved toolsToRun ->
  map r_tool (results (fst (run W (identifier :: rest)))) = toolsToRun
  /\ exitCode (fst (run W (identifier :: rest)))
     = (if forallb success (results (fst (run W (identifier :: rest))))
        then 0 else 1)%Z.
Proof.
  intros Htruthy Hhelp Hall Hresolve. unfold run.
  destruct (main_not_help W (identifier :: rest) (initialState W))
    as (options & s2 & Htool & _ & _ & _ & _ & _ & Hmain).
  rewrite Htruthy in Htool.
  rewrite Hmain by (rewrite Htool; exact Hhelp).
  rewrite <- Htool in Hresolve, Hall.
  destruct (runIdentifier_resolved W options _ Hresolve s2) as [Hnames Hexit].
  rewrite Hall in Hnames. split; assumption.
Qed.

(** *** Unknown identifiers *)

(** C2, as the code has it: for an identifier that is neither a tool, a
    group nor a request for help, the run ends with exit status 1 and no
    result; by then the reports directory exists (it is created when it
    was absent), and the trace holds nothing but that creation, the
    banner unless quiet, and the error lines, which give the rejected
    identifier and point to "help" (for a property name inherited from
    [Object.prototype], the line of the [TypeError]); no child process is
    spawned. *)
Theorem unknown_identifier_is_rejected
    (W : World) (identifier : string) (rest : list string) :
  Js.truthy identifier = true ->
  isHelp identifier = false ->
  toolGroups !! identifier = None ->
  tools !! identifier = None ->
  let outcome := run W (identifier :: rest) in
  let final := snd outcome in
  exitCode (fst outcome) = 1%Z
  /\ results (fst outcome) = []
  /\ reportsDir final = true
  /\ trace final
     = ((if reportsDirExists W then [] else [Mkdir "reports"])
        ++ (if Js.includes (identifier :: rest) "--quiet"
               || Js.includes (identifier :: rest) "-q"
            then []
            else [Log (PROJECT_NAME final ++ " Quality Checks");
                  Log ("Source Directory: " ++ SOURCE_DIR final)])
        ++ (if Js.includes objectPrototypeKeys identifier
            then [Log ("Error: "
                       ++ typeErrorMessage W identifier
                            (Js.includes (identifier :: rest) "--parallel"))]
            else [Log ("Unknown tool or group: " ++ identifier);
                  Log ("Use " ++ Js.dquote ++ "help" ++ Js.dquote
                       ++ " to see available options")]))%list
  /\ Forall (fun e => isSpawn e = false) (trace final).
Proof.
  intros Htruthy Hhelp Hgroups Htools outcome final.
  subst final outcome. unfold run.
  destruct (main_not_help W (identifier :: rest) (initialState W))
    as (options & s2 & Htool & _ & Hquiet & Hparallel & Htrace & Hdir & Hmain).
  rewrite Htruthy in Htool.
  rewrite Hmain by (rewrite Htool; exact Hhelp).
  unfold runIdentifier, resolve. rewrite Htool, Hgroups, Htools.
  rewrite <- Hquiet, <- Hparallel.
  change (trace (initialState W)) with (@nil Event) in Htrace.
  change (reportsDir (initialState W)) with (reportsDirExists W) in Htrace.
  cbn [app] in Htrace.
  destruct (Js.includes objectPrototypeKeys identifier), (quiet options);
    unfold when, printBanner, printMessage, log, emit, mbind, M_bind, mret,
      M_ret, getProjectName, getSourceDir;
    cbn [negb fst snd trace SOURCE_DIR PROJECT_NAME reportsDir exitCode results];
    rewrite Htrace, <- ?app_assoc; cbn [app];
    (repeat split; [exact Hdir|]);
    destruct (reportsDirExists W); repeat constructor.
Qed.

(** *** A tool run with the fix option *)

Lemma printsOnly_ret {A : Type} (a : A) : printsOnly (mret a) a.
Proof. intros s. exists []. split; [apply steps_ret | constructor]. Qed.

Lemma printsOnly_bind {A B : Type} (m : M A) (f : A -> M B) (a : A) (b : B) :
  printsOnly m a -> printsOnly (f a) b -> printsOnly (m ≫= f) b.
Proof.
  intros Hm Hf s.
  destruct (Hm s) as (xs & Hsteps & Hxs).
  destruct (Hf (extend s xs)) as (ys & Hsteps' & Hys).
  exists (xs ++ ys)%list. split.
  - eapply steps_bind; eassumption.
  - apply Forall_app. split; assumption.
Qed.

Lemma printsOnly_log (line : string) : printsOnly (log line) tt.
Proof.
  intros s. exists [Log line]. split; [apply steps_emit | repeat constructor].
Qed.

Lemma printsOnly_when (cond : bool) (m : M unit) :
  printsOnly m tt -> printsOnly (when cond m) tt.
Proof. intros H. destruct cond; [exact H | apply printsOnly_ret]. Qed.

Ltac prints_only :=
  repeat first
    [ apply printsOnly_ret
    | apply printsOnly_log
    | apply printsOnly_when
    | eapply printsOnly_bind ].

Lemma steps_announce (t : Tool) (options : Options)
    (processedArgs : list string) :
  printsOnly (announce t options processedArgs) tt.
Proof. unfold announce, printMessage. prints_only. Qed.

Lemma steps_settle (t : Tool) (options : Options) (outcome : ChildOutcome) :
  printsOnly (settle t options outcome) (exitedCleanly outcome).
Proof.
  unfold settle, printMessage.
  destruct outcome as [code out ms | message]; cbn [exitedCleanly];
    [destruct (code =? 0)%Z; [|destruct (negb (quiet options))]|];
    prints_only.
Qed.

Lemma steps_notInstalled (t : Tool) (s : State) :
  steps (notInstalled t) s false
    [Log (description t ++ " - TOOL NOT INSTALLED");
     Log ("Install with: npm install -D " ++ command t)].
Proof.
  unfold notInstalled, printMessage, log.
  apply (steps_bind _ _ s tt false [_] [_]); [apply steps_emit|].
  apply (steps_bind _ _ _ tt false [_] []); [apply steps_emit|].
  apply steps_ret.
Qed.

Lemma spawnCount_app (cmd : string) (argv : list string)
    (xs ys : list Event) :
  spawnCount cmd argv (xs ++ ys)
  = (spawnCount cmd argv xs + spawnCount cmd argv ys)%nat.
Proof. unfold spawnCount. now rewrite List.filter_app, length_app. Qed.

Lemma logs_hold_no_spawn (cmd : string) (argv : list string)
    (logs : list Event) :
  Forall (fun e => isLog e = true) logs ->
  spawnCount cmd argv logs = 0%nat
  /\ forall code, ~ In (Close cmd argv code) logs.
Proof.
  induction 1 as [|e rest He _ [IH1 IH2]]; [split; [reflexivity | intros ? []]|].
  destruct e; try discriminate He. split.
  - unfold spawnCount in *. cbn. exact IH1.
  - intros code [Heq | Hin]; [discriminate Heq | exact (IH2 code Hin)].
Qed.

(** No tool of the registry is probed with its own command line. *)
Lemma probe_differs (toolName : string) (t : Tool) (sd : string)
    (fixing : bool) :
  tools !! toolName = Some t ->
  probeCommand t <> (command t, processArgs sd (argsInMode t fixing)).
Proof.
  intros Hlook. apply tool_in_table in Hlook. cbn in Hlook.
  repeat (destruct Hlook as [Hlook | Hlook];
          [injection Hlook as <- <-; destruct fixing; cbn; discriminate|]).
  destruct Hlook.
Qed.

(** C7, as the code has it: a tool of the registry without fix command,
    run with the fix option, behaves exactly as without it; its check
    command is spawned once when the availability probe exits with 0 and
    not at all otherwise (the tool is then reported as not installed and
    failed), and the result is a success exactly when the check command
    closes with status 0.  Nothing is printed about the missing fix
    command. *)
Theorem tool_without_fix_runs_its_check
    (W : World) (toolName : string) (t : Tool) (options : Options)
    (s : State) :
  tools !! toolName = Some t ->
  fixArgs t = None ->
  fix_ options = true ->
  let probe := probeCommand t in
  let checkArgs := processArgs (SOURCE_DIR s) (args t) in
  let available :=
    exitedCleanly
      (child W (trace s ++ [Spawn (fst probe) (snd probe)])
         (fst probe) (snd probe)) in
  runTool W toolName options s
  = runTool W toolName (withFix options false) s
  /\ exists events,
       snd (runTool W toolName options s) = extend s events
       /\ spawnCount (command t) checkArgs events
          = (if available then 1 else 0)%nat
       /\ (fst (runTool W toolName options s) = true
           <-> In (Close (command t) checkArgs 0) events).
Proof.
  intros Hlook Hnofix Hfix probe checkArgs available.
  assert (Hargs : forall o, chosenArgs t o = args t)
    by (intros o; unfold chosenArgs, argsInMode; now rewrite Hnofix).
  split.
  { unfold runTool. rewrite Hlook, !Hargs. reflexivity. }
  assert (Hdiff : (fst probe, snd probe) <> (command t, checkArgs)).
  { pose proof (probe_differs toolName t (SOURCE_DIR s) false Hlook) as H.
    unfold argsInMode in H. rewrite Hnofix in H.
    subst probe checkArgs. now destruct (probeCommand t). }
  unfold runTool, checkToolAvailability. rewrite Hlook, Hargs.
  fold probe. fold checkArgs.
  pose proof (steps_spawned W (fst probe) (snd probe) s) as Hprobe.
  fold available in Hprobe.
  set (o1 := child W (trace s ++ [Spawn (fst probe) (snd probe)])
               (fst probe) (snd probe)) in *.
  set (e1 := [Spawn (fst probe) (snd probe);
              endingOf (fst probe) (snd probe) o1]) in *.
  assert (He1 : spawnCount (command t) checkArgs e1 = 0%nat
                /\ forall code, ~ In (Close (command t) checkArgs code) e1).
  { split.
    - apply spawnCount_zero. subst e1. intros [H | [H | []]].
      + apply Hdiff. now injection H as <- <-.
      + destruct o1; discriminate H.
    - intros code [H | [H | []]]; [discriminate H|].
      destruct o1; [|discriminate H]. apply Hdiff.
      cbn in H. now injection H as <- <- _. }
  destruct He1 as [Hcount1 Hclose1].
  assert (Hcheck : steps (spawned W (fst probe) (snd probe)
                          ≫= λ outcome, mret (exitedCleanly outcome))
                     s available e1).
  { rewrite <- (app_nil_r e1).
    eapply steps_bind; [exact Hprobe | apply steps_ret]. }
  destruct available eqn:Havailable; cbn [negb].
  - (* the probe succeeded *)
    set (s1 := extend s e1) in *.
    destruct (steps_announce t options checkArgs s1)
      as (logs1 & Hannounce & Hlogs1).
    set (s2 := extend s1 logs1) in *.
    pose proof (steps_spawned W (command t) checkArgs s2) as Hrun.
    set (o2 := child W (trace s2 ++ [Spawn (command t) checkArgs])
                 (command t) checkArgs) in *.
    set (e2 := [Spawn (command t) checkArgs;
                endingOf (command t) checkArgs o2]) in *.
    set (s3 := extend s2 e2) in *.
    destruct (steps_settle t options o2 s3)
      as (logs2 & Hsettle & Hlogs2).
    match goal with
    | |- context [snd (?m s)] =>
        assert (Hall : steps m s (exitedCleanly o2)
                         (e1 ++ logs1 ++ e2 ++ logs2))
    end.
    { eapply steps_bind; [exact Hcheck|]. cbn [negb].
      unfold steps at 1, mbind at 1, M_bind at 1, getSourceDir.
      cbn [SOURCE_DIR extend]. fold checkArgs.
      eapply steps_bind; [exact Hannounce|].
      eapply steps_bind; [exact Hrun | exact Hsettle]. }
    exists (e1 ++ logs1 ++ e2 ++ logs2)%list.
    unfold steps in Hall. rewrite Hall. cbn [fst snd].
    destruct (logs_hold_no_spawn (command t) checkArgs logs1 Hlogs1) as [C1 L1].
    destruct (logs_hold_no_spawn (command t) checkArgs logs2 Hlogs2) as [C2 L2].
    split; [reflexivity|]. split.
    + rewrite !spawnCount_app, Hcount1, C1, C2.
      unfold spawnCount, e2. cbn [List.filter].
      rewrite bool_decide_eq_true_2 by reflexivity.
      destruct o2; cbn [endingOf];
        rewrite bool_decide_eq_false_2 by discriminate; reflexivity.
    + rewrite !in_app_iff. split.
      * intros Hok. right. right. left. subst e2.
        destruct o2 as [code out ms | message]; [|discriminate Hok].
        cbn in Hok |- *. apply Z.eqb_eq in Hok. subst code. tauto.
      * intros [H | [H | [H | H]]];
          [destruct (Hclose1 _ H) | destruct (L1 _ H) | | destruct (L2 _ H)].
        subst e2. destruct H as [H | [H | []]]; [discriminate H|].
        destruct o2; [|discriminate H]. cbn in H |- *.
        injection H as ->. reflexivity.
  - (* the probe failed *)
    match goal with
    | |- context [snd (?m s)] =>
        assert (Hall : steps m s false
                  (e1 ++ [Log (description t ++ " - TOOL NOT INSTALLED");
                          Log ("Install with: npm install -D " ++ command t)]))
    end.
    { eapply steps_bind; [exact Hcheck|]. cbn [negb]. apply steps_notInstalled. }
    eexists. unfold steps in Hall. rewrite Hall. cbn [fst snd].
    split; [reflexivity|]. split.
    + rewrite spawnCount_app, Hcount1. reflexivity.
    + split; [discriminate|]. rewrite in_app_iff.
      intros [H | [H | [H | []]]]; [destruct (Hclose1 _ H) | discriminate H ..].
Qed.

Lemma unknown_identifier_is_rejected_witness :
  let outcome := run allPass ["foo"] in
  let final := snd outcome in
  exitCode (fst outcome) = 1%Z
  /\ results (fst outcome) = []
  /\ reportsDir final = true
  /\ trace final
     = ((if reportsDirExists allPass then [] else [Mkdir "reports"])
        ++ (if Js.includes ["foo"] "--quiet" || Js.includes ["foo"] "-q"
            then []
            else [Log (PROJECT_NAME final ++ " Quality Checks");
                  Log ("Source Directory: " ++ SOURCE_DIR final)])
        ++ (if Js.includes objectPrototypeKeys "foo"
            then [Log ("Error: "
                       ++ typeErrorMessage allPass "foo"
                            (Js.includes ["foo"] "--parallel"))]
            else [Log ("Unknown tool or group: " ++ "foo");
                  Log ("Use " ++ Js.dquote ++ "help" ++ Js.dquote
                       ++ " to see available options")]))%list
  /\ Forall (fun e => isSpawn e = false) (trace final).
Proof.
  apply (unknown_identifier_is_rejected allPass "foo" []);
    vm_compute; reflexivity.
Defined.

(** C2 as stated fails: the rejection of an unknown identifier leaves a
    freshly created reports directory behind, and its message names none
    of the valid identifiers. *)
Lemma unknown_identifier_creates_reports_directory :
  tools !! "foo" = None
  /\ toolGroups !! "foo" = None
  /\ reportsDir (initialState allPass) = false
  /\ exitCode (fst (run allPass ["foo"])) = 1%Z
  /\ reportsDir (snd (run allPass ["foo"])) = true
  /\ In (Mkdir "reports") (trace (snd (run allPass ["foo"])))
  /\ logged (trace (snd (run allPass ["foo"])))
     = ["Complete Quality Suite Quality Checks";
        "Source Directory: src";
        "Unknown tool or group: foo";
        "Use " ++ Js.dquote ++ "help" ++ Js.dquote
        ++ " to see available options"]
  /\ forallb
       (fun identifier =>
          negb (existsb (Js.isSubstring identifier)
                  (logged (trace (snd (run allPass ["foo"]))))))
       validIdentifiers = true.
Proof.
  do 5 (split; [vm_compute; reflexivity|]).
  split; [vm_compute; left; reflexivity|].
  split; vm_compute; reflexivity.
Qed.

Lemma tool_without_fix_runs_its_check_witness :
  runTool allPass "type-check" typeCheckWithFix (initialState allPass)
  = runTool allPass "type-check" (withFix typeCheckWithFix false)
      (initialState allPass)
  /\ exists events,
       snd (runTool allPass "type-check" typeCheckWithFix
              (initialState allPass))
       = extend (initialState allPass) events
       /\ spawnCount "npx" ["tsc"; "--noEmit"] events = 1%nat
       /\ (fst (runTool allPass "type-check" typeCheckWithFix
                  (initialState allPass)) = true
           <-> In (Close "npx" ["tsc"; "--noEmit"] 0) events).
Proof.
  apply (tool_without_fix_runs_its_check allPass "type-check" typeCheckTool
           typeCheckWithFix (initialState allPass));
    vm_compute; reflexivity.
Defined.

(** C7 as stated fails: a tool without fix command that is run with the
    fix option prints what it prints in check mode, and nothing about the
    fix that is not available; the summary of such a run even suggests
    that issues may have been fixed. *)
Lemma missing_fix_command_is_not_reported :
  tools !! "type-check" = Some typeCheckTool
  /\ fixArgs typeCheckTool = None
  /\ logged (trace (snd (runTool allPass "type-check" typeCheckWithFix
                           (initialState allPass))))
     = ["TypeScript type checking";
        "TypeScript type checking - PASSED (5ms)"]
  /\ logged (trace (snd (run allPass ["type-check"; "--fix"])))
     = ["Complete Quality Suite Quality Checks";
        "Source Directory: src";
        "TypeScript type checking";
        "TypeScript type checking - PASSED (5ms)";
        separator;
        "QUALITY CHECKS SUMMARY";
        separator;
        "Total tools: 1";
        "Passed: 1";
        "All quality checks passed!";
        "Some issues may have been auto-fixed."]
  /\ existsb (Js.isSubstring "fix available")
       (logged (trace (snd (run allPass ["type-check"; "--fix"])))) = false.
Proof.
  do 4 (split; [vm_compute; reflexivity|]).
  vm_compute. reflexivity.
Qed.

End RunnerFacts.

(** ** Further facts about the orchestrator *)

Module RunnerMore.

Import Runner RunnerFacts.
Open Scope Z_scope.

(** *** Composing computations that only extend the trace *)

Section Performs.

Variable sd : string.
Variable P : Event -> Prop.

Lemma performs_ret {A : Type} (a : A) (Q : A -> Prop) :
  Q a -> performs sd P Q (mret a).
Proof.
  intros H s _. exists a, []. split; [apply steps_ret|]. split; [constructor | exact H].
Qed.

Lemma performs_bind {A B : Type} (m : M A) (f : A -> M B)
    (Q : A -> Prop) (R : B -> Prop) :
  performs sd P Q m -> (forall a, Q a -> performs sd P R (f a)) ->
  performs sd P R (m ≫= f).
Proof.
  intros Hm Hf s Hs.
  destruct (Hm s Hs) as (a & xs & Hsteps & Hxs & Ha).
  destruct (Hf a Ha (extend s xs) Hs) as (b & ys & Hsteps' & Hys & Hb).
  exists b, (xs ++ ys)%list. split; [eapply steps_bind; eassumption|].
  split; [apply Forall_app; split; assumption | exact Hb].
Qed.

Lemma performs_post {A : Type} (m : M A) (Q Q' : A -> Prop) :
  (forall a, Q a -> Q' a) -> performs sd P Q m -> performs sd P Q' m.
Proof.
  intros HQ Hm s Hs. destruct (Hm s Hs) as (a & xs & Hsteps & Hxs & Ha).
  exists a, xs. auto.
Qed.

Lemma performs_emit (e : Event) :
  P e -> performs sd P (fun _ => True) (emit e).
Proof.
  intros He s _. exists tt, [e]. split; [apply steps_emit|].
  split; [repeat constructor; exact He | exact I].
Qed.

Lemma performs_when (cond : bool) (m : M unit) :
  performs sd P (fun _ => True) m ->
  performs sd P (fun _ => True) (when cond m).
Proof. intros H. destruct cond; [exact H | now apply performs_ret]. Qed.

Lemma performs_getSourceDir {B : Type} (f : string -> M B) (R : B -> Prop) :
  performs sd P R (f sd) -> performs sd P R (getSourceDir ≫= f).
Proof.
  intros H s Hs. destruct (H s Hs) as (b & ys & Hsteps & Hys & Hb).
  exists b, ys. split; [|auto].
  unfold steps, mbind, M_bind, getSourceDir. rewrite Hs. exact Hsteps.
Qed.

Lemma performs_getProjectName {B : Type} (f : string -> M B)
    (R : B -> Prop) :
  (forall name, performs sd P R (f name)) ->
  performs sd P R (getProjectName ≫= f).
Proof.
  intros H s Hs. destruct (H (PROJECT_NAME s) s Hs) as (b & ys & Hsteps & Hys & Hb).
  exists b, ys. split; [exact Hsteps | auto].
Qed.

Lemma performs_await (W : World) (cmd : string) (argv : list string) :
  (forall outcome, P (endingOf cmd argv outcome)) ->
  performs sd P (fun outcome => exists before, outcome = child W before cmd argv)
    (await W cmd argv).
Proof.
  intros H s _. eexists _, _. split; [apply steps_await|].
  split; [repeat constructor; apply H | now exists (trace s)].
Qed.

Lemma performs_spawned (W : World) (cmd : string) (argv : list string) :
  P (Spawn cmd argv) ->
  (forall outcome, P (endingOf cmd argv outcome)) ->
  performs sd P (fun outcome => exists before, outcome = child W before cmd argv)
    (spawned W cmd argv).
Proof.
  intros Hspawn Hend. unfold spawned.
  eapply performs_bind; [apply performs_emit, Hspawn|].
  intros _ _. now apply performs_await.
Qed.

Lemma performs_mapM {A B : Type} (f : A -> M B) (Q : A -> B -> Prop)
    (l : list A) :
  (forall x, In x l -> performs sd P (Q x) (f x)) ->
  performs sd P (Forall2 Q l) (mapM f l).
Proof.
  induction l as [|x l IH]; intros H.
  - apply performs_ret. constructor.
  - cbn [mapM]. eapply performs_bind; [apply H; now left|].
    intros y Hy. eapply performs_bind; [apply IH; intros; apply H; now right|].
    intros ys Hys. apply performs_ret. now constructor.
Qed.

End Performs.


(** *** The pieces of a run *)

Lemma Forall2_In_right {A B : Type} (Q : A -> B -> Prop) (l : list A)
    (k : list B) (y : B) :
  Forall2 Q l k -> In y k -> exists x, In x l /\ Q x y.
Proof.
  induction 1 as [|x y' l k Hxy _ IH]; intros Hin; [destruct Hin|].
  destruct Hin as [-> | Hin].
  - exists x. split; [now left | exact Hxy].
  - destruct (IH Hin) as (x' & Hx' & HQ). exists x'. split; [now right | exact HQ].
Qed.

Lemma table_probe (sd toolName : string) (t : Tool) :
  tools !! toolName = Some t ->
  tableCommand sd (fst (probeCommand t)) (snd (probeCommand t)).
Proof.
  intros H. exists toolName, false, t. split; [exact H|]. left.
  now destruct (probeCommand t).
Qed.

Lemma table_command (sd toolName : string) (t : Tool) (fixing : bool) :
  tools !! toolName = Some t ->
  tableCommand sd (command t) (processArgs sd (argsInMode t fixing)).
Proof.
  intros H. exists toolName, fixing, t. split; [exact H|]. now right.
Qed.

Section Pieces.

Variable W : World.
Variable sd : string.
Variable P : Event -> Prop.
Hypothesis P_log : forall line, P (Log line).
Hypothesis P_spawn :
  forall cmd argv, tableCommand sd cmd argv -> P (Spawn cmd argv).
Hypothesis P_end :
  forall cmd argv outcome,
    tableCommand sd cmd argv -> P (endingOf cmd argv outcome).

Lemma performs_log (line : string) :
  performs sd P (fun _ => True) (log line).
Proof. apply performs_emit, P_log. Qed.

Lemma performs_logs (lines : list string) :
  performs sd P (fun _ => True) (mapM log lines).
Proof.
  eapply performs_post; [|apply (performs_mapM sd P log (fun _ _ => True))].
  - auto.
  - intros line _. apply performs_log.
Qed.

Ltac perform :=
  repeat first
    [ apply performs_log
    | apply performs_when
    | apply performs_logs
    | apply performs_getSourceDir
    | apply performs_getProjectName; intros ?
    | apply performs_ret; exact I
    | eapply performs_bind; [|intros ? _] ].

Lemma performs_announce (t : Tool) (options : Options)
    (processedArgs : list string) :
  performs sd P (fun _ => True) (announce t options processedArgs).
Proof. unfold announce, printMessage. perform. Qed.

Lemma performs_settle (t : Tool) (options : Options)
    (outcome : ChildOutcome) :
  performs sd P (fun verdict => verdict = exitedCleanly outcome)
    (settle t options outcome).
Proof.
  unfold settle, printMessage.
  destruct outcome as [code out ms | message]; cbn [exitedCleanly];
    [destruct (code =? 0); [|destruct (negb (quiet options))]|];
    (eapply performs_bind; [perform | intros ? _; now apply performs_ret]).
Qed.

Lemma performs_notInstalled (t : Tool) :
  performs sd P (fun verdict => verdict = false) (notInstalled t).
Proof.
  unfold notInstalled, printMessage.
  eapply performs_bind; [perform | intros ? _].
  eapply performs_bind; [perform | intros ? _].
  now apply performs_ret.
Qed.

Lemma performs_printCategoryHeader (categoryName : string)
    (members : list string) :
  performs sd P (fun _ => True) (printCategoryHeader categoryName members).
Proof. unfold printCategoryHeader, printMessage. perform. Qed.

Lemma performs_printBanner : performs sd P (fun _ => True) printBanner.
Proof. unfold printBanner. perform. Qed.

Lemma performs_printSummary (collected : list ToolResult)
    (options : Options) :
  performs sd P (fun passed => passed = forallb success collected)
    (printSummary collected options).
Proof.
  unfold printSummary, printMessage.
  repeat (eapply performs_bind; [perform | intros ? _]).
  - apply (performs_mapM sd P _ (fun _ _ => True)).
    intros r _. apply performs_log.
  - match goal with
    | |- context [if ?c then _ else _] => destruct c
    end; perform.
  - apply performs_ret. apply filter_all_length.
Qed.

Lemma performs_runTool (toolName : string) (options : Options) :
  performs sd P
    (fun verdict =>
       judged W sd (fix_ options) toolName
         {| r_tool := toolName; success := verdict |})
    (runTool W toolName options).
Proof.
  unfold runTool, checkToolAvailability, judged. cbn [r_tool success].
  destruct (tools !! toolName) as [t|] eqn:Hlook.
  - pose proof (table_probe sd toolName t Hlook) as Hprobe.
    pose proof (table_command sd toolName t (fix_ options) Hlook) as Hcmd.
    eapply performs_bind.
    { eapply performs_bind;
        [apply performs_spawned; [apply P_spawn | intros; apply P_end];
         exact Hprobe|].
      intros outcome [before ->].
      apply (performs_ret sd P _
               (fun available =>
                  exists before,
                    available
                    = exitedCleanly
                        (child W before (fst (probeCommand t))
                           (snd (probeCommand t))))).
      now exists before. }
    intros available [before1 ->].
    destruct (exitedCleanly _) eqn:Havailable; cbn [negb].
    + apply performs_getSourceDir.
      eapply performs_bind; [apply performs_announce | intros ? _].
      eapply performs_bind;
        [apply performs_spawned; [apply P_spawn | intros; apply P_end];
         exact Hcmd|].
      intros outcome [before2 ->].
      eapply performs_post; [|apply performs_settle].
      intros verdict ->. split; [reflexivity|].
      exists before1, before2. now rewrite Havailable.
    + eapply performs_post; [|apply performs_notInstalled].
      intros verdict ->. split; [reflexivity|].
      exists before1, []. now rewrite Havailable.
  - eapply performs_bind; [unfold printMessage; apply performs_log|].
    intros ? _. apply performs_ret. split; [reflexivity|]. now exists [], [].
Qed.

Lemma performs_runToolsSequential (toolNames : list string)
    (options : Options) :
  performs sd P (Forall2 (judged W sd (fix_ options)) toolNames)
    (runToolsSequential W toolNames options).
Proof.
  induction toolNames as [|toolName rest IH]; cbn [runToolsSequential].
  - apply performs_ret. constructor.
  - eapply performs_bind; [apply performs_runTool|]. intros verdict Hverdict.
    eapply performs_bind; [apply IH|]. intros collected Hcollected.
    apply performs_ret. now constructor.
Qed.

Lemma performs_beginTool (toolName : string) :
  performs sd P (fun _ => True) (beginTool toolName).
Proof.
  unfold beginTool. destruct (tools !! toolName) as [t|] eqn:Hlook.
  - apply performs_emit, P_spawn. now apply table_probe with toolName.
  - unfold printMessage. apply performs_log.
Qed.

Lemma performs_resumeTool (options : Options) (toolName : string) :
  performs sd P (resumed W sd (fix_ options) toolName)
    (resumeTool W options toolName).
Proof.
  unfold resumeTool, resumed.
  destruct (tools !! toolName) as [t|] eqn:Hlook.
  - eapply performs_bind;
      [apply performs_await; intros; apply P_end;
       now apply table_probe with toolName|].
    intros outcome [before ->].
    destruct (exitedCleanly _) eqn:Havailable; cbn [negb].
    + apply performs_getSourceDir.
      eapply performs_bind; [apply performs_announce | intros ? _].
      eapply performs_bind;
        [apply performs_emit, P_spawn;
         now apply table_command with toolName|].
      intros ? _. apply performs_ret. split; [reflexivity|].
      exists before. cbn zeta. now rewrite Havailable.
    + eapply performs_bind; [apply performs_notInstalled|].
      intros verdict ->. apply performs_ret. split; [reflexivity|].
      exists before. cbn zeta. now rewrite Havailable.
  - apply performs_ret. split; reflexivity.
Qed.

Lemma performs_finishTool (options : Options) (fixing : bool)
    (toolName : string) (pending : string * InFlight) :
  resumed W sd fixing toolName pending ->
  performs sd P (finished W pending) (finishTool W options pending).
Proof.
  intros [Hname Hpending]. unfold finishTool, finished.
  destruct (snd pending) as [verdict | t processedArgs] eqn:Hsnd.
  - apply performs_ret. split; reflexivity.
  - assert (Htable : tableCommand sd (command t) processedArgs).
    { destruct (tools !! toolName) as [t'|] eqn:Hlook; [|discriminate].
      destruct Hpending as [before Hpending]. cbn zeta in Hpending.
      destruct (exitedCleanly _); [|discriminate].
      injection Hpending as -> ->. now apply table_command with toolName. }
    eapply performs_bind;
      [apply performs_await; intros; apply P_end; exact Htable|].
    intros outcome [before ->].
    eapply performs_bind; [apply performs_settle|].
    intros verdict ->. apply performs_ret. split; [reflexivity|].
    exists before. reflexivity.
Qed.

Lemma judged_of_finished (fixing : bool) (toolNames : list string)
    (pending : list (string * InFlight)) (collected : list ToolResult) :
  Forall2 (resumed W sd fixing) toolNames pending ->
  Forall2 (finished W) pending collected ->
  Forall2 (judged W sd fixing) toolNames collected.
Proof.
  intros Hresumed. revert collected.
  induction Hresumed as [|toolName entry names entries Hresumed _ IH];
    intros collected Hfinished; inversion Hfinished as [|? r ? rs Hr Hrest];
    subst; constructor; [|now apply IH].
  destruct Hresumed as [Hname Hentry]. destruct Hr as [Hr Hs].
  split; [congruence|]. clear IH Hrest Hfinished.
  destruct (tools !! toolName) as [t|] eqn:Hlook.
  - destruct Hentry as [before1 Hentry]. cbn zeta in Hentry.
    destruct (exitedCleanly _) eqn:Havailable; rewrite Hentry in Hs.
    + destruct Hs as [before2 Hs]. exists before1, before2.
      now rewrite Havailable.
    + exists before1, []. now rewrite Havailable.
  - rewrite Hentry in Hs. now exists [], [].
Qed.

Lemma performs_runToolsParallel (toolNames : list string)
    (options : Options) :
  performs sd P (Forall2 (judged W sd (fix_ options)) toolNames)
    (runToolsParallel W toolNames options).
Proof.
  unfold runToolsParallel.
  eapply performs_bind.
  { apply (performs_mapM sd P beginTool (fun _ _ => True)).
    intros toolName _. apply performs_beginTool. }
  intros ? _.
  eapply performs_bind.
  { apply (performs_mapM sd P (resumeTool W options)
             (resumed W sd (fix_ options))).
    intros toolName _. apply performs_resumeTool. }
  intros pending Hpending.
  eapply performs_post;
    [|apply (performs_mapM sd P (finishTool W options) (finished W))].
  - intros collected. now apply judged_of_finished.
  - intros entry Hin.
    destruct (Forall2_In_right _ _ _ _ Hpending Hin) as (toolName & _ & Hentry).
    now apply performs_finishTool with (fix_ options) toolName.
Qed.

Lemma judgedAs_map (fixing : bool) (toolNames : list string)
    (collected : list ToolResult) :
  Forall2 (judged W sd fixing) toolNames collected ->
  Forall2 (judgedAs W sd) (map (fun toolName => (toolName, fixing)) toolNames)
    collected.
Proof. induction 1; constructor; assumption. Qed.

Lemma Forall2_flat_map_concat {A B C : Type} (Q : B -> C -> Prop)
    (g : A -> list B) (l : list A) (parts : list (list C)) :
  Forall2 (fun x part => Forall2 Q (g x) part) l parts ->
  Forall2 Q (flat_map g l) (concat parts).
Proof.
  induction 1 as [|x part l parts Hpart _ IH]; cbn [flat_map concat];
    [constructor|].
  apply Forall2_app; assumption.
Qed.

Lemma performs_runAllWithFix (options : Options) :
  fix_ options = true ->
  performs sd P (Forall2 (judgedAs W sd) fixPlan) (runAllWithFix W options).
Proof.
  intros Hfix. unfold runAllWithFix.
  rewrite group_formatting, group_linting.
  eapply performs_bind; [unfold printMessage; perform | intros ? _].
  eapply performs_bind;
    [apply performs_when, performs_printCategoryHeader | intros ? _].
  eapply performs_bind; [apply performs_runToolsSequential|].
  intros formattingResults Hformatting. rewrite Hfix in Hformatting.
  eapply performs_bind;
    [apply performs_when, performs_printCategoryHeader | intros ? _].
  eapply performs_bind; [apply performs_runToolsSequential|].
  intros lintingResults Hlinting. cbn [withFix fix_] in Hlinting.
  eapply performs_bind; [apply performs_runTool|].
  intros typeCheckResult HtypeCheck. cbn [withFix fix_] in HtypeCheck.
  eapply performs_bind.
  { apply (performs_mapM sd P _
             (fun categoryName part =>
                Forall2 (judged W sd false) (group categoryName) part)).
    intros categoryName _.
    eapply performs_bind;
      [apply performs_when, performs_printCategoryHeader | intros ? _].
    apply (performs_runToolsSequential (group categoryName)
             (withFix options false)). }
  intros remaining Hremaining. apply performs_ret.
  apply Forall2_flat_map_concat in Hremaining.
  apply judgedAs_map in Hformatting, Hlinting, Hremaining.
  change fixPlan
    with ([("prettier", true)] ++ [("eslint", true)]
          ++ [("type-check", false)]
          ++ map (fun toolName => (toolName, false))
               (flat_map group ["security"; "analysis"]))%list.
  repeat apply Forall2_app; try assumption.
  constructor; [exact HtypeCheck | constructor].
Qed.

Lemma performs_runAllByCategory (toolsToRun : list string)
    (options : Options) :
  performs sd P (Forall2 (judged W sd (fix_ options)) (byCategory toolsToRun))
    (runAllByCategory W toolsToRun options).
Proof.
  unfold runAllByCategory, byCategory.
  eapply performs_bind.
  { apply (performs_mapM sd P _
             (fun categoryName part =>
                Forall2 (judged W sd (fix_ options))
                  (List.filter (Js.includes toolsToRun) (group categoryName))
                  part)).
    intros categoryName _.
    destruct (List.filter (Js.includes toolsToRun) (group categoryName))
      as [|first others] eqn:Hmembers; cbn [length Nat.eqb].
    - apply performs_ret. constructor.
    - eapply performs_bind;
        [apply performs_when, performs_printCategoryHeader | intros ? _].
      destruct (parallel options && negb (String.eqb categoryName "formatting"));
        [apply performs_runToolsParallel | apply performs_runToolsSequential]. }
  intros perCategory Hparts. apply performs_ret.
  now apply Forall2_flat_map_concat.
Qed.

Lemma performs_runResolved (toolsToRun : list string) (options : Options) :
  performs sd P (Forall2 (judgedAs W sd) (planOf options toolsToRun))
    (runResolved W toolsToRun options).
Proof.
  unfold runResolved, planOf.
  destruct (fix_ options) eqn:Hfix, (String.eqb (tool options) "all");
    cbn [andb].
  - now apply performs_runAllWithFix.
  - eapply performs_post; [intros ?; apply judgedAs_map|]. rewrite <- Hfix.
    destruct (parallel options && (1 <? length toolsToRun)%nat);
      [apply performs_runToolsParallel | apply performs_runToolsSequential].
  - eapply performs_post; [intros ?; apply judgedAs_map|]. rewrite <- Hfix.
    apply performs_runAllByCategory.
  - eapply performs_post; [intros ?; apply judgedAs_map|]. rewrite <- Hfix.
    destruct (parallel options && (1 <? length toolsToRun)%nat);
      [apply performs_runToolsParallel | apply performs_runToolsSequential].
Qed.

Lemma performs_runIdentifier (options : Options) :
  performs sd P (reported W sd options) (runIdentifier W options).
Proof.
  unfold runIdentifier, reported.
  eapply performs_bind;
    [apply performs_when, performs_printBanner | intros ? _].
  destruct (resolve (tool options)) as [toolsToRun | |].
  - eapply performs_bind; [apply performs_runResolved|].
    intros collected Hcollected.
    eapply performs_bind; [apply performs_printSummary|].
    intros passed ->. apply performs_ret. cbn [results exitCode].
    rewrite andb_true_r. split; [reflexivity | exact Hcollected].
  - unfold printMessage.
    eapply performs_bind; [apply performs_log | intros ? _].
    apply performs_ret. split; reflexivity.
  - unfold printMessage.
    eapply performs_bind; [apply performs_log | intros ? _].
    eapply performs_bind; [apply performs_log | intros ? _].
    apply performs_ret. split; reflexivity.
Qed.

Lemma performs_printHelp : performs sd P (fun _ => True) printHelp.
Proof.
  unfold printHelp. apply performs_getProjectName. intros name.
  eapply performs_bind; [apply performs_logs | intros ? _].
  now apply performs_ret.
Qed.

End Pieces.

(** *** A whole run *)

Lemma main_cases (W : World) (argv : list string) (s : State) :
  exists options s1,
    parseArgs argv s = (options, s1)
    /\ trace s1 = trace s
    /\ reportsDir s1 = reportsDir s
    /\ tool options = identifierOf argv
    /\ fix_ options = Js.includes argv "--fix"
    /\ parallel options = Js.includes argv "--parallel"
    /\ main W argv s
       = (if isHelp (identifierOf argv)
          then (printHelp;; mret {| results := []; exitCode := 0 |}) s1
          else (ensureReportsDirectory;; runIdentifier W options) s1).
Proof.
  destruct (parseArgs_spec argv s)
    as (options & s1 & Hparse & Htrace & Hdir & Htool & Hfix & _ & Hparallel).
  exists options, s1. repeat split; try assumption.
  unfold main, mbind at 1, M_bind at 1. rewrite Hparse.
  change (identifierOf argv)
    with (match argv with
          | a :: _ => if Js.truthy a then a else "help"
          | [] => "help"
          end).
  rewrite <- Htool. destruct (isHelp (tool options)); reflexivity.
Qed.

Lemma fromTable_holds (sd : string) :
  (forall line, fromTable sd (Log line))
  /\ (forall cmd argv, tableCommand sd cmd argv -> fromTable sd (Spawn cmd argv))
  /\ (forall cmd argv outcome,
        tableCommand sd cmd argv -> fromTable sd (endingOf cmd argv outcome)).
Proof.
  split; [intros; exact I|]. split; [intros; assumption|].
  intros cmd argv [code out ms | message] H; exact H.
Qed.

(** What a whole run adds to the trace and hands back. *)
Lemma run_performs (W : World) (argv : list string)
    (P : string -> Event -> Prop) :
  (forall sd line, P sd (Log line)) ->
  (forall sd cmd argv, tableCommand sd cmd argv -> P sd (Spawn cmd argv)) ->
  (forall sd cmd argv outcome,
     tableCommand sd cmd argv -> P sd (endingOf cmd argv outcome)) ->
  exists options events,
    tool options = identifierOf argv
    /\ fix_ options = Js.includes argv "--fix"
    /\ parallel options = Js.includes argv "--parallel"
    /\ trace (snd (run W argv))
       = ((if isHelp (identifierOf argv) || reportsDirExists W then []
           else [Mkdir "reports"]) ++ events)%list
    /\ Forall (P (SOURCE_DIR (snd (run W argv)))) events
    /\ reportsDir (snd (run W argv))
       = (negb (isHelp (identifierOf argv)) || reportsDirExists W)
    /\ if isHelp (identifierOf argv)
       then fst (run W argv) = {| results := []; exitCode := 0 |}
       else reported W (SOURCE_DIR (snd (run W argv))) options
              (fst (run W argv)).
Proof.
  intros Hlog Hspawn Hend. unfold run.
  destruct (main_cases W argv (initialState W))
    as (options & s1 & _ & Htrace & Hdir & Htool & Hfix & Hparallel & Hmain).
  exists options. rewrite Hmain. clear Hmain.
  cbn [trace initialState reportsDir] in Htrace, Hdir.
  destruct (isHelp (identifierOf argv)); cbn [orb negb].
  - assert (Hhelp : performs (SOURCE_DIR s1) (P (SOURCE_DIR s1))
                      (fun r => r = {| results := []; exitCode := 0 |})
                      (printHelp;; mret {| results := []; exitCode := 0 |})).
    { eapply performs_bind; [now apply performs_printHelp | intros ? _].
      now apply performs_ret. }
    destruct (Hhelp s1 eq_refl) as (r & events & Hsteps & Hevents & ->).
    exists events. unfold steps in Hsteps. rewrite Hsteps.
    cbn [fst snd trace extend reportsDir SOURCE_DIR]. rewrite Htrace, Hdir.
    do 3 (split; [assumption|]).
    split; [reflexivity|]. split; [exact Hevents|]. split; reflexivity.
  - destruct (ensureReportsDirectory_spec s1)
      as (s2 & Hensure & Htrace2 & Hsd2 & _ & Hdir2).
    destruct (performs_runIdentifier W (SOURCE_DIR s2) (P (SOURCE_DIR s2))
                (Hlog _) (Hspawn _) (Hend _) options s2 eq_refl)
      as (r & events & Hsteps & Hevents & Hreported).
    assert (Hrun : (ensureReportsDirectory;; runIdentifier W options) s1
                   = (r, extend s2 events)).
    { unfold mbind, M_bind. rewrite Hensure. exact Hsteps. }
    exists events. rewrite Hrun.
    cbn [fst snd trace extend reportsDir SOURCE_DIR].
    rewrite Htrace2, Htrace, Hdir2, Hdir.
    do 3 (split; [assumption|]).
    split; [destruct (reportsDirExists W); reflexivity|].
    split; [exact Hevents|]. split; [reflexivity | exact Hreported].
Qed.

(** X18: apart from creating the reports directory at the very start
    (only when help was not asked for and the directory is missing), a run
    does nothing but print and run children, and every command line it
    spawns is the probe of a registered tool or that tool's command with its
    check or fix arguments. *)
Theorem run_spawns_only_table_commands (W : World) (argv : list string) :
  let final := snd (run W argv) in
  exists events,
    trace final
    = ((if isHelp (identifierOf argv) || reportsDirExists W then []
        else [Mkdir "reports"]) ++ events)%list
    /\ Forall (fromTable (SOURCE_DIR final)) events
    /\ forall cmd args,
         In (Spawn cmd args) (trace final) ->
         exists toolName t fixing,
           tools !! toolName = Some t
           /\ ((cmd, args) = probeCommand t
               \/ (cmd, args)
                  = (command t,
                     processArgs (SOURCE_DIR final) (argsInMode t fixing))).
Proof.
  intros final.
  destruct (run_performs W argv fromTable) as
    (options & events & _ & _ & _ & Htrace & Hevents & _);
    try (intros sd; apply (fromTable_holds sd)).
  exists events. split; [exact Htrace|]. split; [exact Hevents|].
  intros cmd args Hin. fold final in Htrace, Hevents. rewrite Htrace in Hin.
  apply in_app_or in Hin as [Hin | Hin].
  - destruct (_ || _); [destruct Hin | destruct Hin as [H | []]; discriminate H].
  - rewrite List.Forall_forall in Hevents.
    destruct (Hevents _ Hin) as (toolName & fixing & t & Hlook & Hcmd).
    now exists toolName, t, fixing.
Qed.

(** *** Help *)

Lemma steps_logs (lines : list string) (s : State) :
  steps (mapM log lines) s (map (fun _ => tt) lines) (map Log lines).
Proof.
  revert s. induction lines as [|line lines IH]; intros s.
  - apply steps_ret.
  - cbn [mapM map].
    apply (steps_bind _ _ s tt _ [Log line] (map Log lines));
      [apply steps_emit|].
    rewrite <- (app_nil_r (map Log lines)).
    eapply steps_bind; [apply IH | apply steps_ret].
Qed.

Lemma steps_printHelp (s : State) :
  steps printHelp s tt (map Log (helpText (PROJECT_NAME s))).
Proof.
  unfold printHelp, steps, mbind at 1, M_bind at 1, getProjectName.
  rewrite <- (app_nil_r (map Log _)).
  eapply steps_bind; [apply steps_logs | apply steps_ret].
Qed.

(** X13: a request for help ([help], [--help], [-h], or no first argument)
    prints the help text and nothing else: exit status 0, no result, no
    child process, and the reports directory is left as it was. *)
Theorem help_only_prints (W : World) (argv : list string) :
  isHelp (identifierOf argv) = true ->
  let outcome := run W argv in
  fst outcome = {| results := []; exitCode := 0 |}
  /\ trace (snd outcome) = map Log (helpText (PROJECT_NAME (snd outcome)))
  /\ reportsDir (snd outcome) = reportsDirExists W.
Proof.
  intros Hhelp outcome. subst outcome. unfold run.
  destruct (main_cases W argv (initialState W))
    as (options & s1 & _ & Htrace & Hdir & _ & _ & _ & Hmain).
  rewrite Hmain, Hhelp. clear Hmain.
  assert (Hrun : steps (printHelp;; mret {| results := []; exitCode := 0 |})
                   s1 {| results := []; exitCode := 0 |}
                   (map Log (helpText (PROJECT_NAME s1)))).
  { rewrite <- (app_nil_r (map Log _)).
    eapply steps_bind; [apply steps_printHelp | apply steps_ret]. }
  unfold steps in Hrun. rewrite Hrun.
  cbn [fst snd trace extend reportsDir PROJECT_NAME].
  rewrite Htrace, Hdir. repeat split.
Qed.

Lemma help_only_prints_witness :
  fst (run allPass ["--help"; "--fix"]) = {| results := []; exitCode := 0 |}
  /\ trace (snd (run allPass ["--help"; "--fix"]))
     = map Log (helpText (PROJECT_NAME (snd (run allPass ["--help"; "--fix"]))))
  /\ reportsDir (snd (run allPass ["--help"; "--fix"]))
     = reportsDirExists allPass.
Proof. apply (help_only_prints allPass ["--help"; "--fix"]). reflexivity. Defined.

(** *** The exit status and the results *)

Lemma run_reported (W : World) (argv : list string) :
  exists options,
    tool options = identifierOf argv
    /\ fix_ options = Js.includes argv "--fix"
    /\ if isHelp (identifierOf argv)
       then fst (run W argv) = {| results := []; exitCode := 0 |}
       else reported W (SOURCE_DIR (snd (run W argv))) options
              (fst (run W argv)).
Proof.
  destruct (run_performs W argv (fun _ _ => True))
    as (options & events & Htool & Hfix & _ & _ & _ & _ & Hrun); auto.
  now exists options.
Qed.

(** X14: the exit status is 0 or 1, and it is 0 exactly when help was
    asked for, or the identifier resolves to a list of tools and every
    collected result is a success. *)
Theorem exit_status_follows_the_results (W : World) (argv : list string) :
  let outcome := fst (run W argv) in
  (exitCode outcome = 0 \/ exitCode outcome = 1)
  /\ (exitCode outcome = 0 <->
      isHelp (identifierOf argv) = true
      \/ ((exists toolsToRun, resolve (identifierOf argv) = Resolved toolsToRun)
          /\ forallb success (results outcome) = true)).
Proof.
  intros outcome. subst outcome.
  destruct (run_reported W argv) as (options & Htool & _ & Hrun).
  destruct (isHelp (identifierOf argv)).
  - rewrite Hrun. cbn [exitCode]. split; [now left|]. split; auto.
  - destruct Hrun as [Hexit _]. rewrite Htool in Hexit. rewrite Hexit.
    destruct (forallb success _);
      destruct (resolve (identifierOf argv)) as [toolsToRun | |]; cbn [andb];
      (split; [auto|]); split; intros H;
      try discriminate H;
      try (destruct H as [H | [[l H] H']]; discriminate);
      try reflexivity.
    right. split; [now exists toolsToRun | reflexivity].
Qed.

Lemma group_in_table (identifier : string) (members : list string) :
  toolGroups !! identifier = Some members -> In (identifier, members) groupTable.
Proof.
  intros H. apply list_elem_of_In.
  apply (elem_of_list_to_map_2 (M := gmap string)). exact H.
Qed.

Lemma groups_are_sound :
  Forall
    (fun entry =>
       Forall registered (snd entry) /\ NoDup (snd entry))
    groupTable.
Proof.
  repeat (apply List.Forall_cons;
          [split;
           [repeat (apply List.Forall_cons;
                    [eexists; vm_compute; reflexivity|]);
            apply List.Forall_nil
           | apply (bool_decide_unpack _); vm_compute; exact I]|]).
  apply List.Forall_nil.
Qed.

Lemma resolved_is_sound (identifier : string) (toolsToRun : list string) :
  resolve identifier = Resolved toolsToRun ->
  Forall registered toolsToRun /\ NoDup toolsToRun.
Proof.
  unfold resolve.
  destruct (toolGroups !! identifier) as [members|] eqn:Hgroup.
  - intros H. injection H as <-. apply group_in_table in Hgroup.
    pose proof groups_are_sound as Hsound.
    rewrite List.Forall_forall in Hsound. exact (Hsound _ Hgroup).
  - destruct (Js.includes objectPrototypeKeys identifier); [discriminate|].
    destruct (tools !! identifier) as [t|] eqn:Htool; [|discriminate].
    intros H. injection H as <-. split.
    + constructor; [now exists t | constructor].
    + apply NoDup_singleton.
Qed.

Lemma plan_is_sound (options : Options) (toolsToRun : list string) :
  resolve (tool options) = Resolved toolsToRun ->
  Forall registered (map fst (planOf options toolsToRun))
  /\ NoDup (map fst (planOf options toolsToRun))
  /\ (length (planOf options toolsToRun) <= length toolsToRun)%nat.
Proof.
  intros Hresolve. unfold planOf.
  destruct (String.eqb_spec (tool options) "all") as [Hall | Hother].
  - rewrite Hall, resolve_all in Hresolve. injection Hresolve as <-.
    destruct (fix_ options); cbn [andb].
    + split; [|split; [|vm_compute; lia]].
      * repeat (apply List.Forall_cons; [eexists; vm_compute; reflexivity|]).
        apply List.Forall_nil.
      * apply (bool_decide_unpack _). vm_compute. exact I.
    + rewrite map_map. cbn [fst]. rewrite map_id.
      split; [|split; [|rewrite length_map; vm_compute; lia]].
      * repeat (apply List.Forall_cons; [eexists; vm_compute; reflexivity|]).
        apply List.Forall_nil.
      * apply (bool_decide_unpack _). vm_compute. exact I.
  - rewrite andb_false_r, map_map. cbn [fst]. rewrite map_id, length_map.
    destruct (resolved_is_sound _ _ Hresolve). repeat split; auto.
Qed.

Lemma judgedAs_names (W : World) (sd : string) (plan : list (string * bool))
    (collected : list ToolResult) :
  Forall2 (judgedAs W sd) plan collected ->
  map r_tool collected = map fst plan.
Proof.
  induction 1 as [|entry r plan collected [Hname _] _ IH]; [reflexivity|].
  cbn [map]. now rewrite Hname, IH.
Qed.

(** X15: every collected result carries the name of a registered tool, no
    tool is reported twice, and a run collects at most eleven results. *)
Theorem results_name_registered_tools (W : World) (argv : list string) :
  let collected := results (fst (run W argv)) in
  Forall (fun r => registered (r_tool r)) collected
  /\ NoDup (map r_tool collected)
  /\ (length collected <= 11)%nat.
Proof.
  intros collected. subst collected.
  destruct (run_reported W argv) as (options & Htool & _ & Hrun).
  destruct (isHelp (identifierOf argv)).
  { rewrite Hrun. cbn. repeat split; [constructor | constructor | lia]. }
  destruct Hrun as [_ Hresults].
  destruct (resolve (tool options)) as [toolsToRun | |] eqn:Hresolve;
    try (rewrite Hresults; cbn; repeat split; [constructor | constructor | lia]).
  pose proof (judgedAs_names _ _ _ _ Hresults) as Hnames.
  destruct (plan_is_sound options toolsToRun Hresolve) as (Hreg & Hdup & Hlen).
  rewrite <- Hnames in Hreg, Hdup. split; [|split; [exact Hdup|]].
  - now rewrite List.Forall_map in Hreg.
  - rewrite <- (length_map r_tool), Hnames, length_map.
    etransitivity; [exact Hlen|].
    unfold resolve in Hresolve.
    destruct (toolGroups !! tool options) as [members|] eqn:Hgroup.
    + injection Hresolve as <-. apply group_in_table in Hgroup.
      assert (Hsizes : Forall (fun entry => (length (snd entry) <= 11)%nat)
                         groupTable).
      { repeat (apply List.Forall_cons; [vm_compute; lia|]).
        apply List.Forall_nil. }
      rewrite List.Forall_forall in Hsizes. exact (Hsizes _ Hgroup).
    + destruct (Js.includes objectPrototypeKeys (tool options));
        [discriminate|].
      destruct (tools !! tool options); [|discriminate].
      injection Hresolve as <-. cbn. lia.
Qed.

(** *** Steady worlds *)







(** *** One tool *)

(** A registered tool: the probe, then either the two "not installed"
    lines or the tool itself between what [announce] and [settle] print. *)
Lemma runTool_registered (W : World) (toolName : string) (t : Tool)
    (options : Options) (s : State) :
  tools !! toolName = Some t ->
  let probe := probeCommand t in
  let chosen := processArgs (SOURCE_DIR s) (argsInMode t (fix_ options)) in
  let probed :=
    child W (trace s ++ [Spawn (fst probe) (snd probe)])
      (fst probe) (snd probe) in
  if exitedCleanly probed then
    exists logs1 logs2 outcome,
      runTool W toolName options s
      = (exitedCleanly outcome,
         extend s
           ([Spawn (fst probe) (snd probe);
             endingOf (fst probe) (snd probe) probed]
            ++ logs1
            ++ [Spawn (command t) chosen;
                endingOf (command t) chosen outcome]
            ++ logs2))
      /\ Forall (fun e => isLog e = true) logs1
      /\ Forall (fun e => isLog e = true) logs2
      /\ (quiet options = true -> logs1 = [])
      /\ (quiet options = true -> exitedCleanly outcome = true ->
          logs2 = [])
  else
    runTool W toolName options s
    = (false,
       extend s
         [Spawn (fst probe) (snd probe);
          endingOf (fst probe) (snd probe) probed;
          Log (description t ++ " - TOOL NOT INSTALLED");
          Log ("Install with: npm install -D " ++ command t)]).
Proof.
  intros Hlook. unfold runTool, checkToolAvailability. rewrite Hlook.
  cbn zeta. unfold chosenArgs.
  set (probe := probeCommand t).
  set (chosen := processArgs (SOURCE_DIR s) (argsInMode t (fix_ options))).
  pose proof (steps_spawned W (fst probe) (snd probe) s) as Hprobe.
  set (probed := child W (trace s ++ [Spawn (fst probe) (snd probe)])
                   (fst probe) (snd probe)) in *.
  set (e1 := [Spawn (fst probe) (snd probe);
              endingOf (fst probe) (snd probe) probed]) in *.
  assert (Hcheck : steps (spawned W (fst probe) (snd probe)
                          ≫= λ outcome, mret (exitedCleanly outcome))
                     s (exitedCleanly probed) e1).
  { rewrite <- (app_nil_r e1).
    eapply steps_bind; [exact Hprobe | apply steps_ret]. }
  destruct (exitedCleanly probed) eqn:Havailable.
  - set (s1 := extend s e1) in *.
    destruct (steps_announce t options chosen s1)
      as (logs1 & Hannounce & Hlogs1).
    set (s2 := extend s1 logs1) in *.
    pose proof (steps_spawned W (command t) chosen s2) as Hrun.
    set (outcome := child W (trace s2 ++ [Spawn (command t) chosen])
                      (command t) chosen) in *.
    set (e2 := [Spawn (command t) chosen;
                endingOf (command t) chosen outcome]) in *.
    destruct (steps_settle t options outcome (extend s2 e2))
      as (logs2 & Hsettle & Hlogs2).
    exists logs1, logs2, outcome.
    split; [|split; [|split; [|split]]]; try assumption.
    + change (steps
                ((spawned W (fst probe) (snd probe)
                  ≫= λ outcome, mret (exitedCleanly outcome))
                 ≫= λ isAvailable,
                      if negb isAvailable then notInstalled t
                      else
                        getSourceDir
                        ≫= λ sourceDir,
                             announce t options
                               (processArgs sourceDir
                                  (argsInMode t (fix_ options)))
                             ≫= λ _,
                                  spawned W (command t)
                                    (processArgs sourceDir
                                       (argsInMode t (fix_ options)))
                                  ≫= λ outcome, settle t options outcome)
                s (exitedCleanly outcome)
                (e1 ++ logs1 ++ e2 ++ logs2)).
      eapply steps_bind; [exact Hcheck|]. cbn [negb].
      unfold steps at 1, mbind at 1, M_bind at 1, getSourceDir.
      cbn [SOURCE_DIR extend]. fold chosen.
      eapply steps_bind; [exact Hannounce|].
      eapply steps_bind; [exact Hrun | exact Hsettle].
    + intros Hquiet. unfold announce in Hannounce. rewrite Hquiet in Hannounce.
      cbn [negb when] in Hannounce. clearbody s1.
      unfold steps, mret, M_ret in Hannounce.
      injection Hannounce as Hannounce.
      apply (f_equal trace) in Hannounce. cbn [trace extend] in Hannounce.
      rewrite <- (app_nil_r (trace s1)) in Hannounce at 1.
      apply app_inv_head in Hannounce. now symmetry.
    + intros Hquiet Hpassed.
      assert (Hsilent : forall st o,
                exitedCleanly o = true ->
                steps (settle t options o) st (exitedCleanly o) logs2 ->
                logs2 = []).
      { intros st [code out ms | message] Ho Hst; [|discriminate Ho].
        cbn [exitedCleanly] in Ho, Hst. unfold settle in Hst.
        rewrite Ho, Hquiet in Hst. cbn [negb when] in Hst.
        unfold steps, mbind, M_bind, mret, M_ret in Hst.
        injection Hst as Hst. apply (f_equal trace) in Hst.
        cbn [trace extend] in Hst.
        rewrite <- (app_nil_r (trace st)) in Hst at 1.
        apply app_inv_head in Hst. now symmetry. }
      exact (Hsilent _ _ Hpassed Hsettle).
  - change (steps
              ((spawned W (fst probe) (snd probe)
                ≫= λ outcome, mret (exitedCleanly outcome))
               ≫= λ isAvailable,
                    if negb isAvailable then notInstalled t
                    else
                      getSourceDir
                      ≫= λ sourceDir,
                           announce t options
                             (processArgs sourceDir
                                (argsInMode t (fix_ options)))
                           ≫= λ _,
                                spawned W (command t)
                                  (processArgs sourceDir
                                     (argsInMode t (fix_ options)))
                                ≫= λ outcome, settle t options outcome)
              s false
              (e1 ++ [Log (description t ++ " - TOOL NOT INSTALLED");
                      Log ("Install with: npm install -D " ++ command t)])).
    eapply steps_bind; [exact Hcheck|]. cbn [negb]. apply steps_notInstalled.
Qed.

(** X16: what [runTool] does, step by step: for a name that is neither
    registered nor inherited from [Object.prototype] it prints one line and
    fails; for a registered name it runs the probe first; when the probe
    does not exit with status 0 it prints the two "not installed" lines,
    also in quiet mode, and fails without starting the tool; when it does,
    the tool is started once, with the arguments of the mode in force and
    [src/] replaced by the source directory, and the result is whether that
    child exited with status 0; in quiet mode nothing is printed before the
    start, and nothing at all when the tool passes. *)
Theorem runTool_probes_then_runs (W : World) (toolName : string)
    (options : Options) (s : State) :
  match tools !! toolName with
  | None =>
      Js.includes objectPrototypeKeys toolName = false ->
      runTool W toolName options s
      = (false, extend s [Log ("Unknown tool: " ++ toolName)])
  | Some t =>
      let probe := probeCommand t in
      let chosen := processArgs (SOURCE_DIR s) (argsInMode t (fix_ options)) in
      let probed :=
        child W (trace s ++ [Spawn (fst probe) (snd probe)])
          (fst probe) (snd probe) in
      if exitedCleanly probed then
        exists logs1 logs2 outcome,
          runTool W toolName options s
          = (exitedCleanly outcome,
             extend s
               ([Spawn (fst probe) (snd probe);
                 endingOf (fst probe) (snd probe) probed]
                ++ logs1
                ++ [Spawn (command t) chosen;
                    endingOf (command t) chosen outcome]
                ++ logs2))
          /\ Forall (fun e => isLog e = true) logs1
          /\ Forall (fun e => isLog e = true) logs2
          /\ (quiet options = true -> logs1 = [])
          /\ (quiet options = true -> exitedCleanly outcome = true ->
              logs2 = [])
      else
        runTool W toolName options s
        = (false,
           extend s
             [Spawn (fst probe) (snd probe);
              endingOf (fst probe) (snd probe) probed;
              Log (description t ++ " - TOOL NOT INSTALLED");
              Log ("Install with: npm install -D " ++ command t)])
  end.
Proof.
  destruct (tools !! toolName) as [t|] eqn:Hlook.
  - now apply runTool_registered.
  - intros _. unfold runTool. rewrite Hlook. unfold printMessage.
    change (extend s [Log ("Unknown tool: " ++ toolName)])
      with (extend s ([Log ("Unknown tool: " ++ toolName)] ++ [])).
    apply (steps_bind _ _ s tt false); [apply steps_emit | apply steps_ret].
Qed.

Lemma runTool_probes_then_runs_witness :
  runTool allPass "spellcheck" typeCheckWithFix (initialState allPass)
  = (false,
     extend (initialState allPass) [Log ("Unknown tool: " ++ "spellcheck")]).
Proof.
  pose proof (runTool_probes_then_runs allPass "spellcheck" typeCheckWithFix
                (initialState allPass)) as H.
  assert (Hlook : tools !! "spellcheck" = None) by (vm_compute; reflexivity).
  rewrite Hlook in H. apply H. reflexivity.
Defined.

(** *** The type check of the fix-mode pipeline *)

Section Around.
Context {sd : string} {ok ok' : string -> list string -> Prop}
  {P : State -> list Event -> Prop}.

Lemma around_before {A B : Type} (m : M A) (f : A -> M B) :
  sequentially sd ok m -> (forall a, around sd ok ok' P (f a)) ->
  around sd ok ok' P (m ≫= f).
Proof.
  intros Hm Hf s Hs.
  destruct (Hm s Hs) as (a & xs & Hsteps & Hxs).
  destruct (Hf a (extend s xs) Hs)
    as (b & before & mid & after & Hsteps' & Hbefore & Hmid & Hafter).
  exists b, (xs ++ before)%list, mid, after. split; [|split; [|split]].
  - rewrite <- app_assoc. eapply steps_bind; eassumption.
  - apply Sequential_app; assumption.
  - rewrite <- extend_extend. exact Hmid.
  - exact Hafter.
Qed.

Lemma around_after {A B : Type} (m : M A) (f : A -> M B) :
  around sd ok ok' P m -> (forall a, sequentially sd ok' (f a)) ->
  around sd ok ok' P (m ≫= f).
Proof.
  intros Hm Hf s Hs.
  destruct (Hm s Hs)
    as (a & before & mid & after & Hsteps & Hbefore & Hmid & Hafter).
  destruct (Hf a (extend s (before ++ mid ++ after)) Hs)
    as (b & ys & Hsteps' & Hys).
  exists b, before, mid, (after ++ ys)%list. split; [|split; [|split]].
  - replace (before ++ mid ++ after ++ ys)%list
      with ((before ++ mid ++ after) ++ ys)%list
      by now rewrite <- !app_assoc.
    eapply steps_bind; eassumption.
  - exact Hbefore.
  - exact Hmid.
  - apply Sequential_app; assumption.
Qed.

Lemma around_here {A B : Type} (m : M A) (f : A -> M B) :
  (forall s, exists a mid, steps m s a mid /\ P s mid) ->
  (forall a, sequentially sd ok' (f a)) ->
  around sd ok ok' P (m ≫= f).
Proof.
  intros Hm Hf s Hs.
  destruct (Hm s) as (a & mid & Hsteps & Hmid).
  destruct (Hf a (extend s mid) Hs) as (b & ys & Hsteps' & Hys).
  exists b, [], mid, ys. split; [|split; [|split]].
  - cbn [app]. eapply steps_bind; eassumption.
  - constructor.
  - rewrite extend_nil. exact Hmid.
  - exact Hys.
Qed.

End Around.

Lemma typeCheck_registered : tools !! "type-check" = Some typeCheckTool.
Proof. vm_compute. reflexivity. Qed.

Lemma runTool_typeChecked (W : World) (options : Options) (s : State) :
  exists a mid,
    steps (runTool W "type-check" options) s a mid /\ typeChecked W s mid.
Proof.
  pose proof (runTool_registered W "type-check" typeCheckTool options s
                typeCheck_registered) as H.
  cbn zeta in H.
  assert (Hargs : processArgs (SOURCE_DIR s)
                    (argsInMode typeCheckTool (fix_ options))
                  = ["tsc"; "--noEmit"])
    by (destruct (fix_ options); reflexivity).
  rewrite Hargs in H.
  change (probeCommand typeCheckTool) with ("npx", ["tsc"; "--version"]) in H.
  change (command typeCheckTool) with "npx" in H.
  cbn [fst snd] in H. unfold typeChecked. cbn zeta.
  destruct (child W (trace s ++ [Spawn "npx" ["tsc"; "--version"]])
              "npx" ["tsc"; "--version"]) as [code out ms | message] eqn:E;
    cbn [exitedCleanly] in *.
  - destruct (Z.eqb_spec code 0) as [-> | Hne].
    + destruct H as (logs1 & logs2 & outcome & Hrun & Hlogs1 & Hlogs2 & _).
      eexists _, _. split; [exact Hrun|].
      exists logs1. split; [exact Hlogs1|].
      exists outcome, logs2. split; [exact Hlogs2|]. reflexivity.
    + eexists _, _. split; [exact H|].
      eexists. split; [|split; [reflexivity|]].
      * repeat constructor.
      * cbn. congruence.
  - eexists _, _. split; [exact H|].
    eexists. split; [|split; [reflexivity|]].
    + repeat constructor.
    + cbn. congruence.
Qed.

Lemma around_runAllWithFix (W : World) (sd : string) (options : Options) :
  fix_ options = true ->
  around sd (planned fixPlanBefore sd) (planned fixPlanAfter sd)
    (typeChecked W) (runAllWithFix W options).
Proof.
  intros Hfix. unfold runAllWithFix.
  rewrite group_formatting, group_linting.
  apply around_before; [unfold printMessage; seq_auto|]. intros _.
  apply around_before; [apply seq_when, seq_printCategoryHeader|]. intros _.
  apply around_before.
  { apply seq_runToolsSequential. intros n cmd argv [<- | []] Hc.
    rewrite Hfix in Hc. eapply planned_intro; [|exact Hc]. cbn. tauto. }
  intros formattingResults.
  apply around_before; [apply seq_when, seq_printCategoryHeader|]. intros _.
  apply around_before.
  { apply seq_runToolsSequential. intros n cmd argv [<- | []] Hc.
    eapply planned_intro; [|exact Hc]. cbn. tauto. }
  intros lintingResults.
  apply around_here; [apply runTool_typeChecked|].
  intros typeCheckResult.
  apply seq_bind; [|intros ?; apply seq_ret].
  apply seq_mapM. intros categoryName Hcat.
  apply seq_bind; [apply seq_when, seq_printCategoryHeader|]. intros _.
  apply seq_runToolsSequential. intros n cmd argv Hn Hc.
  eapply planned_intro; [|exact Hc].
  destruct Hcat as [<- | [<- | []]];
    [rewrite group_security in Hn | rewrite group_analysis in Hn];
    cbn in Hn |- *; intuition (subst; auto 12).
Qed.

Lemma around_runIdentifier_fix_all (W : World) (sd : string)
    (options : Options) :
  tool options = "all" -> fix_ options = true ->
  around sd (planned fixPlanBefore sd) (planned fixPlanAfter sd)
    (typeChecked W) (runIdentifier W options).
Proof.
  intros Htool Hfix. unfold runIdentifier. rewrite Htool, resolve_all.
  apply around_before; [apply seq_when, seq_printBanner|]. intros _.
  apply around_after.
  - unfold runResolved. rewrite Hfix, Htool.
    apply around_runAllWithFix, Hfix.
  - intros collected.
    apply seq_bind; [apply seq_printSummary | intros ?; apply seq_ret].
Qed.

Lemma main_fix_all_around (W : World) (rest : list string) :
  Js.includes rest "--fix" = true ->
  let final := snd (run W ("all" :: rest)) in
  exists before mid after,
    trace final = (before ++ mid ++ after)%list
    /\ Sequential (planned fixPlanBefore (SOURCE_DIR final)) before
    /\ (exists s, typeChecked W s mid)
    /\ Sequential (planned fixPlanAfter (SOURCE_DIR final)) after.
Proof.
  intros Hfix. unfold run.
  destruct (main_not_help W ("all" :: rest) (initialState W))
    as (options & s2 & Htool & Hfix' & _ & _ & Htrace & _ & Hmain).
  change (tool options = "all") in Htool.
  change (fix_ options = Js.includes rest "--fix") in Hfix'.
  rewrite Hfix in Hfix'.
  rewrite Hmain by (rewrite Htool; reflexivity).
  destruct (around_runIdentifier_fix_all W (SOURCE_DIR s2) options Htool Hfix'
              s2 eq_refl)
    as (r & before & mid & after & Hsteps & Hbefore & Hmid & Hafter).
  rewrite Hsteps. cbn [snd extend trace SOURCE_DIR]. rewrite Htrace.
  exists (([] ++ (if reportsDir (initialState W) then []
                  else [Mkdir "reports"])) ++ before)%list, mid, after.
  split; [|split; [|split]].
  - now rewrite <- !app_assoc.
  - apply Sequential_mkdir_prefix, Hbefore.
  - eexists. exact Hmid.
  - exact Hafter.
Qed.

Lemma Sequential_close ok (events : list Event)
    (cmd : string) (argv : list string) (code : Z) :
  Sequential ok events -> In (Close cmd argv code) events -> ok cmd argv.
Proof.
  induction 1 as [| line rest _ IH | dir rest _ IH
                  | cmd' argv' code' rest Hok _ IH
                  | cmd' argv' message rest Hok _ IH]; cbn; intros Hin.
  - destruct Hin.
  - destruct Hin as [Heq | Hin]; [discriminate Heq | auto].
  - destruct Hin as [Heq | Hin]; [discriminate Heq | auto].
  - destruct Hin as [Heq | [Heq | Hin]];
      [discriminate Heq | injection Heq as <- <- _; exact Hok | auto].
  - destruct Hin as [Heq | [Heq | Hin]];
      [discriminate Heq | discriminate Heq | auto].
Qed.

(** Neither side of the type check runs the type checker. *)
Lemma planned_around_not_tsc (sd : string) (argv : list string) :
  planned fixPlanBefore sd "npx" ("tsc" :: argv)
  \/ planned fixPlanAfter sd "npx" ("tsc" :: argv) -> False.
Proof.
  intros [H | H]; destruct H as (toolName & fixing & Hplan & t & Hlook & Hcmd);
    cbn in Hplan;
    repeat (destruct Hplan as [Hplan | Hplan];
            [injection Hplan as <- <-;
             vm_compute in Hlook; injection Hlook as <-;
             destruct Hcmd as [Hcmd | Hcmd]; cbn in Hcmd; discriminate Hcmd|]);
    destruct Hplan.
Qed.

Lemma spawnCount_logs (cmd : string) (argv : list string)
    (logs : list Event) :
  Forall (fun e => isLog e = true) logs -> spawnCount cmd argv logs = 0%nat.
Proof.
  intros H. apply spawnCount_zero. intros Hin.
  rewrite List.Forall_forall in H. specialize (H _ Hin). discriminate H.
Qed.

Lemma spawnCount_cons (cmd : string) (argv : list string) (e : Event)
    (events : list Event) :
  spawnCount cmd argv (e :: events)
  = ((if bool_decide (e = Spawn cmd argv) then 1 else 0)
     + spawnCount cmd argv events)%nat.
Proof.
  unfold spawnCount. cbn [List.filter].
  now destruct (bool_decide (e = Spawn cmd argv)).
Qed.

Lemma logs_hold_no_close (logs : list Event)
    (cmd : string) (argv : list string) (code : Z) :
  Forall (fun e => isLog e = true) logs -> ~ In (Close cmd argv code) logs.
Proof.
  intros H Hin. rewrite List.Forall_forall in H.
  specialize (H _ Hin). discriminate H.
Qed.

Lemma endingOf_not_spawn (cmd cmd' : string) (argv argv' : list string)
    (outcome : ChildOutcome) :
  bool_decide (endingOf cmd argv outcome = Spawn cmd' argv') = false.
Proof. apply bool_decide_eq_false_2. destruct outcome; discriminate. Qed.

(** What a type check leaves in the trace. *)
Lemma typeChecked_counts (W : World) (s : State) (mid : list Event) :
  typeChecked W s mid ->
  spawnCount "npx" ["tsc"; "--version"] mid = 1%nat
  /\ (In (Close "npx" ["tsc"; "--version"] 0) mid ->
      spawnCount "npx" ["tsc"; "--noEmit"] mid = 1%nat)
  /\ (~ In (Close "npx" ["tsc"; "--version"] 0) mid ->
      spawnCount "npx" ["tsc"; "--noEmit"] mid = 0%nat)
  /\ (In (Close "npx" ["tsc"; "--version"] 0) mid ->
      exists logs outcome logs',
        mid = ([Spawn "npx" ["tsc"; "--version"];
                Close "npx" ["tsc"; "--version"] 0]
               ++ logs
               ++ [Spawn "npx" ["tsc"; "--noEmit"];
                   endingOf "npx" ["tsc"; "--noEmit"] outcome]
               ++ logs')%list
        /\ Forall (fun e => isLog e = true) logs).
Proof.
  unfold typeChecked. cbn zeta. intros (logs & Hlogs & H).
  destruct (exitedCleanly _).
  - destruct H as (outcome & logs' & Hlogs' & ->).
    split; [|split; [|split]]; [| | |intros _; now exists logs, outcome, logs'].
    + cbn [app]. rewrite !spawnCount_cons, spawnCount_app, !spawnCount_cons.
      rewrite (spawnCount_logs _ _ _ Hlogs), (spawnCount_logs _ _ _ Hlogs').
      rewrite endingOf_not_spawn. reflexivity.
    + intros _.
      cbn [app]. rewrite !spawnCount_cons, spawnCount_app, !spawnCount_cons.
      rewrite (spawnCount_logs _ _ _ Hlogs), (spawnCount_logs _ _ _ Hlogs').
      rewrite endingOf_not_spawn. reflexivity.
    + intros Hnot. exfalso. apply Hnot. cbn. tauto.
  - destruct H as (-> & Hending).
    assert (Hnone : ~ In (Close "npx" ["tsc"; "--version"] 0)
                      ([Spawn "npx" ["tsc"; "--version"];
                        endingOf "npx" ["tsc"; "--version"]
                          (child W
                             (trace s ++ [Spawn "npx" ["tsc"; "--version"]])
                             "npx" ["tsc"; "--version"])] ++ logs)).
    { intros Hin. cbn in Hin.
      destruct Hin as [Hin | [Hin | Hin]];
        [discriminate Hin | exact (Hending Hin)
        | exact (logs_hold_no_close _ _ _ _ Hlogs Hin)]. }
    split; [|split; [|split]].
    + cbn [app]. rewrite !spawnCount_cons.
      rewrite (spawnCount_logs _ _ _ Hlogs), endingOf_not_spawn. reflexivity.
    + intros Hin. destruct (Hnone Hin).
    + intros _. cbn [app]. rewrite !spawnCount_cons.
      rewrite (spawnCount_logs _ _ _ Hlogs), endingOf_not_spawn. reflexivity.
    + intros Hin. destruct (Hnone Hin).
Qed.

Lemma Sequential_without (ok : string -> list string -> Prop)
    (events : list Event) (cmd : string) (argv : list string) :
  Sequential ok events -> ~ ok cmd argv ->
  spawnCount cmd argv events = 0%nat
  /\ forall code, ~ In (Close cmd argv code) events.
Proof.
  intros Hseq Hnot. split.
  - apply spawnCount_zero. intros Hin.
    exact (Hnot (Sequential_spawn _ _ _ _ Hseq Hin)).
  - intros code Hin. exact (Hnot (Sequential_close _ _ _ _ _ Hseq Hin)).
Qed.

Lemma main_fix_all_typeCheck (W : World) (rest : list string) :
  Js.includes rest "--fix" = true ->
  let final := snd (run W ("all" :: rest)) in
  spawnCount "npx" ["tsc"; "--version"] (trace final) = 1%nat
  /\ (In (Close "npx" ["tsc"; "--version"] 0) (trace final) ->
      spawnCount "npx" ["tsc"; "--noEmit"] (trace final) = 1%nat)
  /\ (~ In (Close "npx" ["tsc"; "--version"] 0) (trace final) ->
      spawnCount "npx" ["tsc"; "--noEmit"] (trace final) = 0%nat)
  /\ (In (Close "npx" ["tsc"; "--version"] 0) (trace final) ->
      exists before logs outcome after,
        trace final
        = (before
           ++ [Spawn "npx" ["tsc"; "--version"];
               Close "npx" ["tsc"; "--version"] 0]
           ++ logs
           ++ [Spawn "npx" ["tsc"; "--noEmit"];
               endingOf "npx" ["tsc"; "--noEmit"] outcome]
           ++ after)%list
        /\ Forall (fun e => isLog e = true) logs).
Proof.
  intros Hfix final.
  destruct (main_fix_all_around W rest Hfix)
    as (before & mid & after & Htrace & Hbefore & (s & Hmid) & Hafter).
  fold final in Htrace, Hbefore, Hafter. rewrite Htrace.
  destruct (typeChecked_counts W s mid Hmid)
    as (Hprobe & Hran & Hnot & Hshape).
  assert (Hb : forall argv,
             spawnCount "npx" ("tsc" :: argv) before = 0%nat
             /\ forall code, ~ In (Close "npx" ("tsc" :: argv) code) before).
  { intros argv. apply (Sequential_without _ _ _ _ Hbefore).
    intros H. apply (planned_around_not_tsc (SOURCE_DIR final) argv).
    now left. }
  assert (Ha : forall argv,
             spawnCount "npx" ("tsc" :: argv) after = 0%nat
             /\ forall code, ~ In (Close "npx" ("tsc" :: argv) code) after).
  { intros argv. apply (Sequential_without _ _ _ _ Hafter).
    intros H. apply (planned_around_not_tsc (SOURCE_DIR final) argv).
    now right. }
  assert (Hmiddle : In (Close "npx" ["tsc"; "--version"] 0)
                      (before ++ mid ++ after) ->
                    In (Close "npx" ["tsc"; "--version"] 0) mid).
  { intros Hin. rewrite !in_app_iff in Hin.
    destruct Hin as [Hin | [Hin | Hin]];
      [destruct (proj2 (Hb _) _ Hin) | exact Hin
      | destruct (proj2 (Ha _) _ Hin)]. }
  rewrite !spawnCount_app.
  rewrite !(proj1 (Hb _)), !(proj1 (Ha _)), Hprobe.
  split; [reflexivity|]. split; [|split].
  - intros Hin. rewrite (Hran (Hmiddle Hin)). reflexivity.
  - intros Hnone. rewrite Hnot; [reflexivity|].
    intros Hin. apply Hnone. rewrite !in_app_iff. tauto.
  - intros Hin.
    destruct (Hshape (Hmiddle Hin)) as (logs & outcome & logs' & -> & Hlogs).
    exists before, logs, outcome, (logs' ++ after)%list.
    split; [|exact Hlogs]. now rewrite <- !app_assoc.
Qed.

(** C6: in a run of [all] with [--fix], whatever the children do, at most
    one child process is alive at any time (so no two formatting fixers
    overlap); no tool of the type-checking, security, vulnerability,
    dead-code, duplication, complexity, maintainability or dependency
    categories is ever spawned with its fix command; the type checker is
    only ever spawned as its version probe and as [tsc --noEmit]; and it
    is invoked: the probe [npx tsc --version] is spawned exactly once,
    and [npx tsc --noEmit] is spawned exactly once when that probe exits
    with code 0 and not at all otherwise; after a probe that exits with
    code 0 only lines are printed before [npx tsc --noEmit] starts. *)
Theorem fix_pipeline_is_sequential_and_check_only
    (W : World) (rest : list string) :
  Js.includes rest "--fix" = true ->
  let final := snd (run W ("all" :: rest)) in
  (peakConcurrency (trace final) <= 1)%nat
  /\ (forall toolName t cmd argv,
         tools !! toolName = Some t ->
         In (category t) (TypeChecking :: diagnosticCategories) ->
         fixCommandOf (SOURCE_DIR final) t = Some (cmd, argv) ->
         spawnCount cmd argv (trace final) = 0%nat)
  /\ (forall argv,
         In (Spawn "npx" ("tsc" :: argv)) (trace final) ->
         argv = ["--version"] \/ argv = ["--noEmit"])
  /\ spawnCount "npx" ["tsc"; "--version"] (trace final) = 1%nat
  /\ (In (Close "npx" ["tsc"; "--version"] 0) (trace final) ->
      spawnCount "npx" ["tsc"; "--noEmit"] (trace final) = 1%nat)
  /\ (~ In (Close "npx" ["tsc"; "--version"] 0) (trace final) ->
      spawnCount "npx" ["tsc"; "--noEmit"] (trace final) = 0%nat)
  /\ (In (Close "npx" ["tsc"; "--version"] 0) (trace final) ->
      exists before logs outcome after,
        trace final
        = (before
           ++ [Spawn "npx" ["tsc"; "--version"];
               Close "npx" ["tsc"; "--version"] 0]
           ++ logs
           ++ [Spawn "npx" ["tsc"; "--noEmit"];
               endingOf "npx" ["tsc"; "--noEmit"] outcome]
           ++ after)%list
        /\ Forall (fun e => isLog e = true) logs).
Proof.
  intros Hfix final.
  pose proof (main_fix_all W rest Hfix) as Hseq. fold final in Hseq.
  split; [|split; [|split]].
  - eapply Sequential_peakConcurrency, Hseq.
  - intros toolName t cmd argv Hlook Hcat Hcmd.
    apply spawnCount_zero. intros Hin.
    pose proof (planned_fixPlan_commands _ _ _
                  (Sequential_spawn _ _ _ _ Hseq Hin)) as Hplanned.
    apply tool_in_table in Hlook. cbn in Hlook.
    repeat (destruct Hlook as [Hlook | Hlook];
            [injection Hlook as <- <-;
             try (cbn in Hcat; intuition discriminate);
             try discriminate Hcmd|]);
      try (destruct Hlook).
    injection Hcmd as <- <-.
    cbn in Hplanned. intuition discriminate.
  - intros argv Hin.
    pose proof (planned_fixPlan_commands _ _ _
                  (Sequential_spawn _ _ _ _ Hseq Hin)) as Hplanned.
    cbn in Hplanned.
    repeat (destruct Hplanned as [H | Hplanned];
            [try discriminate H; injection H as <-; auto|]).
    destruct Hplanned.
  - exact (main_fix_all_typeCheck W rest Hfix).
Qed.

Lemma fix_pipeline_is_sequential_and_check_only_witness :
  let final := snd (run allPass ["all"; "--fix"]) in
  (peakConcurrency (trace final) <= 1)%nat
  /\ (forall argv,
         In (Spawn "npx" ("tsc" :: argv)) (trace final) ->
         argv = ["--version"] \/ argv = ["--noEmit"])
  /\ spawnCount "npx" ["tsc"; "--version"] (trace final) = 1%nat
  /\ In (Close "npx" ["tsc"; "--version"] 0) (trace final)
  /\ spawnCount "npx" ["tsc"; "--noEmit"] (trace final) = 1%nat.
Proof.
  intros final.
  destruct (fix_pipeline_is_sequential_and_check_only allPass ["--fix"]
              eq_refl)
    as (Hpeak & _ & Honly & Hprobe & Hran & _ & _).
  fold final in Hpeak, Honly, Hprobe, Hran.
  assert (Hclosed : In (Close "npx" ["tsc"; "--version"] 0) (trace final)).
  { vm_compute. repeat (try (left; reflexivity); right). }
  split; [exact Hpeak|]. split; [exact Honly|]. split; [exact Hprobe|].
  split; [exact Hclosed | exact (Hran Hclosed)].
Defined.

(** A world in which the type checker is not installed: the probe is
    spawned, the type checker is not. *)
Example missing_type_checker_is_probed_only :
  let final := snd (run withoutTypeChecker ["all"; "--fix"]) in
  spawnCount "npx" ["tsc"; "--version"] (trace final) = 1%nat
  /\ spawnCount "npx" ["tsc"; "--noEmit"] (trace final) = 0%nat.
Proof. vm_compute. split; reflexivity. Qed.

(** *** Without [--parallel] *)

Lemma seq_printHelp (sd : string) ok : sequentially sd ok printHelp.
Proof.
  unfold printHelp. apply seq_getProjectName. intros name.
  apply seq_bind; [|intros _; apply seq_ret].
  apply seq_mapM. intros line _. apply seq_log.
Qed.

Lemma seq_runAllByCategory (W : World) (sd : string)
    (toolsToRun : list string) (options : Options) :
  parallel options = false ->
  sequentially sd (fun _ _ => True) (runAllByCategory W toolsToRun options).
Proof.
  intros Hparallel. unfold runAllByCategory. rewrite Hparallel.
  apply seq_bind; [|intros ?; apply seq_ret].
  apply seq_mapM. intros categoryName _.
  destruct (length _ =? 0)%nat; [apply seq_ret|].
  apply seq_bind; [apply seq_when, seq_printCategoryHeader | intros _].
  cbn [andb]. apply seq_runToolsSequential. intros; exact I.
Qed.

Lemma seq_runResolved (W : World) (sd : string) (toolsToRun : list string)
    (options : Options) :
  parallel options = false ->
  sequentially sd (fun _ _ => True) (runResolved W toolsToRun options).
Proof.
  intros Hparallel. unfold runResolved. rewrite Hparallel. cbn [andb].
  destruct (fix_ options) eqn:Hfix, (String.eqb (tool options) "all");
    cbn [andb].
  - apply seq_weaken with (planned fixPlan sd); [intros; exact I|].
    apply seq_runAllWithFix. exact Hfix.
  - apply seq_runToolsSequential. intros; exact I.
  - apply seq_runAllByCategory. exact Hparallel.
  - apply seq_runToolsSequential. intros; exact I.
Qed.

Lemma seq_runIdentifier (W : World) (sd : string) (options : Options) :
  parallel options = false ->
  sequentially sd (fun _ _ => True) (runIdentifier W options).
Proof.
  intros Hparallel. unfold runIdentifier.
  apply seq_bind; [apply seq_when, seq_printBanner | intros _].
  destruct (resolve (tool options)) as [toolsToRun | |].
  - apply seq_bind; [now apply seq_runResolved | intros collected].
    apply seq_bind; [apply seq_printSummary | intros passed]. apply seq_ret.
  - unfold printMessage. seq_auto.
  - unfold printMessage. seq_auto.
Qed.

(** X17: without [--parallel], whatever the identifier and the other
    flags, every child ends before anything else happens, so at most one
    child is alive at any time. *)
Theorem without_parallel_one_child_at_a_time (W : World)
    (argv : list string) :
  Js.includes argv "--parallel" = false ->
  Sequential (fun _ _ => True) (trace (snd (run W argv)))
  /\ (peakConcurrency (trace (snd (run W argv))) <= 1)%nat.
Proof.
  intros Hflag.
  assert (Hseq : Sequential (fun _ _ => True) (trace (snd (run W argv)))).
  { unfold run.
    destruct (main_cases W argv (initialState W))
      as (options & s1 & _ & Htrace & _ & _ & _ & Hparallel & Hmain).
    rewrite Hmain. clear Hmain. rewrite Hflag in Hparallel.
    cbn [trace initialState] in Htrace.
    destruct (isHelp (identifierOf argv)).
    - assert (Hhelp : sequentially (SOURCE_DIR s1) (fun _ _ => True)
                        (printHelp;; mret {| results := []; exitCode := 0 |})).
      { apply seq_bind; [apply seq_printHelp | intros _; apply seq_ret]. }
      destruct (Hhelp s1 eq_refl) as (r & events & Hsteps & Hevents).
      unfold steps in Hsteps. rewrite Hsteps. cbn [snd trace extend].
      now rewrite Htrace.
    - destruct (ensureReportsDirectory_spec s1)
        as (s2 & Hensure & Htrace2 & _ & _ & _).
      destruct (seq_runIdentifier W (SOURCE_DIR s2) options Hparallel s2
                  eq_refl) as (r & events & Hsteps & Hevents).
      assert (Hrun : (ensureReportsDirectory;; runIdentifier W options) s1
                     = (r, extend s2 events)).
      { unfold mbind, M_bind. rewrite Hensure. exact Hsteps. }
      rewrite Hrun. cbn [snd trace extend]. rewrite Htrace2, Htrace.
      now apply Sequential_mkdir_prefix. }
  split; [exact Hseq | exact (Sequential_peakConcurrency _ _ Hseq)].
Qed.

Lemma without_parallel_one_child_at_a_time_witness :
  Sequential (fun _ _ => True) (trace (snd (run allPass ["all"; "--fix"])))
  /\ (peakConcurrency (trace (snd (run allPass ["all"; "--fix"]))) <= 1)%nat.
Proof.
  apply (without_parallel_one_child_at_a_time allPass ["all"; "--fix"]).
  reflexivity.
Defined.

(** *** [--source-dir] *)

Lemma append_empty (s : string) : s ++ "" = s.
Proof.
  induction s as [|c s IH]; [reflexivity|].
  change (String c (s ++ "") = String c s). now rewrite IH.
Qed.

Lemma expand_plain (matched before after replacement : string) :
  Js.plainReplacement replacement = true ->
  Js.expand matched before after replacement = replacement.
Proof.
  induction replacement as [|c rest IH]; [reflexivity|].
  cbn [Js.plainReplacement Js.expand]. intros H.
  apply andb_prop in H as [Hc Hrest].
  destruct (Ascii.eqb c "$"); [discriminate|].
  now rewrite IH.
Qed.

Lemma plain_directory (sd : string) :
  Js.plainReplacement sd = true -> Js.plainReplacement (sd ++ "/") = true.
Proof.
  induction sd as [|c sd IH]; [reflexivity|].
  change (String c sd ++ "/") with (String c (sd ++ "/")).
  cbn [Js.plainReplacement]. intros H.
  apply andb_prop in H as [Hc Hrest].
  now rewrite Hc, IH.
Qed.

(** X20: a source directory without [$] reaches one command line only:
    for every registered tool but [dependency-check], in check and in fix
    mode, the arguments spawned are the ones of the table, whatever
    [--source-dir] says; for [dependency-check] the last argument is the
    source directory followed by a slash. *)
Theorem source_dir_reaches_only_dependency_check
    (toolName sd : string) (t : Tool) (fixing : bool) :
  tools !! toolName = Some t ->
  Js.plainReplacement sd = true ->
  processArgs sd (argsInMode t fixing)
  = if String.eqb toolName "dependency-check"
    then ["depcruise"; "--validate"; ".dependency-cruiser.cjs"; sd ++ "/"]
    else argsInMode t fixing.
Proof.
  intros Hlook Hplain. apply tool_in_table in Hlook.
  cbn [toolTable In] in Hlook.
  pose proof (expand_plain "src/" "" "" _ (plain_directory sd Hplain))
    as Hexpand.
  decompose [or] Hlook; try contradiction;
    match goal with H : _ = (toolName, t) |- _ => injection H as <- <- end;
    destruct fixing; cbn; rewrite ?Hexpand, ?append_empty; reflexivity.
Qed.

Lemma source_dir_reaches_only_dependency_check_witness :
  processArgs "packages/app" (argsInMode dependencyCheckTool false)
  = if String.eqb "dependency-check" "dependency-check"
    then ["depcruise"; "--validate"; ".dependency-cruiser.cjs";
          "packages/app" ++ "/"]
    else argsInMode dependencyCheckTool false.
Proof.
  apply (source_dir_reaches_only_dependency_check "dependency-check"
           "packages/app" dependencyCheckTool false).
  - vm_compute. reflexivity.
  - reflexivity.
Defined.

(** A [$] in the source directory is read as a pattern of [replace]:
    [$&] brings the matched [src/] back, [$$] is one dollar sign. *)
Example dollar_in_source_dir_is_expanded :
  processArgs "$&" ["depcruise"; "src/"] = ["depcruise"; "src//"]
  /\ processArgs "a$$b" ["depcruise"; "src/"] = ["depcruise"; "a$b/"].
Proof. split; reflexivity. Qed.

(** *** [parseArgs] *)

Lemma valueAfter_first (flag value : string) (before after : list string) :
  ~ In flag before ->
  valueAfter flag (before ++ flag :: value :: after)
  = if Js.truthy value then Some value else None.
Proof.
  induction before as [|a before IH]; intros Hnot; cbn [app valueAfter].
  - now rewrite String.eqb_refl.
  - destruct (String.eqb_spec a flag) as [-> | _].
    + exfalso. apply Hnot. now left.
    + apply IH. intros H. apply Hnot. now right.
Qed.

Lemma includes_In (l : list string) (x : string) :
  Js.includes l x = true <-> In x l.
Proof.
  unfold Js.includes. rewrite existsb_exists. split.
  - intros (y & Hy & Heq). apply String.eqb_eq in Heq. now subst.
  - intros H. exists x. split; [exact H | apply String.eqb_refl].
Qed.

(** X21: the value of [--source-dir] is whatever argument follows its
    first occurrence, as long as it is not empty; the value is not taken
    out of the arguments, so a flag in that place still counts as a
    flag. *)
Theorem option_value_is_the_next_argument
    (before after : list string) (value : string) (s : State) :
  ~ In "--source-dir" before ->
  value <> "" ->
  let argv := (before ++ "--source-dir" :: value :: after)%list in
  let parsed := parseArgs argv s in
  SOURCE_DIR (snd parsed) = value
  /\ sourceDir (fst parsed) = Some value
  /\ trace (snd parsed) = trace s
  /\ (fix_ (fst parsed) = true <-> In "--fix" argv)
  /\ (parallel (fst parsed) = true <-> In "--parallel" argv).
Proof.
  intros Hfirst Hvalue argv parsed. subst parsed. unfold parseArgs.
  assert (Hdir : valueAfter "--source-dir" argv = Some value).
  { subst argv. rewrite valueAfter_first by assumption.
    unfold Js.truthy. now destruct (String.eqb_spec value "") as [-> | _]. }
  rewrite Hdir. unfold mbind, M_bind, mret, M_ret, setSourceDir.
  destruct (valueAfter "--project-name" argv) as [name|];
    cbn [fst snd SOURCE_DIR sourceDir trace fix_ parallel setProjectName];
    rewrite <- !includes_In; repeat split; auto.
Qed.

Lemma option_value_is_the_next_argument_witness :
  let argv := (["all"] ++ "--source-dir" :: "--fix" :: [])%list in
  let parsed := parseArgs argv (initialState allPass) in
  SOURCE_DIR (snd parsed) = "--fix"
  /\ sourceDir (fst parsed) = Some "--fix"
  /\ trace (snd parsed) = trace (initialState allPass)
  /\ (fix_ (fst parsed) = true <-> In "--fix" argv)
  /\ (parallel (fst parsed) = true <-> In "--parallel" argv).
Proof.
  apply (option_value_is_the_next_argument ["all"] [] "--fix"
           (initialState allPass)).
  - intros [H | []]. discriminate H.
  - discriminate.
Defined.

End RunnerMore.
